(** * The inotify back end of fsnotifier (native/fsNotifier/linux/inotify.c)

    A shallow embedding of the watch table, of the recursive directory
    walker, of node removal and of the translation of kernel events, with
    the properties of the specification stated over it.

    Conventions of the embedding.
    - The process-wide variables of inotify.c ([watches], [limit_reached],
      [callback], [path_buf]) are the fields of one [state] record that
      every operation threads.  The nodes allocated with [malloc] live in
      a heap indexed by addresses; the table and the [parent] and [kids]
      fields hold addresses, so aliasing and dangling pointers are as in C.
    - The operating system is an abstract deterministic machine
      ([Kernel]): each system call maps the current world to a result and
      a new world.  A directory stream is the list of the entries that
      [readdir] hands out; [closedir] has no observable effect.
    - Logging ([userlog]) is dropped.  Allocation never fails.  Paths are
      assumed to fit [path_buf].
    - Undefined behaviour (a null or dangling pointer dereferenced, a read
      before the start of a string) and running out of recursion fuel are
      the [Crash] outcomes of the monad. *)

From Stdlib Require Import ZArith String Ascii List Bool Lia.
From stdpp Require Import base option gmap strings list fin_maps.

Local Open Scope Z_scope.

(** ** Constants of the system headers *)

(** <errno.h> on Linux. *)
Module Errno.
Definition ENOENT : Z := 2.
Definition EIO : Z := 5.
Definition EACCES : Z := 13.
Definition ENOTDIR : Z := 20.
Definition EMFILE : Z := 24.
Definition ENOSPC : Z := 28.
Definition ENAMETOOLONG : Z := 36.
Definition ELOOP : Z := 40.
End Errno.
Import Errno.

(** <sys/inotify.h>. *)
Definition IN_MODIFY : Z := 0x2.
Definition IN_ATTRIB : Z := 0x4.
Definition IN_MOVED_FROM : Z := 0x40.
Definition IN_MOVED_TO : Z := 0x80.
Definition IN_CREATE : Z := 0x100.
Definition IN_DELETE : Z := 0x200.
Definition IN_DELETE_SELF : Z := 0x400.
Definition IN_MOVE_SELF : Z := 0x800.
Definition IN_Q_OVERFLOW : Z := 0x4000.
Definition IN_IGNORED : Z := 0x8000.
Definition IN_ISDIR : Z := 0x40000000.
Definition IN_MOVE : Z := Z.lor IN_MOVED_FROM IN_MOVED_TO.

(** <dirent.h> and <sys/stat.h>. *)
Definition DT_UNKNOWN : Z := 0.
Definition DT_DIR : Z := 4.
Definition DT_REG : Z := 8.
Definition S_IFMT : Z := 0xF000.
Definition S_IFDIR : Z := 0x4000.
Definition S_IFREG : Z := 0x8000.
Definition S_ISDIR (m : Z) : bool := Z.land m S_IFMT =? S_IFDIR.
Definition S_ISREG (m : Z) : bool := Z.land m S_IFMT =? S_IFREG.

(** inotify.c, line 123. *)
Definition EVENT_MASK : Z :=
  Z.lor IN_MODIFY (Z.lor IN_ATTRIB (Z.lor IN_CREATE (Z.lor IN_DELETE
    (Z.lor IN_MOVE (Z.lor IN_DELETE_SELF IN_MOVE_SELF))))).

(** ** Declarations of fsnotifier.h *)

(** Modelled from the spec: the header fsnotifier.h, which declares the
    outcome codes returned by [add_watch], [walk_tree] and [watch], is not
    among the sources.  The spec describes them as negative integers that
    share the return channel with valid handles ([Ignore], [Continue],
    [Abort], [Missing]); they are four distinct negative integers here. *)
Definition ERR_IGNORE : Z := -1.
Definition ERR_CONTINUE : Z := -2.
Definition ERR_ABORT : Z := -3.
Definition ERR_MISSING : Z := -4.

(** The two notifications [message] can send to the host. *)
Inductive MSG := MSG_INSTANCE_LIMIT | MSG_WATCH_LIMIT.

(** Modelled from the spec: the growable [array] of util.c is not among the
    sources.  It is an ordered collection whose slots can be cleared
    (tombstoned); the callers rely on a null array having size 0 and on
    [array_get] answering null outside the array.  A null array is [None],
    a null slot of an array of pointers is [None]. *)
Definition array (A : Type) : Type := option (list A).

Definition array_elems {A} (a : array A) : list A :=
  match a with Some l => l | None => [] end.

Definition array_size {A} (a : array A) : nat := length (array_elems a).

Definition array_get {A} (a : array (option A)) (i : nat) : option A :=
  match array_elems a !! i with Some x => x | None => None end.

Definition array_push {A} (a : array A) (x : A) : array A :=
  Some (array_elems a ++ [x]).

Definition array_put {A} (a : array A) (i : nat) (x : A) : array A :=
  match a with Some l => Some (<[i := x]> l) | None => None end.

(** ** C strings and the path buffer *)

Definition NUL : ascii := "000"%char.

(** The C string stored at the start of a byte sequence: the bytes before
    the first NUL (a sequence that ends without one is read as if a NUL
    followed it). *)
Fixpoint cstr (b : string) : string :=
  match b with
  | EmptyString => EmptyString
  | String c r => if Ascii.eqb c NUL then EmptyString else String c (cstr r)
  end.

Definition strlen (b : string) : nat := String.length (cstr b).

(** [strcmp(a, b) == 0]. *)
Definition strcmp_eq (a b : string) : bool := String.eqb (cstr a) (cstr b).

(** [strncmp(a, b, n) == 0]: at most [n] bytes are compared and the
    comparison stops at a NUL. *)
Fixpoint strncmp_eq (a b : string) (n : nat) : bool :=
  match n with
  | O => true
  | S n' =>
      match cstr a, cstr b with
      | EmptyString, EmptyString => true
      | String x a', String y b' => Ascii.eqb x y && strncmp_eq a' b' n'
      | _, _ => false
      end
  end.

(** The first [n] bytes of a byte sequence, read with zeros past its end. *)
Fixpoint buf_take (n : nat) (b : string) : string :=
  match n with
  | O => EmptyString
  | S n' =>
      match b with
      | EmptyString => String NUL (buf_take n' EmptyString)
      | String c r => String c (buf_take n' r)
      end
  end.

(** [src] written over the start of [b]. *)
Fixpoint overwrite (src b : string) : string :=
  match src with
  | EmptyString => b
  | String c src' =>
      String c (overwrite src' (match b with EmptyString => EmptyString | String _ r => r end))
  end.

(** [src] written into [b] from offset [off] on. *)
Fixpoint buf_write (off : nat) (src b : string) : string :=
  match off with
  | O => overwrite src b
  | S off' =>
      match b with
      | EmptyString => String NUL (buf_write off' src EmptyString)
      | String c r => String c (buf_write off' src r)
      end
  end.

(** [memcpy(b + off, src, n)]. *)
Definition memcpy (off : nat) (src : string) (n : nat) (b : string) : string :=
  buf_write off (buf_take n src) b.

(** [b[off] = c]. *)
Definition poke (off : nat) (c : ascii) (b : string) : string :=
  buf_write off (String c EmptyString) b.

(** ** Data of inotify.c *)

Abbreviation loc := nat (only parsing).

Record watch_path := mk_watch_path { path_len : nat; path : string }.

Record watch_node := mk_watch_node {
  wd : Z;
  parent : option loc;
  kids : array (option loc);
  paths : list watch_path
}.

(** A node with its aliases, or its children, replaced. *)
Definition with_paths (l : list watch_path) (nd : watch_node) : watch_node :=
  mk_watch_node (wd nd) (parent nd) (kids nd) l.
Definition with_kids (k : array (option loc)) (nd : watch_node) : watch_node :=
  mk_watch_node (wd nd) (parent nd) k (paths nd).

Record dirent := mk_dirent { d_name : string; d_type : Z }.

Record inotify_event := mk_event {
  ev_wd : Z;
  ev_mask : Z;
  ev_len : Z;
  ev_name : string
}.

(** ** The operating system *)

(** The system calls inotify.c makes.  A failing call answers a negative
    (or null) result together with the value it leaves in [errno]. *)
Class Kernel (World : Type) := {
  inotify_add_watch : string -> Z -> World -> Z * Z * World;
  inotify_rm_watch : Z -> World -> Z * World;
  realpath : string -> World -> option string * World;
  opendir : string -> World -> option (list dirent) * Z * World;
  stat : string -> World -> Z * Z * Z * World;
  read_events : World -> option (list inotify_event) * World
}.

(** ** The state of the process and the monad of its operations *)

Inductive fault := OutOfFuel | NullPointer | InvalidPointer | OutOfBounds.

Section Watcher.

Context {World : Type} `{K : Kernel World}.

Record state := mk_state {
  world : World;
  watches : gmap Z loc;
  heap : gmap loc watch_node;
  next_loc : loc;
  limit_reached : bool;
  callback : bool;
  path_buf : string;
  sent : list MSG;
  called : list (string * Z)
}.

Definition set_world (w : World) (s : state) : state :=
  mk_state w (watches s) (heap s) (next_loc s) (limit_reached s) (callback s)
           (path_buf s) (sent s) (called s).
Definition set_watches (t : gmap Z loc) (s : state) : state :=
  mk_state (world s) t (heap s) (next_loc s) (limit_reached s) (callback s)
           (path_buf s) (sent s) (called s).
Definition set_heap (h : gmap loc watch_node) (s : state) : state :=
  mk_state (world s) (watches s) h (next_loc s) (limit_reached s) (callback s)
           (path_buf s) (sent s) (called s).
Definition set_next_loc (n : loc) (s : state) : state :=
  mk_state (world s) (watches s) (heap s) n (limit_reached s) (callback s)
           (path_buf s) (sent s) (called s).
Definition set_limit_reached (b : bool) (s : state) : state :=
  mk_state (world s) (watches s) (heap s) (next_loc s) b (callback s)
           (path_buf s) (sent s) (called s).
Definition set_path_buf (b : string) (s : state) : state :=
  mk_state (world s) (watches s) (heap s) (next_loc s) (limit_reached s) (callback s)
           b (sent s) (called s).
Definition set_sent (l : list MSG) (s : state) : state :=
  mk_state (world s) (watches s) (heap s) (next_loc s) (limit_reached s) (callback s)
           (path_buf s) l (called s).
Definition set_called (l : list (string * Z)) (s : state) : state :=
  mk_state (world s) (watches s) (heap s) (next_loc s) (limit_reached s) (callback s)
           (path_buf s) (sent s) l.

Inductive outcome (A : Type) : Type :=
| Ret (a : A) (s : state)
| Crash (f : fault) (s : state).
Global Arguments Ret {A} a s.
Global Arguments Crash {A} f s.

Definition M (A : Type) : Type := state -> outcome A.

Definition ret {A} (a : A) : M A := fun s => Ret a s.
Definition crash {A} (f : fault) : M A := fun s => Crash f s.
Definition bind {A B} (m : M A) (k : A -> M B) : M B :=
  fun s => match m s with Ret a s' => k a s' | Crash f s' => Crash f s' end.

Definition final {A} (o : outcome A) : state :=
  match o with Ret _ s => s | Crash _ s => s end.

Definition value {A} (o : outcome A) : option A :=
  match o with Ret a _ => Some a | Crash _ _ => None end.

End Watcher.

Global Arguments state World : clear implicits.
Global Arguments M World A : clear implicits.
Global Arguments outcome World A : clear implicits.

Declare Scope watch_scope.
Delimit Scope watch_scope with watch.
Notation "x <- m ;; k" := (bind m (fun x => k))
  (at level 100, m at next level, right associativity) : watch_scope.
Notation "m ;; k" := (bind m (fun _ => k))
  (at level 100, right associativity) : watch_scope.
Local Open Scope watch_scope.

(** [m2] returns whatever [m1] returns. *)
Definition extends {World A} (m1 m2 : M World A) : Prop :=
  forall s a s', m1 s = Ret a s' -> m2 s = Ret a s'.

(** Lines 319-323 of [watch]: a leading bar asks for a flat watch and is
    stepped over.  The result is [recursive] and the advanced [root]. *)
Definition strip_bar (root : string) : bool * string :=
  match cstr root with
  | String c r => if Ascii.eqb c "|" then (false, r) else (true, cstr root)
  | EmptyString => (true, EmptyString)
  end.

Section Operations.

Context {World : Type} `{K : Kernel World}.

Local Abbreviation M := (M World).
Local Abbreviation state := (state World).

(** *** Primitive accesses *)

(** A system call, run on the current world. *)
Definition sys {A} (call : World -> A * World) : M A :=
  fun s => let '(a, w) := call (world s) in Ret a (set_world w s).

(** The C string held by [path_buf]. *)
Definition get_path : M string := fun s => Ret (cstr (path_buf s)) s.

(** The bytes of [path_buf]. *)
Definition get_buf : M string := fun s => Ret (path_buf s) s.

Definition update_buf (f : string -> string) : M unit :=
  fun s => Ret tt (set_path_buf (f (path_buf s)) s).

(** Modelled from the spec: the hash table of util.c is not among the
    sources.  Per the spec it is a mapping from handles to nodes with
    [get], [put] and [remove]; its capacity is advisory and no insertion is
    rejected.  [table_put] with a null value clears the entry. *)
Definition table_get (key : Z) : M (option loc) :=
  fun s => Ret (watches s !! key) s.

Definition table_put (key : Z) (value : option loc) : M (option loc) :=
  fun s =>
    match value with
    | Some p => Ret (Some p) (set_watches (<[key := p]> (watches s)) s)
    | None => Ret None (set_watches (delete key (watches s)) s)
    end.

(** Reading the node a pointer designates. *)
Definition deref (p : loc) : M watch_node :=
  fun s =>
    match heap s !! p with
    | Some n => Ret n s
    | None => Crash InvalidPointer s
    end.

(** Writing the fields of the node at [p]. *)
Definition store (p : loc) (n : watch_node) : M unit :=
  fun s => Ret tt (set_heap (<[p := n]> (heap s)) s).

Definition malloc (n : watch_node) : M loc :=
  fun s =>
    let p := next_loc s in
    Ret p (set_next_loc (S p) (set_heap (<[p := n]> (heap s)) s)).

Definition free (p : loc) : M unit :=
  fun s => Ret tt (set_heap (delete p (heap s)) s).

(** [message(id)]: the notification is appended to what the host received. *)
Definition message (id : MSG) : M unit :=
  fun s => Ret tt (set_sent (sent s ++ [id]) s).

(** The call of [callback] on [path_buf] and the mask, when a callback is
    installed. *)
Definition invoke_callback (mask : Z) : M unit :=
  fun s =>
    if callback s
    then Ret tt (set_called (called s ++ [(cstr (path_buf s), mask)]) s)
    else Ret tt s.

(** *** watch_limit_reached (lines 206-211) *)

Definition watch_limit_reached : M unit :=
  fun s =>
    if negb (limit_reached s)
    then message MSG_WATCH_LIMIT (set_limit_reached true s)
    else Ret tt s.

(** *** add_watch (lines 125-204) *)

(** The loop of lines 154-167 over the aliases of an existing node:
    [Some code] when the loop returns [code], [None] when it runs to its
    end. *)
Fixpoint find_intersection (path_buf' : string) (normalized_path_buff : option string)
    (aliases : list watch_path) : M (option Z) :=
  match aliases with
  | [] => ret None
  | wp :: rest =>
      if negb (strcmp_eq (path wp) path_buf') then
        normalized1 <- sys (realpath (path wp)) ;;
        match normalized1, normalized_path_buff with
        | Some n1, Some n2 =>
            if strcmp_eq n1 n2 then ret (Some ERR_IGNORE)
            else find_intersection path_buf' normalized_path_buff rest
        | _, _ => ret (Some ERR_ABORT)
        end
      else find_intersection path_buf' normalized_path_buff rest
  end.

(** The alias allocated at lines 170-172 and 182-184: [path_len + 1] bytes
    of [path_buf], read back as a C string. *)
Definition new_watch_path (path_len : nat) (buf : string) : watch_path :=
  mk_watch_path path_len (cstr (buf_take (path_len + 1) buf)).

(** The local [wd] of the source is [wd'], to keep it apart from the field. *)
Definition add_watch (path_len : nat) (parent : option loc) : M Z :=
  p <- get_path ;;
  r <- sys (inotify_add_watch p EVENT_MASK) ;;
  let '(wd', errno) := r in
  if wd' <? 0 then
    if (errno =? EACCES) || (errno =? ENOENT) then ret ERR_IGNORE
    else if errno =? ENOSPC then (watch_limit_reached ;; ret ERR_CONTINUE)
    else ret ERR_ABORT
  else
    node <- table_get wd' ;;
    match node with
    | Some n =>
        nd <- deref n ;;
        if negb (wd nd =? wd') then ret ERR_ABORT
        else
          normalized_path_buff <- sys (realpath p) ;;
          found <- find_intersection p normalized_path_buff (paths nd) ;;
          match found with
          | Some code => ret code
          | None =>
              buf <- get_buf ;;
              store n (with_paths (paths nd ++ [new_watch_path path_len buf]) nd) ;;
              ret wd'
          end
    | None =>
        buf <- get_buf ;;
        n <- malloc (mk_watch_node wd' parent None [new_watch_path path_len buf]) ;;
        match parent with
        | Some pp =>
            par <- deref pp ;;
            store pp (with_kids (array_push (kids par) (Some n)) par)
        | None => ret tt
        end ;;
        stored <- table_put wd' (Some n) ;;
        match stored with
        | None => ret ERR_ABORT
        | Some _ => ret wd'
        end
    end.

(** *** rm_watch (lines 213-244) *)

(** The loop of lines 225-230: every live child of the node at [n] is
    removed through [rm]; the node is read again at each turn. *)
Fixpoint rm_kids (rm : Z -> bool -> M unit) (n : loc) (i count : nat) : M unit :=
  match count with
  | O => ret tt
  | S count' =>
      nd <- deref n ;;
      if (i <? array_size (kids nd))%nat then
        match array_get (kids nd) i with
        | Some k =>
            kid <- deref k ;;
            rm (wd kid) false ;;
            rm_kids rm n (S i) count'
        | None => rm_kids rm n (S i) count'
        end
      else ret tt
  end.

(** The loop of lines 233-238: the first slot holding [n] is cleared. *)
Fixpoint clear_slot (n : loc) (slots : list (option loc)) : list (option loc) :=
  match slots with
  | [] => []
  | Some k :: rest =>
      if Nat.eqb k n then None :: rest else Some k :: clear_slot n rest
  | None :: rest => None :: clear_slot n rest
  end.

Fixpoint rm_watch (fuel : nat) (wd' : Z) (update_parent : bool) : M unit :=
  match fuel with
  | O => crash OutOfFuel
  | S fuel' =>
      node <- table_get wd' ;;
      match node with
      | None => ret tt
      | Some n =>
          nd <- deref n ;;
          sys (inotify_rm_watch (wd nd)) ;;
          rm_kids (rm_watch fuel') n 0 (array_size (kids nd)) ;;
          nd <- deref n ;;
          match (if update_parent then parent nd else None) with
          | Some pp =>
              par <- deref pp ;;
              match kids par with
              | Some slots =>
                  store pp (with_kids (Some (clear_slot n slots)) par)
              | None => ret tt
              end
          | None => ret tt
          end ;;
          free n ;;
          table_put wd' None ;;
          ret tt
      end
  end.

(** *** walk_tree (lines 247-315) *)

(** The loop of lines 248-254. *)
Definition crosses_mount (p : string) (mounts : array string) : bool :=
  existsb (fun mount => strncmp_eq p mount (strlen mount)) (array_elems mounts).

(** Lines 284-303 of the loop body: the entry is skipped ([false]) or its
    name is appended to the path and it is a directory to descend into
    ([true]). *)
Definition select_entry (path_len : nat) (entry : dirent) : M bool :=
  if strcmp_eq (d_name entry) "." || strcmp_eq (d_name entry) ".." then ret false
  else if negb (d_type entry =? DT_UNKNOWN) && negb (d_type entry =? DT_DIR) then ret false
  else
    update_buf (memcpy (path_len + 1) (d_name entry) (strlen (d_name entry) + 1)) ;;
    if d_type entry =? DT_UNKNOWN then
      p <- get_path ;;
      st <- sys (stat p) ;;
      let '(r, _, st_mode) := st in
      if negb (r =? 0) then ret false
      else if negb (S_ISDIR st_mode) then ret false
      else ret true
    else ret true.

(** The loop of lines 283-311; [walk] is the recursive call of line 305. *)
Fixpoint walk_entries (walk : nat -> option loc -> bool -> array string -> M Z)
    (fuel : nat) (path_len : nat) (id : Z) (recursive : bool) (mounts : array string)
    (entries : list dirent) : M Z :=
  match entries with
  | [] => ret id
  | entry :: rest =>
      descend <- select_entry path_len entry ;;
      if descend then
        node <- table_get id ;;
        subdir_id <- walk (path_len + 1 + strlen (d_name entry))%nat node recursive mounts ;;
        if (subdir_id <? 0) && negb (subdir_id =? ERR_IGNORE) then
          rm_watch fuel id true ;;
          ret subdir_id
        else walk_entries walk fuel path_len id recursive mounts rest
      else walk_entries walk fuel path_len id recursive mounts rest
  end.

Fixpoint walk_tree (fuel : nat) (path_len : nat) (parent : option loc)
    (recursive : bool) (mounts : array string) : M Z :=
  match fuel with
  | O => crash OutOfFuel
  | S fuel' =>
      p <- get_path ;;
      if crosses_mount p mounts then ret ERR_IGNORE
      else if recursive then
        d <- sys (opendir p) ;;
        let '(dir, errno) := d in
        match dir with
        | None =>
            if (errno =? EACCES) || (errno =? ENOENT) || (errno =? ENOTDIR)
            then ret ERR_IGNORE
            else ret ERR_CONTINUE
        | Some entries =>
            id <- add_watch path_len parent ;;
            if id <? 0 then ret id
            else
              update_buf (poke path_len "/") ;;
              walk_entries (walk_tree fuel') fuel' path_len id recursive mounts entries
        end
      else add_watch path_len parent
  end.

(** *** watch (lines 318-356) and unwatch (lines 359-361) *)

(** [root] is the string the caller passes.  With an empty [root] and no
    leading bar, line 326 reads the byte before the string. *)
Definition watch (fuel : nat) (root : string) (mounts : array string) : M Z :=
  let '(recursive, root') := strip_bar root in
  let path_len := String.length root' in
  last <- match path_len with
          | O => if recursive then crash OutOfBounds else ret "|"%char
          | S i => ret (match String.get i root' with Some c => c | None => NUL end)
          end ;;
  let path_len := if Ascii.eqb last "/" then (path_len - 1)%nat else path_len in
  st <- sys (stat root') ;;
  let '(r, errno, st_mode) := st in
  if negb (r =? 0) then
    if errno =? ENOENT then ret ERR_MISSING
    else if (errno =? EACCES) || (errno =? ELOOP) || (errno =? ENAMETOOLONG)
            || (errno =? ENOTDIR) then ret ERR_CONTINUE
    else ret ERR_ABORT
  else if negb (S_ISREG st_mode) && negb (S_ISDIR st_mode) then ret ERR_IGNORE
  else
    let recursive := if S_ISREG st_mode then false else recursive in
    update_buf (memcpy 0 root' path_len) ;;
    update_buf (poke path_len NUL) ;;
    walk_tree fuel path_len None recursive mounts.

Definition unwatch (fuel : nat) (id : Z) : M unit := rm_watch fuel id true.

(** *** process_inotify_event (lines 364-413) *)

(** Lines 375-386: the affected path is built in [path_buf] from the alias
    and the name the event carries, and the callback is told.  The result
    is the local [path_len]. *)
Definition announce (event : inotify_event) (wp : watch_path) : M nat :=
  update_buf (memcpy 0 (path wp) (path_len wp + 1)) ;;
  len <- (if ev_len event >? 0 then
            update_buf (poke (path_len wp) "/") ;;
            update_buf (memcpy (path_len wp + 1) (ev_name event) (strlen (ev_name event) + 1)) ;;
            ret (path_len wp + (strlen (ev_name event) + 1))%nat
          else ret (path_len wp)) ;;
  invoke_callback (ev_mask event) ;;
  ret len.

(** The loop of lines 396-408 over the slots of [node->kids], from slot [i]
    on.  Line 398 reads [kid->paths] before line 400 tests [kid]. *)
Fixpoint prune_kid (rm : Z -> bool -> M unit) (node : loc) (i : nat)
    (slots : list (option loc)) : M unit :=
  match slots with
  | [] => ret tt
  | slot :: rest =>
      match slot with
      | None => crash NullPointer
      | Some k =>
          kid <- deref k ;;
          match paths kid with
          | [wp] =>
              buf <- get_buf ;;
              if strncmp_eq buf (path wp) (path_len wp) then
                rm (wd kid) false ;;
                nd <- deref node ;;
                store node (with_kids (array_put (kids nd) i None) nd)
              else prune_kid rm node (S i) rest
          | _ => prune_kid rm node (S i) rest
          end
      end
  end.

Definition creates_dir (is_dir : bool) (mask : Z) : bool :=
  is_dir && negb (Z.land mask (Z.lor IN_CREATE IN_MOVED_TO) =? 0).

Definition deletes_dir (is_dir : bool) (mask : Z) : bool :=
  is_dir && negb (Z.land mask (Z.lor IN_DELETE IN_MOVED_FROM) =? 0).

Definition fatal (result : Z) : bool :=
  (result <? 0) && negb (result =? ERR_IGNORE) && negb (result =? ERR_CONTINUE).

(** The loop of lines 373-410 over the aliases of [node], from alias [i]
    on; the node is read again at each turn. *)
Fixpoint each_alias (fuel : nat) (event : inotify_event) (is_dir : bool)
    (node : loc) (i : nat) : M bool :=
  match fuel with
  | O => crash OutOfFuel
  | S fuel' =>
      nd <- deref node ;;
      match paths nd !! i with
      | None => ret true
      | Some wp =>
          len <- announce event wp ;;
          failed <- (if creates_dir is_dir (ev_mask event) then
                       result <- walk_tree fuel' len (Some node) true None ;;
                       ret (fatal result)
                     else ret false) ;;
          if failed then ret false
          else
            (if deletes_dir is_dir (ev_mask event) then
               nd <- deref node ;;
               prune_kid (rm_watch fuel') node 0 (array_elems (kids nd))
             else ret tt) ;;
            each_alias fuel' event is_dir node (S i)
      end
  end.

Definition process_inotify_event (fuel : nat) (event : inotify_event) : M bool :=
  node <- table_get (ev_wd event) ;;
  match node with
  | None => ret true
  | Some n =>
      let is_dir := Z.land (ev_mask event) IN_ISDIR =? IN_ISDIR in
      each_alias fuel event is_dir n 0
  end.

(** *** process_inotify_input (lines 416-442) *)

(** The loop of lines 424-439 over the events of one read. *)
Fixpoint process_events (fuel : nat) (events : list inotify_event) : M bool :=
  match events with
  | [] => ret true
  | event :: rest =>
      if negb (Z.land (ev_mask event) IN_IGNORED =? 0) then process_events fuel rest
      else if negb (Z.land (ev_mask event) IN_Q_OVERFLOW =? 0) then process_events fuel rest
      else
        ok <- process_inotify_event fuel event ;;
        if ok then process_events fuel rest else ret false
  end.

Definition process_inotify_input (fuel : nat) : M bool :=
  batch <- sys read_events ;;
  match batch with
  | None => ret false
  | Some events => process_events fuel events
  end.

End Operations.

(** ** A table-driven operating system

    A world whose answers are read from tables, used to run the code on
    concrete file systems.  Every system call is recorded, so that a run
    shows which calls were made and in which order. *)

Inductive syscall :=
| AddWatch (p : string)
| RmWatch (w : Z)
| Realpath (p : string)
| Opendir (p : string)
| Stat (p : string)
| Read.

Record tables := mk_tables {
  tw_watch : list (string * (Z * Z));
  tw_dirs : list (string * (option (list dirent) * Z));
  tw_real : list (string * string);
  tw_stat : list (string * (Z * Z * Z));
  tw_queue : list (list inotify_event);
  tw_calls : list syscall
}.

Fixpoint assoc {V} (k : string) (l : list (string * V)) : option V :=
  match l with
  | [] => None
  | (k', v) :: rest => if String.eqb k k' then Some v else assoc k rest
  end.

Definition record_call (c : syscall) (w : tables) : tables :=
  mk_tables (tw_watch w) (tw_dirs w) (tw_real w) (tw_stat w) (tw_queue w)
            (tw_calls w ++ [c]).

#[global] Instance tables_kernel : Kernel tables := {
  inotify_add_watch p _ w :=
    (match assoc p (tw_watch w) with Some a => a | None => (-1, ENOENT) end,
     record_call (AddWatch p) w);
  inotify_rm_watch i w := (0, record_call (RmWatch i) w);
  realpath p w := (assoc p (tw_real w), record_call (Realpath p) w);
  opendir p w :=
    (match assoc p (tw_dirs w) with Some a => a | None => (None, ENOENT) end,
     record_call (Opendir p) w);
  stat p w :=
    (match assoc p (tw_stat w) with Some a => a | None => (-1, ENOENT, 0) end,
     record_call (Stat p) w);
  read_events w :=
    match tw_queue w with
    | [] => (None, record_call Read w)
    | batch :: rest =>
        (Some batch,
         mk_tables (tw_watch w) (tw_dirs w) (tw_real w) (tw_stat w) rest
                   (tw_calls w ++ [Read]))
    end
}.

(** The state of a process that has just run [init_inotify] and installed
    a callback. *)
Definition init_state {World} (w : World) : state World :=
  mk_state w ∅ ∅ 1%nat false true EmptyString [] [].

(** ** Repeated registration attempts

    A registration attempt is one call of [add_watch], made with some path
    in [path_buf].  A run of attempts is observed through, for each
    attempt, whether the kernel refused it with [ENOSPC] and which
    notifications reached the host during it; a crash ends the run. *)

Record attempt := mk_attempt {
  at_buf : string;
  at_len : nat;
  at_parent : option loc
}.

Section Attempts.

Context {World : Type} `{K : Kernel World}.

Definition refused_for_space (a : attempt) (s : state World) : bool :=
  let '(r, errno, _) := inotify_add_watch (cstr (at_buf a)) EVENT_MASK (world s) in
  (r <? 0) && (errno =? ENOSPC).

Fixpoint attempts (l : list attempt) (s : state World) : list (bool * list MSG) :=
  match l with
  | [] => []
  | a :: rest =>
      let o := add_watch (at_len a) (at_parent a) (set_path_buf (at_buf a) s) in
      let seen := (refused_for_space a s, drop (length (sent s)) (sent (final o))) in
      match o with
      | Ret _ s' => seen :: attempts rest s'
      | Crash _ _ => [seen]
      end
  end.

End Attempts.

(** What the host is to receive during a run, given which attempts were
    refused for lack of space: the notification at the first refusal that
    finds the flag down, nothing otherwise. *)
Fixpoint notifications (reached : bool) (refused : list bool) : list (list MSG) :=
  match refused with
  | [] => []
  | r :: rest =>
      (if r && negb reached then [MSG_WATCH_LIMIT] else [])
        :: notifications (reached || r) rest
  end.

(** ** Runs of the daemon

    The operations inotify.c offers to the daemon, run one after the other;
    a crash ends the run. *)

(** Between [s] and [s'] the flag and the notifications sent are unchanged,
    or the flag was down, is up and exactly one limit-reached notification
    was added. *)
Definition notified_at_most_once {World} (s s' : state World) : Prop :=
  (limit_reached s' = limit_reached s /\ sent s' = sent s)
  \/ (limit_reached s = false /\ limit_reached s' = true
      /\ sent s' = sent s ++ [MSG_WATCH_LIMIT]).

(** Every run of [m] relates the state it starts in to the state it ends in. *)
Definition keeps {World A} (R : state World -> state World -> Prop) (m : M World A) : Prop :=
  forall s, R s (final (m s)).

Inductive command :=
| Watch (root : string) (mounts : array string)
| Unwatch (id : Z)
| Input.

Section Run.

Context {World : Type} `{K : Kernel World}.

Definition run_command (fuel : nat) (c : command) (s : state World) : outcome World unit :=
  match c with
  | Watch root mounts => bind (watch fuel root mounts) (fun _ => ret tt) s
  | Unwatch id => unwatch fuel id s
  | Input => bind (process_inotify_input fuel) (fun _ => ret tt) s
  end.

Fixpoint run (fuel : nat) (cs : list command) (s : state World) : state World :=
  match cs with
  | [] => s
  | c :: rest =>
      match run_command fuel c s with
      | Ret _ s' => run fuel rest s'
      | Crash _ s' => s'
      end
  end.
End Run.

(** ** Concrete file systems *)

Local Open Scope string_scope.

Definition dir_ok : Z * Z * Z := (0, 0, S_IFDIR).

(** [/r] with the subdirectories [a] and [b] and the plain file [f]. *)
Definition two_dirs : tables :=
  mk_tables
    [("/r", (1, 0)); ("/r/a", (2, 0)); ("/r/b", (3, 0))]
    [("/r", (Some [mk_dirent "." DT_DIR; mk_dirent ".." DT_DIR; mk_dirent "a" DT_DIR;
                   mk_dirent "f" DT_REG; mk_dirent "b" DT_DIR], 0));
     ("/r/a", (Some [], 0)); ("/r/b", (Some [], 0))]
    [] [("/r", dir_ok)] [] [].

(** The same tree when the watch quota runs out at [/r/a]. *)
Definition quota_at_a : tables :=
  mk_tables
    [("/r", (1, 0)); ("/r/a", (-1, ENOSPC)); ("/r/b", (3, 0))]
    (tw_dirs two_dirs) [] [("/r", dir_ok)] [] [].

(** [/mnt/f] is a plain file below the mount point [/mnt]. *)
Definition below_mount : tables :=
  mk_tables [("/mnt/f", (1, 0))] [] [] [("/mnt/f", (0, 0, S_IFREG))] [] [].

(** [/a] is a directory and [/b] a symbolic link to it. *)
Definition linked : tables :=
  mk_tables [("/a", (1, 0)); ("/b", (1, 0))] []
            [("/a", "/a"); ("/b", "/a")] [("/a", dir_ok); ("/b", dir_ok)] [] [].

(** [/r] is empty when it is watched; [/r/d] appears later and the kernel
    refuses to watch it with an input/output error, [/r/m] appears later
    and can be watched. *)
Definition growing : tables :=
  mk_tables
    [("/r", (1, 0)); ("/r/d", (-1, EIO)); ("/r/m", (2, 0))]
    [("/r", (Some [], 0)); ("/r/d", (Some [], 0)); ("/r/m", (Some [], 0))]
    [] [("/r", dir_ok)] [] [].

Definition dir_event (kind : Z) (name : string) : inotify_event :=
  mk_event 1 (Z.lor IN_ISDIR kind) 16 name.

(** The process after [watch("/r")] on [two_dirs]: handles 1, 2 and 3. *)
Definition watching_r : state tables :=
  final (watch 5 "/r" None (init_state two_dirs)).

(** The process after the flat [watch("|/a")] on [linked]: handle 1. *)
Definition watching_a : state tables :=
  final (watch 5 "|/a" None (init_state linked)).

(** The walk of [/r] on [quota_at_a] when it enters the loop over the
    entries of [/r]: [/r] is registered under handle 1 and [path_buf] holds
    the path with its separator. *)
Definition quota_loop : state tables :=
  final (bind (add_watch 2 None) (fun _ => update_buf (poke 2 "/"))
              (set_path_buf "/r" (init_state quota_at_a))).

(** The same point of the walk of [/r] on [two_dirs]. *)
Definition plain_loop : state tables :=
  final (bind (add_watch 2 None) (fun _ => update_buf (poke 2 "/"))
              (set_path_buf "/r" (init_state two_dirs))).

(** The process after [watch("/r")] on [growing]: handle 1, no children. *)
Definition watching_growing : state tables :=
  final (watch 5 "/r" None (init_state growing)).

Local Close Scope string_scope.

(** ** Further readings of the code *)

(** Lines 325-328 of [watch]: the length of the root, less one when its last
    byte is a separator. *)
Definition root_len (root' : string) : nat :=
  match String.length root' with
  | O => O
  | S i =>
      match String.get i root' with
      | Some c => if Ascii.eqb c "/" then i else S i
      | None => S i
      end
  end.

(** Lines 335-341 of [watch]: the outcome for a failed [stat]. *)
Definition stat_failure (errno : Z) : Z :=
  if errno =? ENOENT then ERR_MISSING
  else if (errno =? EACCES) || (errno =? ELOOP) || (errno =? ENAMETOOLONG)
          || (errno =? ENOTDIR) then ERR_CONTINUE
  else ERR_ABORT.

(** Lines 259-266 of [walk_tree]: the outcome for a failed [opendir]. *)
Definition opendir_failure (errno : Z) : Z :=
  if (errno =? EACCES) || (errno =? ENOENT) || (errno =? ENOTDIR)
  then ERR_IGNORE else ERR_CONTINUE.

(** An entry the loop of [walk_tree] passes over without a system call:
    a dot entry, or one whose type is known and is not a directory. *)
Definition passed_over (entry : dirent) : bool :=
  strcmp_eq (d_name entry) "." || strcmp_eq (d_name entry) ".."
  || (negb (d_type entry =? DT_UNKNOWN) && negb (d_type entry =? DT_DIR)).

(** An event the loop of [process_inotify_input] steps over (lines
    428-434). *)
Definition dropped (event : inotify_event) : bool :=
  negb (Z.land (ev_mask event) IN_IGNORED =? 0)
  || negb (Z.land (ev_mask event) IN_Q_OVERFLOW =? 0).

(** The path an event names on an alias of its node: the alias, followed
    by a separator and the name when the event carries one. *)
Definition event_path (event : inotify_event) (wp : watch_path) : string :=
  if ev_len event >? 0
  then (path wp ++ String "/" (cstr (ev_name event)))%string
  else path wp.

(** An alias whose path is a C string of the recorded length. *)
Definition well_formed (wp : watch_path) : Prop :=
  cstr (path wp) = path wp /\ String.length (path wp) = path_len wp.

(** What a computation leaves alone when it only writes [path_buf] and
    calls the callback. *)
Definition same_registry {World} (s s' : state World) : Prop :=
  world s' = world s /\ watches s' = watches s /\ heap s' = heap s
  /\ next_loc s' = next_loc s /\ limit_reached s' = limit_reached s
  /\ callback s' = callback s /\ sent s' = sent s.

(** Lines 398-400 of [process_inotify_event]: the child has one alias and
    the first [path_len] bytes of that alias are the start of the affected
    path. *)
Definition matches (buf : string) (kid : watch_node) : bool :=
  match paths kid with
  | [wp] => strncmp_eq buf (path wp) (path_len wp)
  | _ => false
  end.

(** ** Removal only removes *)

(** Between [nd] and [nd'] the handle, the parent and the aliases are the
    same and the children are the same slots, some of them cleared. *)
Definition pruned (nd nd' : watch_node) : Prop :=
  wd nd' = wd nd /\ parent nd' = parent nd /\ paths nd' = paths nd
  /\ array_size (kids nd') = array_size (kids nd)
  /\ forall i k, array_get (kids nd') i = Some k -> array_get (kids nd) i = Some k.

(** Between [s] and [s'] no table entry and no node was added, the nodes
    that remain are as they were up to cleared child slots, nothing was
    allocated, and [path_buf], the flag, the notifications and the
    callback calls are the same. *)
Definition shrinks {World} (s s' : state World) : Prop :=
  (forall w n, watches s' !! w = Some n -> watches s !! w = Some n)
  /\ (forall n nd', heap s' !! n = Some nd' ->
       exists nd, heap s !! n = Some nd /\ pruned nd nd')
  /\ next_loc s' = next_loc s /\ path_buf s' = path_buf s
  /\ limit_reached s' = limit_reached s /\ callback s' = callback s
  /\ sent s' = sent s /\ called s' = called s.

(** ** Registration only adds *)

(** Between [nd] and [nd'] the handle and the parent are the same, and
    aliases and children were only appended. *)
Definition extended (nd nd' : watch_node) : Prop :=
  wd nd' = wd nd /\ parent nd' = parent nd
  /\ paths nd `prefix_of` paths nd'
  /\ array_elems (kids nd) `prefix_of` array_elems (kids nd').

(** Between [s] and [s'] every table entry and every node was kept, the
    nodes up to appended aliases and children. *)
Definition grows {World} (s s' : state World) : Prop :=
  (forall w n, watches s !! w = Some n -> watches s' !! w = Some n)
  /\ (forall n nd, heap s !! n = Some nd ->
       exists nd', heap s' !! n = Some nd' /\ extended nd nd')
  /\ (next_loc s <= next_loc s')%nat.

(** The outcomes of a child's walk after which the loop of [walk_tree]
    goes on (line 306). *)
Definition kept (r : Z) : Prop := 0 <= r \/ r = ERR_IGNORE.

(** ** Starting the process (lines 47-51, 63-120) *)

Definition WATCH_COUNT_NAME : string := "/proc/sys/fs/inotify/max_user_watches".

(** The system calls and library functions [init_inotify] relies on.
    [inotify_init] answers the descriptor and [errno]; [fopen] answers a
    stream or null; [atoi] is the function of the C library; [close] and
    [fclose] act on the world only.

    Modelled from the spec: [read_line] and [table_create] belong to util.c,
    which is not among the sources.  [read_line] answers the next line of
    the stream or null; [table_create] allocates the table, or answers null
    when memory is exhausted. *)
Class Startup (World : Type) := {
  inotify_init : World -> Z * Z * World;
  fopen : string -> World -> option Z * World;
  read_line : Z -> World -> option string * World;
  fclose : Z -> World -> World;
  atoi : string -> Z;
  close : Z -> World -> World;
  table_create : Z -> World -> bool * World
}.

(** The statics [inotify_fd], [watch_count] and whether [watches] is
    non-null, around the state of the watcher. *)
Record process (World : Type) := mk_process {
  inotify_fd : Z;
  watch_count : Z;
  table_made : bool;
  core : state World
}.
Arguments mk_process {World}.
Arguments inotify_fd {World}.
Arguments watch_count {World}.
Arguments table_made {World}.
Arguments core {World}.

(** The process as the loader leaves it: lines 47-51. *)
Definition boot {World} (w : World) : process World :=
  mk_process (-1) 0 false (mk_state w ∅ ∅ 1%nat false false EmptyString [] []).

Section Starting.

Context {World : Type} `{B : Startup World}.

Definition with_world (w : World) (p : process World) : process World :=
  mk_process (inotify_fd p) (watch_count p) (table_made p) (set_world w (core p)).

Definition with_fd (fd : Z) (p : process World) : process World :=
  mk_process fd (watch_count p) (table_made p) (core p).

Definition with_count (n : Z) (p : process World) : process World :=
  mk_process (inotify_fd p) n (table_made p) (core p).

(** [watches = table_create(...)]: a new, empty table or null. *)
Definition with_table (made : bool) (p : process World) : process World :=
  mk_process (inotify_fd p) (watch_count p) made
             (if made then set_watches ∅ (core p) else core p).

Definition get_inotify_fd (p : process World) : Z := inotify_fd p.

(** Lines 94-110. *)
Definition read_watch_descriptors_count (p : process World) : process World :=
  let '(f, w1) := fopen WATCH_COUNT_NAME (world (core p)) in
  match f with
  | None => with_world w1 p
  | Some f' =>
      let '(str, w2) := read_line f' w1 in
      with_world (fclose f' w2)
        (match str with
         | None => p
         | Some str' => with_count (atoi str') p
         end)
  end.

(** Lines 76-80 and 84-89: the descriptor is closed and forgotten. *)
Definition fail_init (p : process World) : bool * process World :=
  (false, with_fd (-1) (with_world (close (inotify_fd p) (world (core p))) p)).

(** Lines 63-92. *)
Definition init_inotify (p : process World) : bool * process World :=
  let '(fd, e, w1) := inotify_init (world (core p)) in
  let p1 := with_world w1 (with_fd fd p) in
  if fd <? 0 then
    if e =? EMFILE
    then (false, mk_process (inotify_fd p1) (watch_count p1) (table_made p1)
                            (set_sent (sent (core p1) ++ [MSG_INSTANCE_LIMIT]) (core p1)))
    else (false, p1)
  else
    let p2 := read_watch_descriptors_count p1 in
    if watch_count p2 <=? 0 then fail_init p2
    else
      let '(made, w2) := table_create (watch_count p2) (world (core p2)) in
      let p3 := with_table made (with_world w2 p2) in
      if made then (true, p3) else fail_init p3.

(** What the count file yields in world [w]: nothing when it cannot be
    opened or read, the number [atoi] makes of its first line otherwise. *)
Definition count_read (w : World) : option Z :=
  let '(f, w1) := fopen WATCH_COUNT_NAME w in
  match f with
  | None => None
  | Some f' =>
      match fst (read_line f' w1) with
      | None => None
      | Some str => Some (atoi str)
      end
  end.

End Starting.

(** A start-up environment read from a record: what [inotify_init]
    answers, whether the count file opens and what its first line is,
    whether the table can be allocated; the descriptors closed are
    recorded. *)
Record startup := mk_startup {
  su_init : Z * Z;
  su_count : option (option string);
  su_memory : bool;
  su_closed : list Z
}.

(** The decimal digits a string starts with, as a number. *)
Fixpoint leading_digits (acc : Z) (s : string) : Z :=
  match s with
  | String c r =>
      let n := Z.of_nat (nat_of_ascii c) in
      if (48 <=? n) && (n <=? 57) then leading_digits (10 * acc + (n - 48)) r else acc
  | EmptyString => acc
  end.

#[global] Instance startup_world : Startup startup := {
  inotify_init w := (su_init w, w);
  fopen _ w := (match su_count w with Some _ => Some 3 | None => None end, w);
  read_line _ w := (match su_count w with Some l => l | None => None end, w);
  fclose _ w := w;
  atoi s := leading_digits 0 s;
  close fd w := mk_startup (su_init w) (su_count w) (su_memory w) (su_closed w ++ [fd]);
  table_create _ w := (su_memory w, w)
}.

(** ** The callback *)

(** [set_inotify_callback] (lines 113-115): the callback is installed, or
    removed when the pointer passed is null. *)
Definition set_callback {World} (installed : bool) (s : state World) : state World :=
  mk_state (world s) (watches s) (heap s) (next_loc s) (limit_reached s) installed
           (path_buf s) (sent s) (called s).

Definition set_inotify_callback {World} (installed : bool) : M World unit :=
  fun s => Ret tt (set_callback installed s).

(** Between [s] and [s'] the callback is the same and, if there is none,
    no call was recorded. *)
Definition quiet {World} (s s' : state World) : Prop :=
  callback s' = callback s /\ (callback s = false -> called s' = called s).

(** ** Well-formed aliases *)

(** Every alias of every node is a C string of the recorded length. *)
Definition aliases_well_formed {World} (s : state World) : Prop :=
  forall n nd, heap s !! n = Some nd -> Forall well_formed (paths nd).

Definition stays_well_formed {World} (s s' : state World) : Prop :=
  aliases_well_formed s -> aliases_well_formed s'.

(** ** Consistency of the table *)

(** Every table entry designates a live node that carries the handle it is
    entered under, and every live node lies below the next address the
    allocator hands out. *)
Definition consistent {World} (s : state World) : Prop :=
  (forall w n, watches s !! w = Some n ->
     exists nd, heap s !! n = Some nd /\ wd nd = w)
  /\ (forall n, is_Some (heap s !! n) -> (n < next_loc s)%nat).

Definition stays_consistent {World} (s s' : state World) : Prop :=
  consistent s -> consistent s'.

(** ** Trees of nodes *)

(** The shape of a subtree: a cleared slot, or the address of a node and,
    slot by slot, the shapes of its children. *)
#[warnings="-register-all"]
Inductive shape := Hole | Node (n : loc) (ks : list shape).

Definition slot (t : shape) : option loc :=
  match t with Hole => None | Node n _ => Some n end.

(** The addresses of a subtree, root first. *)
Fixpoint locs (t : shape) : list loc :=
  match t with
  | Hole => []
  | Node n ks => n :: flat_map locs ks
  end.

Fixpoint depth (t : shape) : nat :=
  match t with
  | Hole => O
  | Node _ ks => S (fold_right Nat.max O (map depth ks))
  end.

(** The heap of [s] holds a subtree of shape [t]: every node of it is live
    and entered in the table under its handle, its children are the roots
    of the shapes of its slots, and each child names it as its parent. *)
#[warnings="-register-all"]
Inductive holds {World} (s : state World) : shape -> Prop :=
| holds_hole : holds s Hole
| holds_node (n : loc) (ks : list shape) (nd : watch_node) :
    heap s !! n = Some nd ->
    watches s !! wd nd = Some n ->
    array_elems (kids nd) = map slot ks ->
    Forall (holds s) ks ->
    Forall (fun t => forall k kd,
              slot t = Some k -> heap s !! k = Some kd -> parent kd = Some n) ks ->
    holds s (Node n ks).

(** The handles of the nodes at the addresses [l]. *)
Definition handles {World} (s : state World) (l : list loc) : list Z :=
  omap (fun x => wd <$> heap s !! x) l.

(** Between [s] and [s'] the nodes at the addresses [L] and the table
    entries of the handles [W] were removed, and nothing else in the heap
    and the table changed. *)
Definition removed {World} (L : list loc) (W : list Z) (s s' : state World) : Prop :=
  (forall x, heap s' !! x = if decide (x ∈ L) then None else heap s !! x)
  /\ (forall w, watches s' !! w = if decide (w ∈ W) then None else watches s !! w)
  /\ next_loc s' = next_loc s /\ path_buf s' = path_buf s
  /\ limit_reached s' = limit_reached s /\ callback s' = callback s
  /\ sent s' = sent s /\ called s' = called s.

(** Lines 232-239 of [rm_watch] as a function of the state: the first slot
    of the parent of the node at [n] that holds [n] is cleared. *)
Definition unlink {World} (n : loc) (s : state World) : state World :=
  match heap s !! n with
  | Some nd =>
      match parent nd with
      | Some pp =>
          match heap s !! pp with
          | Some par =>
              match kids par with
              | Some slots =>
                  set_heap (<[pp := with_kids (Some (clear_slot n slots)) par]> (heap s)) s
              | None => s
              end
          | None => s
          end
      | None => s
      end
  | None => s
  end.

(** The node at [n] and everything beneath it: the nodes reached from [n]
    through the slots of [kids]. *)
Inductive beneath {World} (s : state World) (n : loc) : loc -> Prop :=
| beneath_self : beneath s n n
| beneath_kid (x : loc) (xd : watch_node) (i : nat) (k : loc) :
    beneath s n x -> heap s !! x = Some xd -> array_get (kids xd) i = Some k ->
    beneath s n k.

(** The nodes form a forest: the table is consistent and knows every live
    node; the children of a live node are live, lie above it and name it
    as their parent; the parent of a live node is live and lists it; no
    node is listed twice. *)
Record tree {World} (s : state World) : Prop := mk_tree {
  tree_consistent : consistent s;
  tree_total : forall n nd, heap s !! n = Some nd -> watches s !! wd nd = Some n;
  tree_kids : forall n nd i k,
      heap s !! n = Some nd -> array_get (kids nd) i = Some k ->
      (n < k)%nat /\ exists kd, heap s !! k = Some kd /\ parent kd = Some n;
  tree_parent : forall k kd p,
      heap s !! k = Some kd -> parent kd = Some p ->
      exists pd i, heap s !! p = Some pd /\ array_get (kids pd) i = Some k;
  tree_nodup : forall n nd i j k,
      heap s !! n = Some nd ->
      array_get (kids nd) i = Some k -> array_get (kids nd) j = Some k -> i = j
}.

(** A parent pointer that is null or designates a live node. *)
Definition parent_ok {World} (s : state World) (parent' : option loc) : Prop :=
  match parent' with Some pp => is_Some (heap s !! pp) | None => True end.

(** The state a run of commands returns into, if no command stops on a
    fault. *)
Fixpoint returning {World} `{K : Kernel World} (fuel : nat) (cs : list command)
    (s : state World) : option (state World) :=
  match cs with
  | [] => Some s
  | c :: rest =>
      match run_command fuel c s with
      | Ret _ s' => returning fuel rest s'
      | Crash _ _ => None
      end
  end.

(** An outcome that, if it is a return, is a return into a state with
    [Q]. *)
Definition returns {World A} (o : outcome World A) (Q : state World -> Prop) : Prop :=
  match o with
  | Ret _ s' => Q s'
  | Crash _ _ => True
  end.

(** ** The walk that follows a created directory

    The recursive walk as the specification words the one that follows a
    directory-creating event: the walk of [walk_tree] with no mount-boundary
    check at all, neither on the new directory nor anywhere beneath it.
    It takes no mount set. *)

Section Unchecked.

Context {World : Type} `{K : Kernel World}.

Fixpoint walk_entries_unchecked (walk : nat -> option loc -> M World Z)
    (fuel path_len : nat) (id : Z) (entries : list dirent) : M World Z :=
  match entries with
  | [] => ret id
  | entry :: rest =>
      descend <- select_entry path_len entry ;;
      if descend then
        node <- table_get id ;;
        subdir_id <- walk (path_len + 1 + strlen (d_name entry))%nat node ;;
        if (subdir_id <? 0) && negb (subdir_id =? ERR_IGNORE) then
          rm_watch fuel id true ;;
          ret subdir_id
        else walk_entries_unchecked walk fuel path_len id rest
      else walk_entries_unchecked walk fuel path_len id rest
  end.

Fixpoint walk_unchecked (fuel path_len : nat) (parent : option loc) : M World Z :=
  match fuel with
  | O => crash OutOfFuel
  | S fuel' =>
      p <- get_path ;;
      d <- sys (opendir p) ;;
      let '(dir, errno) := d in
      match dir with
      | None =>
          if (errno =? EACCES) || (errno =? ENOENT) || (errno =? ENOTDIR)
          then ret ERR_IGNORE
          else ret ERR_CONTINUE
      | Some entries =>
          id <- add_watch path_len parent ;;
          if id <? 0 then ret id
          else
            update_buf (poke path_len "/") ;;
            walk_entries_unchecked (walk_unchecked fuel') fuel' path_len id entries
      end
  end.

(** What [each_alias] does after the walk of a created directory has
    answered [result] (lines 390-410). *)
Definition after_walk (fuel : nat) (event : inotify_event) (is_dir : bool)
    (node : loc) (i : nat) (result : Z) : M World bool :=
  if fatal result then ret false
  else
    (if deletes_dir is_dir (ev_mask event) then
       nd <- deref node ;;
       prune_kid (rm_watch fuel) node 0 (array_elems (kids nd))
     else ret tt) ;;
    each_alias fuel event is_dir node (S i).

End Unchecked.

(** An outcome that is a return into a state with [Q], or the end of the
    fuel, and that only if the fuel was not [enough]: no pointer fault. *)
Definition ends {World A} (enough : bool) (o : outcome World A)
    (Q : state World -> Prop) : Prop :=
  match o with
  | Ret _ s' => Q s'
  | Crash f _ => f = OutOfFuel /\ enough = false
  end.

Local Open Scope string_scope.

(** [/secret] cannot be examined, [/dev/null] is a character device,
    [/r/] is the directory [/r] of [two_dirs] named with its separator,
    [/locked] is a directory that cannot be opened. *)
Definition odd_roots : tables :=
  mk_tables
    [("/r", (1, 0)); ("/r/a", (2, 0)); ("/r/b", (3, 0)); ("/locked", (4, 0))]
    (("/locked", (None, EACCES)) :: tw_dirs two_dirs) []
    [("/secret", (-1, EACCES, 0)); ("/dev/null", (0, 0, 8192)); ("/r/", dir_ok);
     ("/locked", dir_ok); ("/f", (0, 0, S_IFREG))] [] [].

(** [/r] holds plain files only. *)
Definition files_only : tables :=
  mk_tables
    [("/r", (1, 0))]
    [("/r", (Some [mk_dirent "." DT_DIR; mk_dirent ".." DT_DIR; mk_dirent "f" DT_REG;
                   mk_dirent "g" DT_REG], 0))]
    [] [("/r", dir_ok)] [] [].

(** [/r] with the subdirectories [a] and [ab]. *)
Definition similar_names : tables :=
  mk_tables
    [("/r", (1, 0)); ("/r/a", (2, 0)); ("/r/ab", (3, 0))]
    [("/r", (Some [mk_dirent "a" DT_DIR; mk_dirent "ab" DT_DIR], 0));
     ("/r/a", (Some [], 0)); ("/r/ab", (Some [], 0))]
    [] [("/r", dir_ok)] [] [].

(** The process after [watch("/r")] on [similar_names]: handles 1, 2, 3. *)
Definition watching_similar : state tables :=
  final (watch 5 "/r" None (init_state similar_names)).

(** The tree of [two_dirs] when the watch quota runs out at [/r/b], after
    [/r/a] has been registered. *)
Definition quota_at_b : tables :=
  mk_tables
    [("/r", (1, 0)); ("/r/a", (2, 0)); ("/r/b", (-1, ENOSPC))]
    (tw_dirs two_dirs) [] [("/r", dir_ok)] [] [].

(** The walk of [/r] on [quota_at_b] when its loop reaches the entry [b]:
    [/r] and [/r/a] are registered under the handles 1 and 2. *)
Definition quota_b_loop : state tables :=
  final (bind (add_watch 2 None)
           (fun _ => bind (update_buf (poke 2 "/"))
              (fun _ => walk_entries (walk_tree 3) 3 2 1 true None
                          [mk_dirent "a" DT_DIR; mk_dirent "f" DT_REG]))
           (set_path_buf "/r" (init_state quota_at_b))).

(** [/r] is empty when it is watched; [/r/m] appears later, with the
    subdirectory [sub] in it. *)
Definition deep_growth : tables :=
  mk_tables
    [("/r", (1, 0)); ("/r/m", (2, 0)); ("/r/m/sub", (3, 0))]
    [("/r", (Some [], 0)); ("/r/m", (Some [mk_dirent "sub" DT_DIR], 0));
     ("/r/m/sub", (Some [], 0))]
    [] [("/r", dir_ok)] [] [].

(** The process after [watch("/r")] on [deep_growth]: handle 1. *)
Definition watching_deep : state tables :=
  final (watch 5 "/r" None (init_state deep_growth)).

(** [/r] is empty when it is watched; [/r/d] appears later, is another
    directory by its real path but is given the handle of [/r] by the
    kernel, and holds the subdirectory [x], which the kernel refuses to
    watch with an input/output error. *)
Definition shared_handle : tables :=
  mk_tables
    [("/r", (1, 0)); ("/r/d", (1, 0)); ("/r/d/x", (-1, EIO))]
    [("/r", (Some [], 0)); ("/r/d", (Some [mk_dirent "x" DT_DIR], 0));
     ("/r/d/x", (Some [], 0))]
    [("/r", "/r"); ("/r/d", "/r/d")] [("/r", dir_ok)] [] [].

(** The process after [watch("/r")] on [shared_handle]: handle 1. *)
Definition watching_shared : state tables :=
  final (watch 5 "/r" None (init_state shared_handle)).

(** [deep_growth] with two batches of events queued: [/r/m] is created,
    then deleted. *)
Definition deep_growth_events : tables :=
  mk_tables (tw_watch deep_growth) (tw_dirs deep_growth) [] (tw_stat deep_growth)
            [[dir_event IN_CREATE "m"]; [dir_event IN_DELETE "m"]] [].

Local Close Scope string_scope.

Create HintDb safe.
Create HintDb aliases.
Create HintDb kept.

(** Closes a goal about an outcome that is an error code where a handle is
    required, or the reverse. *)
Ltac no_handle :=
  intros; cbv delta [ERR_IGNORE ERR_CONTINUE ERR_ABORT ERR_MISSING] in *; lia.

(** ** Tactics for runs of the monad *)

(** Splits a hypothesis [bind m k s = Ret b s'] into the run of [m] and the
    run of [k]. *)
Ltac bind_inv H :=
  let a := fresh "a" in
  let s := fresh "s" in
  let H1 := fresh "Hrun" in
  unfold bind at 1 in H;
  match type of H with
  | context [match ?m with Ret _ _ => _ | Crash _ _ => _ end] =>
      destruct m as [a s|? ?] eqn:H1; [|discriminate H]
  end.

(** Simplifies the projections of updated states. *)
Ltac proj_simpl :=
  cbn [world watches heap next_loc limit_reached callback path_buf sent called
       set_world set_watches set_heap set_next_loc set_limit_reached set_path_buf
       set_sent set_called final value] in *.

(** Unfolds the monad and its primitive accesses. *)
Ltac run_monad :=
  unfold bind, ret, crash, get_path, get_buf, sys, table_get, table_put, deref,
         store, malloc, free, message, update_buf, invoke_callback in *;
  proj_simpl.

Create HintDb keeps.

(** Closes [keeps notified_at_most_once m] for a computation [m] that leaves
    the flag and the notifications alone. *)
Ltac frame :=
  unfold keeps, notified_at_most_once; intros ?; left; run_monad;
  repeat case_match; proj_simpl; split; reflexivity.

(** * Properties *)

(** ** C strings *)

Lemma cstr_idem (b : string) : cstr (cstr b) = cstr b.
Proof.
  induction b as [|c r IH]; simpl; [reflexivity|].
  destruct (Ascii.eqb c NUL) eqn:E; simpl; [reflexivity|].
  now rewrite E, IH.
Qed.

Lemma cstr_tail (a a' : string) (x : ascii) :
  cstr a = String x a' -> cstr a' = a'.
Proof.
  intros H. pose proof (cstr_idem a) as I. rewrite H in I. simpl in I.
  destruct (Ascii.eqb x NUL); [discriminate|]. now injection I.
Qed.

Lemma strncmp_eq_cstr (a b : string) (n : nat) :
  strncmp_eq a b n = strncmp_eq (cstr a) (cstr b) n.
Proof. destruct n; simpl; [reflexivity|]. now rewrite !cstr_idem. Qed.

Lemma strncmp_eq_prefix_clean (b a : string) :
  cstr a = a -> cstr b = b ->
  strncmp_eq a b (String.length b) = true <-> exists rest, a = (b ++ rest)%string.
Proof.
  revert a. induction b as [|y b IH]; intros a Ha Hb.
  - simpl. split; [intros _; now exists a | reflexivity].
  - pose proof (cstr_tail _ _ _ Hb) as Hb'.
    cbn [String.length strncmp_eq]. rewrite Ha, Hb.
    destruct a as [|x a].
    + split; [discriminate | intros [rest H]; discriminate].
    + pose proof (cstr_tail _ _ _ Ha) as Ha'.
      rewrite andb_true_iff, Ascii.eqb_eq, (IH a Ha' Hb').
      split.
      * intros [-> [rest ->]]. now exists rest.
      * intros [rest H]. simpl in H. injection H as -> ->. split; [reflexivity | now exists rest].
Qed.

(** [strncmp(a, b, strlen(b)) == 0] says that the C string [b] is a prefix
    of the C string [a]. *)
Lemma strncmp_eq_prefix (a b : string) :
  strncmp_eq a b (strlen b) = true <-> exists rest, cstr a = (cstr b ++ rest)%string.
Proof.
  rewrite strncmp_eq_cstr. unfold strlen.
  apply strncmp_eq_prefix_clean; apply cstr_idem.
Qed.

Lemma crosses_mount_spec (p : string) (mounts : array string) :
  crosses_mount p mounts = true <->
  exists mount rest, In mount (array_elems mounts) /\ cstr p = (cstr mount ++ rest)%string.
Proof.
  unfold crosses_mount. rewrite existsb_exists. split.
  - intros [m [Hin H]]. apply strncmp_eq_prefix in H as [rest H]. now exists m, rest.
  - intros [m [rest [Hin H]]]. exists m. split; [assumption|].
    apply strncmp_eq_prefix. now exists rest.
Qed.

(** ** The monad *)

Section Monad_facts.

Context {World : Type} `{K : Kernel World}.

Lemma bind_Ret {A B} (m : M World A) (k : A -> M World B) s a s1 :
  m s = Ret a s1 -> bind m k s = k a s1.
Proof. unfold bind. now intros ->. Qed.

End Monad_facts.

(** ** Fuel

    The fuel only bounds the recursion of the model: a run that returns
    with some fuel returns the same value in the same state with more. *)

Section Fuel.

Context {World : Type} `{K : Kernel World}.

Lemma extends_refl {A} (m : M World A) : extends m m.
Proof. now intros s a s'. Qed.

Lemma extends_bind {A B} (m1 m2 : M World A) (k1 k2 : A -> M World B) :
  extends m1 m2 -> (forall a, extends (k1 a) (k2 a)) ->
  extends (bind m1 k1) (bind m2 k2).
Proof.
  intros Hm Hk s b s' H. unfold bind in *.
  destruct (m1 s) as [a s1|f s1] eqn:E; [|discriminate].
  rewrite (Hm _ _ _ E). now apply Hk.
Qed.

Lemma extends_crash {A} (f : fault) (m : M World A) : extends (crash f) m.
Proof. intros s a s' H. discriminate. Qed.

Lemma rm_kids_extends (rm1 rm2 : Z -> bool -> M World unit) :
  (forall w b, extends (rm1 w b) (rm2 w b)) ->
  forall count n i, extends (rm_kids rm1 n i count) (rm_kids rm2 n i count).
Proof.
  intros Hrm. induction count as [|count IH]; intros n i; cbn [rm_kids].
  - apply extends_refl.
  - apply extends_bind; [apply extends_refl|]. intros nd.
    destruct (i <? array_size (kids nd))%nat; [|apply extends_refl].
    destruct (array_get (kids nd) i) as [k|]; [|apply IH].
    apply extends_bind; [apply extends_refl|]. intros kid.
    apply extends_bind; [apply Hrm|]. intros _. apply IH.
Qed.

Lemma rm_watch_more_fuel (fuel : nat) (wd' : Z) (update_parent : bool) :
  extends (rm_watch fuel wd' update_parent) (rm_watch (S fuel) wd' update_parent).
Proof.
  revert wd' update_parent. induction fuel as [|fuel IH]; intros wd' update_parent.
  - apply extends_crash.
  - cbn [rm_watch]. apply extends_bind; [apply extends_refl|].
    intros [n|]; [|apply extends_refl].
    apply extends_bind; [apply extends_refl|]. intros nd.
    apply extends_bind; [apply extends_refl|]. intros _.
    apply extends_bind; [|intros; apply extends_refl].
    apply rm_kids_extends. exact IH.
Qed.

Lemma walk_entries_extends
    (walk1 walk2 : nat -> option loc -> bool -> array string -> M World Z)
    (fuel : nat) :
  (forall l p r m, extends (walk1 l p r m) (walk2 l p r m)) ->
  forall entries path_len id recursive mounts,
    extends (walk_entries walk1 fuel path_len id recursive mounts entries)
            (walk_entries walk2 (S fuel) path_len id recursive mounts entries).
Proof.
  intros Hwalk. induction entries as [|entry rest IH]; intros; cbn [walk_entries].
  - apply extends_refl.
  - apply extends_bind; [apply extends_refl|]. intros [|]; [|apply IH].
    apply extends_bind; [apply extends_refl|]. intros node.
    apply extends_bind; [apply Hwalk|]. intros subdir_id.
    destruct ((subdir_id <? 0) && negb (subdir_id =? ERR_IGNORE)); [|apply IH].
    apply extends_bind; [apply rm_watch_more_fuel | intros; apply extends_refl].
Qed.

Lemma walk_tree_more_fuel (fuel : nat) (path_len : nat) (parent : option loc)
    (recursive : bool) (mounts : array string) :
  extends (walk_tree fuel path_len parent recursive mounts)
          (walk_tree (S fuel) path_len parent recursive mounts).
Proof.
  revert path_len parent recursive mounts.
  induction fuel as [|fuel IH]; intros path_len parent recursive mounts.
  - apply extends_crash.
  - cbn [walk_tree]. apply extends_bind; [apply extends_refl|]. intros p.
    destruct (crosses_mount p mounts); [apply extends_refl|].
    destruct recursive; [|apply extends_refl].
    apply extends_bind; [apply extends_refl|]. intros [[entries|] errno];
      [|apply extends_refl].
    apply extends_bind; [apply extends_refl|]. intros id.
    destruct (id <? 0); [apply extends_refl|].
    apply extends_bind; [apply extends_refl|]. intros _.
    apply walk_entries_extends. exact IH.
Qed.

Lemma prune_kid_extends (rm1 rm2 : Z -> bool -> M World unit) :
  (forall w b, extends (rm1 w b) (rm2 w b)) ->
  forall slots node i, extends (prune_kid rm1 node i slots) (prune_kid rm2 node i slots).
Proof.
  intros Hrm. induction slots as [|slot rest IH]; intros node i; cbn [prune_kid].
  - apply extends_refl.
  - destruct slot as [k|]; [|apply extends_refl].
    apply extends_bind; [apply extends_refl|]. intros kid.
    destruct (paths kid) as [|wp [|wp' more]]; try apply IH.
    apply extends_bind; [apply extends_refl|]. intros buf.
    destruct (strncmp_eq buf (path wp) (path_len wp)); [|apply IH].
    apply extends_bind; [apply Hrm | intros; apply extends_refl].
Qed.

Lemma each_alias_more_fuel (fuel : nat) (event : inotify_event) (is_dir : bool)
    (node : loc) (i : nat) :
  extends (each_alias fuel event is_dir node i) (each_alias (S fuel) event is_dir node i).
Proof.
  revert i. induction fuel as [|fuel IH]; intros i.
  - apply extends_crash.
  - cbn [each_alias]. apply extends_bind; [apply extends_refl|]. intros nd.
    destruct (paths nd !! i) as [wp|]; [|apply extends_refl].
    apply extends_bind; [apply extends_refl|]. intros len.
    apply extends_bind.
    + destruct (creates_dir is_dir (ev_mask event)); [|apply extends_refl].
      apply extends_bind; [apply walk_tree_more_fuel | intros; apply extends_refl].
    + intros [|]; [apply extends_refl|].
      apply extends_bind; [|intros; apply IH].
      destruct (deletes_dir is_dir (ev_mask event)); [|apply extends_refl].
      apply extends_bind; [apply extends_refl|]. intros nd'.
      apply prune_kid_extends. intros. apply rm_watch_more_fuel.
Qed.

Lemma process_events_more_fuel (fuel : nat) (events : list inotify_event) :
  extends (process_events fuel events) (process_events (S fuel) events).
Proof.
  induction events as [|event rest IH]; cbn [process_events]; [apply extends_refl|].
  destruct (negb (Z.land (ev_mask event) IN_IGNORED =? 0)); [exact IH|].
  destruct (negb (Z.land (ev_mask event) IN_Q_OVERFLOW =? 0)); [exact IH|].
  apply extends_bind.
  - unfold process_inotify_event. apply extends_bind; [apply extends_refl|].
    intros [n|]; [apply each_alias_more_fuel | apply extends_refl].
  - intros [|]; [exact IH | apply extends_refl].
Qed.

(** A run that returns with some fuel returns the same with more. *)
Theorem more_fuel_same_result (fuel : nat) :
  (forall root mounts, extends (watch fuel root mounts) (watch (S fuel) root mounts))
  /\ (forall id, extends (unwatch fuel id) (unwatch (S fuel) id))
  /\ extends (process_inotify_input fuel) (process_inotify_input (S fuel)).
Proof.
  split; [|split].
  - intros root mounts. unfold watch. destruct (strip_bar root) as [recursive root'].
    apply extends_bind; [apply extends_refl|]. intros last.
    apply extends_bind; [apply extends_refl|]. intros [[r errno] st_mode].
    destruct (negb (r =? 0)); [apply extends_refl|].
    destruct (negb (S_ISREG st_mode) && negb (S_ISDIR st_mode)); [apply extends_refl|].
    apply extends_bind; [apply extends_refl|]. intros _.
    apply extends_bind; [apply extends_refl|]. intros _.
    apply walk_tree_more_fuel.
  - intros id. apply rm_watch_more_fuel.
  - unfold process_inotify_input. apply extends_bind; [apply extends_refl|].
    intros [events|]; [apply process_events_more_fuel | apply extends_refl].
Qed.

End Fuel.

(** ** Mount points (C3) *)

Section Mounts.

Context {World : Type} `{K : Kernel World}.

Lemma crosses_mount_none (p : string) : crosses_mount p None = false.
Proof. reflexivity. Qed.

(** C3, amended: the mount check of [walk_tree] does not look at
    [recursive].  Whether the walk is recursive or not, it answers
    [ERR_IGNORE] and changes nothing as soon as some mount is a prefix of
    the path; a flat walk whose path has no mount as a prefix answers what
    the same walk answers with no mounts at all. *)
Theorem walk_tree_mount_check (fuel path_len : nat) (parent : option loc)
    (recursive : bool) (mounts : array string) (s : state World) :
  ((exists mount rest,
      In mount (array_elems mounts) /\
      cstr (path_buf s) = (cstr mount ++ rest)%string) ->
   walk_tree (S fuel) path_len parent recursive mounts s = Ret ERR_IGNORE s)
  /\ (~ (exists mount rest,
           In mount (array_elems mounts) /\
           cstr (path_buf s) = (cstr mount ++ rest)%string) ->
      walk_tree (S fuel) path_len parent false mounts s =
      walk_tree (S fuel) path_len parent false None s).
Proof.
  pose proof (crosses_mount_spec (cstr (path_buf s)) mounts) as Hspec.
  rewrite cstr_idem in Hspec.
  cbn [walk_tree]. unfold bind, get_path. rewrite crosses_mount_none.
  split; intros H.
  - apply Hspec in H. now rewrite H.
  - destruct (crosses_mount (cstr (path_buf s)) mounts); [|reflexivity].
    exfalso. apply H, Hspec. reflexivity.
Qed.

End Mounts.

Lemma walk_tree_mount_check_witness :
  walk_tree 1 4 None true (Some ["/mnt"%string])
            (set_path_buf "/mnt" (init_state below_mount))
    = Ret ERR_IGNORE (set_path_buf "/mnt" (init_state below_mount))
  /\ walk_tree 1 2 None false (Some ["/mnt"%string])
                (set_path_buf "/a" (init_state linked))
     = walk_tree 1 2 None false None (set_path_buf "/a" (init_state linked)).
Proof.
  split.
  - apply (walk_tree_mount_check 0 4 None true (Some ["/mnt"%string])).
    exists "/mnt"%string, ""%string. split; [now left | reflexivity].
  - apply (walk_tree_mount_check 0 2 None false (Some ["/mnt"%string])).
    intros (mount & rest & [<- | []] & H). discriminate H.
Defined.

(** C3, as stated, fails: a flat walk of the plain file [/mnt/f] with the
    mount [/mnt] declared answers [ERR_IGNORE] and registers nothing, while
    the same walk with no mounts registers handle 1; so it is for [watch]
    of that plain-file root. *)
Lemma mount_stops_flat_walk :
  walk_tree 1 6 None false (Some ["/mnt"%string])
            (set_path_buf "/mnt/f" (init_state below_mount))
    = Ret ERR_IGNORE (set_path_buf "/mnt/f" (init_state below_mount))
  /\ (exists s',
        walk_tree 1 6 None false None
                  (set_path_buf "/mnt/f" (init_state below_mount)) = Ret 1 s'
        /\ watches s' !! 1 = Some 1%nat)
  /\ value (watch 5 "/mnt/f" (Some ["/mnt"%string]) (init_state below_mount))
     = Some ERR_IGNORE
  /\ watches (final (watch 5 "/mnt/f" (Some ["/mnt"%string]) (init_state below_mount)))
     = ∅
  /\ value (watch 5 "/mnt/f" None (init_state below_mount)) = Some 1.
Proof.
  split; [reflexivity|]. split.
  - eexists. split; [vm_compute; reflexivity | reflexivity].
  - repeat split; vm_compute; reflexivity.
Qed.

(** ** Node removal (C9) *)

Section Removal.

Context {World : Type} `{K : Kernel World}.

Lemma rm_watch_absent (fuel : nat) (wd' : Z) (update_parent : bool) (s : state World) :
  watches s !! wd' = None -> rm_watch (S fuel) wd' update_parent s = Ret tt s.
Proof. intros H. cbn [rm_watch]. unfold bind, table_get. now rewrite H. Qed.

Lemma rm_watch_clears (fuel : nat) (wd' : Z) (update_parent : bool)
    (s s' : state World) (u : unit) :
  rm_watch fuel wd' update_parent s = Ret u s' -> watches s' !! wd' = None.
Proof.
  destruct fuel as [|fuel]; [discriminate|].
  cbn [rm_watch]. unfold bind at 1, table_get.
  destruct (watches s !! wd') as [n|] eqn:E.
  - intros H. do 6 bind_inv H.
    unfold table_put in Hrun4. injection Hrun4 as _ <-.
    unfold ret in H. injection H as _ <-.
    cbn. apply lookup_delete_eq.
  - unfold ret. intros H. injection H as _ <-. exact E.
Qed.

(** C9: [unwatch] of a handle that has no table entry returns and leaves
    the whole state, table and nodes, as it was; and for every handle,
    [unwatch] followed by [unwatch] of the same handle is [unwatch] alone. *)
Theorem unwatch_idempotent (fuel fuel' : nat) (id : Z) (s : state World) :
  (watches s !! id = None -> unwatch (S fuel) id s = Ret tt s)
  /\ bind (unwatch fuel id) (fun _ => unwatch (S fuel') id) s = unwatch fuel id s.
Proof.
  split.
  - apply rm_watch_absent.
  - unfold bind, unwatch.
    destruct (rm_watch fuel id true s) as [[] s'|f s'] eqn:E; [|reflexivity].
    apply rm_watch_absent. exact (rm_watch_clears _ _ _ _ _ _ E).
Qed.

End Removal.

Lemma unwatch_idempotent_witness :
  unwatch 1 7 (final (watch 5 "/r" None (init_state two_dirs)))
    = Ret tt (final (watch 5 "/r" None (init_state two_dirs)))
  /\ bind (unwatch 3 1) (fun _ => unwatch 1 1)
          (final (watch 5 "/r" None (init_state two_dirs)))
     = unwatch 3 1 (final (watch 5 "/r" None (init_state two_dirs)))
  /\ watches (final (unwatch 3 1 (final (watch 5 "/r" None (init_state two_dirs))))) = ∅.
Proof.
  split; [|split].
  - apply (unwatch_idempotent 0 0 7). reflexivity.
  - apply (unwatch_idempotent 3 0 1).
  - vm_compute. reflexivity.
Defined.

(** ** Registration: [watch] on a missing root (C8) *)

Section Missing_root.

Context {World : Type} `{K : Kernel World}.

Lemma strip_bar_flat_or_nonempty (root : string) :
  cstr root <> EmptyString ->
  fst (strip_bar root) = false \/ snd (strip_bar root) <> EmptyString.
Proof.
  unfold strip_bar. intros H.
  destruct (cstr root) as [|c r] eqn:E; [contradiction|].
  destruct (Ascii.eqb c "|"); cbn; [now left | now right].
Qed.

(** C8: when [stat] of the root fails with [ENOENT], [watch] answers
    [ERR_MISSING]; the only system call made is that [stat], and the table,
    the nodes and everything else in the state are as before. *)
Theorem watch_missing_root (fuel : nat) (root : string) (mounts : array string)
    (s : state World) (r st_mode : Z) (w' : World) :
  cstr root <> EmptyString ->
  stat (snd (strip_bar root)) (world s) = (r, ENOENT, st_mode, w') ->
  r <> 0 ->
  watch fuel root mounts s = Ret ERR_MISSING (set_world w' s).
Proof.
  intros Hroot Hstat Hr. unfold watch.
  pose proof (strip_bar_flat_or_nonempty root Hroot) as Hbar.
  destruct (strip_bar root) as [recursive root'] eqn:E. cbn [fst snd] in *.
  assert (Hlast : exists c,
    match String.length root' with
    | O => if recursive then crash OutOfBounds else ret "|"%char
    | S i => ret (match String.get i root' with Some c => c | None => NUL end)
    end s = Ret c s).
  { destruct root' as [|c0 r0]; cbn [String.length].
    - destruct Hbar as [-> | Hne]; [eexists; reflexivity | contradiction].
    - eexists; reflexivity. }
  destruct Hlast as [c Hlast].
  rewrite (bind_Ret _ _ _ _ _ Hlast).
  unfold bind at 1, sys. rewrite Hstat.
  apply Z.eqb_neq in Hr. rewrite Hr. cbn. reflexivity.
Qed.

End Missing_root.

Lemma watch_missing_root_witness :
  watch 5 "/nowhere/" (Some ["/mnt"%string])
        (final (watch 5 "/r" None (init_state two_dirs)))
  = Ret ERR_MISSING
        (set_world (record_call (Stat "/nowhere/")
                      (world (final (watch 5 "/r" None (init_state two_dirs)))))
                   (final (watch 5 "/r" None (init_state two_dirs)))).
Proof.
  apply (watch_missing_root 5 "/nowhere/" (Some ["/mnt"%string])
           (final (watch 5 "/r" None (init_state two_dirs))) (-1) 0).
  - discriminate.
  - reflexivity.
  - discriminate.
Defined.

(** ** Registration: the outcomes of [add_watch] (C7) *)

Section Add_watch.

Context {World : Type} `{K : Kernel World}.

Lemma find_intersection_returns (p : string) (np : option string)
    (aliases : list watch_path) (s : state World) :
  exists found s',
    find_intersection p np aliases s = Ret found s'
    /\ (found = None \/ found = Some ERR_IGNORE \/ found = Some ERR_ABORT)
    /\ set_world (world s) s' = s.
Proof.
  revert s. induction aliases as [|wp rest IH]; intros s; cbn [find_intersection].
  - exists None, s. repeat split; [now left | now destruct s].
  - destruct (negb (strcmp_eq (path wp) p)); [|apply IH].
    unfold bind, sys. destruct (realpath (path wp) (world s)) as [n1 w1].
    destruct n1 as [n1|], np as [n2|];
      try (eexists _, _; repeat split; [now (right; right) | now destruct s]).
    destruct (strcmp_eq n1 n2).
    + eexists _, _. repeat split; [now (right; left) | now destruct s].
    + destruct (IH (set_world w1 s)) as (found & s' & -> & Hf & Hs).
      exists found, s'. repeat split; [exact Hf|].
      destruct s, s'; unfold set_world in *; cbn in *. congruence.
Qed.

(** Lines 127-141: what [add_watch] answers when the kernel refuses. *)
Lemma add_watch_refused (path_len : nat) (parent : option loc) (s : state World)
    (wd' errno : Z) (w' : World) :
  inotify_add_watch (cstr (path_buf s)) EVENT_MASK (world s) = (wd', errno, w') ->
  wd' < 0 ->
  add_watch path_len parent s =
    if (errno =? EACCES) || (errno =? ENOENT) then Ret ERR_IGNORE (set_world w' s)
    else if errno =? ENOSPC
         then bind watch_limit_reached (fun _ => ret ERR_CONTINUE) (set_world w' s)
         else Ret ERR_ABORT (set_world w' s).
Proof.
  intros Hk Hneg. unfold add_watch. unfold bind at 1 2, get_path, sys. rewrite Hk.
  apply Z.ltb_lt in Hneg. rewrite Hneg.
  destruct ((errno =? EACCES) || (errno =? ENOENT)); [reflexivity|].
  destruct (errno =? ENOSPC); reflexivity.
Qed.

(** C7, amended: a refused registration is mapped as specified ([EACCES]
    and [ENOENT] to [ERR_IGNORE]; [ENOSPC] to [ERR_CONTINUE] after
    [watch_limit_reached] has run; any other error to [ERR_ABORT]).  An
    accepted registration answers the kernel's handle, which is no error
    code, when the handle has no table entry yet (and [parent], if any, is
    a live node); when the handle is in the table already, the answer is
    the handle, [ERR_IGNORE] or [ERR_ABORT]. *)
Theorem add_watch_outcome (path_len : nat) (parent : option loc) (s : state World)
    (wd' errno : Z) (w' : World) :
  inotify_add_watch (cstr (path_buf s)) EVENT_MASK (world s) = (wd', errno, w') ->
  (wd' < 0 ->
     add_watch path_len parent s =
       if (errno =? EACCES) || (errno =? ENOENT) then Ret ERR_IGNORE (set_world w' s)
       else if errno =? ENOSPC
            then bind watch_limit_reached (fun _ => ret ERR_CONTINUE) (set_world w' s)
            else Ret ERR_ABORT (set_world w' s))
  /\ (0 <= wd' ->
      (wd' <> ERR_IGNORE /\ wd' <> ERR_CONTINUE /\ wd' <> ERR_ABORT /\ wd' <> ERR_MISSING)
      /\ match add_watch path_len parent s with
         | Ret r _ => r = wd' \/ r = ERR_IGNORE \/ r = ERR_ABORT
         | Crash f _ => f = InvalidPointer
         end
      /\ (watches s !! wd' = None ->
          match parent with Some pp => is_Some (heap s !! pp) | None => True end ->
          exists s', add_watch path_len parent s = Ret wd' s'
                     /\ watches s' !! wd' = Some (next_loc s))).
Proof.
  intros Hk. split; [now apply add_watch_refused|].
  assert (Hstart : forall k : string -> Z * Z -> M World Z,
            bind get_path (fun p => bind (sys (inotify_add_watch p EVENT_MASK)) (k p)) s
            = k (cstr (path_buf s)) (wd', errno) (set_world w' s)).
  { intros k. unfold bind, get_path, sys. now rewrite Hk. }
  unfold add_watch. rewrite Hstart. clear Hstart. cbv beta iota.
  intros Hpos. assert ((wd' <? 0) = false) as -> by now apply Z.ltb_ge.
  split; [unfold ERR_IGNORE, ERR_CONTINUE, ERR_ABORT, ERR_MISSING; lia|].
  split.
  + unfold bind at 1, table_get. proj_simpl.
    destruct (watches s !! wd') as [n|].
    * unfold bind at 1, deref. proj_simpl.
      destruct (heap s !! n) as [nd|]; [|reflexivity].
      destruct (negb (wd nd =? wd')); [cbn; auto|].
      unfold bind at 1, sys. proj_simpl.
      destruct (realpath (cstr (path_buf s)) w') as [np w2].
      unfold bind at 1.
      destruct (find_intersection_returns (cstr (path_buf s)) np (paths nd)
                  (set_world w2 (set_world w' s))) as (found & s' & -> & Hf & _).
      destruct Hf as [-> | [-> | ->]]; cbn; auto.
    * destruct parent as [pp|]; run_monad.
      -- match goal with |- context [?h !! pp] => destruct (h !! pp) end; auto.
      -- auto.
  + intros Hfree Hparent.
    unfold bind at 1, table_get. proj_simpl. rewrite Hfree.
    destruct parent as [pp|]; run_monad.
    * destruct (decide (next_loc s = pp)) as [<- | Hne].
      -- rewrite lookup_insert_eq. eexists. split; [reflexivity|].
         proj_simpl. apply lookup_insert_eq.
      -- rewrite lookup_insert_ne by exact Hne.
         destruct Hparent as [par ->]. eexists. split; [reflexivity|].
         proj_simpl. apply lookup_insert_eq.
    * eexists. split; [reflexivity|]. proj_simpl. apply lookup_insert_eq.
Qed.

End Add_watch.

Lemma add_watch_outcome_witness :
  add_watch 4 None (set_path_buf "/r/a" (init_state quota_at_a))
    = bind watch_limit_reached (fun _ => ret ERR_CONTINUE)
           (set_world (record_call (AddWatch "/r/a") quota_at_a)
                      (set_path_buf "/r/a" (init_state quota_at_a)))
  /\ (exists s', add_watch 2 None (set_path_buf "/r" (init_state quota_at_a)) = Ret 1 s'
                 /\ watches s' !! 1 = Some 1%nat).
Proof.
  split.
  - destruct (add_watch_outcome (K := tables_kernel) 4 None (set_path_buf "/r/a" (init_state quota_at_a))
                (-1) ENOSPC (record_call (AddWatch "/r/a") quota_at_a)
                ltac:(vm_compute; reflexivity))
      as [Hrefused _].
    apply Hrefused. lia.
  - destruct (add_watch_outcome (K := tables_kernel) 2 None (set_path_buf "/r" (init_state quota_at_a))
                1 0 (record_call (AddWatch "/r") quota_at_a)
                ltac:(vm_compute; reflexivity))
      as [_ Haccepted].
    destruct Haccepted as (_ & _ & Hnew); [lia|].
    apply Hnew; [reflexivity | exact I].
Defined.

(** C7, as stated, fails on its last clause: the kernel accepts the
    registration of [/b], a symbolic link to the watched [/a], with handle
    1, and [add_watch] answers [ERR_IGNORE], not the handle. *)
Lemma accepted_registration_ignored :
  fst (inotify_add_watch "/b" EVENT_MASK (world watching_a)) = (1, 0)
  /\ value (add_watch 2 None (set_path_buf "/b" watching_a)) = Some ERR_IGNORE.
Proof. split; vm_compute; reflexivity. Qed.

(** ** Registration of a path that is already an alias (C2) *)

(** C2 fails on the code: [/a] is watched under handle 1 with the single
    alias [/a]; registering the very same path again skips the comparison
    of line 156, finds no intersection, answers the handle and leaves the
    node with the alias twice. *)
Lemma identical_path_appended_again :
  paths <$> heap watching_a !! 1%nat = Some [mk_watch_path 2 "/a"]
  /\ value (watch 5 "|/a" None watching_a) = Some 1
  /\ paths <$> heap (final (watch 5 "|/a" None watching_a)) !! 1%nat
     = Some [mk_watch_path 2 "/a"; mk_watch_path 2 "/a"].
Proof. repeat split; vm_compute; reflexivity. Qed.

(** ** Pruning after a deletion (C4) *)

(** C4 fails on the code: once the deletion of [/r/a] has cleared slot 0 of
    the children of [/r], the deletion of [/r/b] reads [kid->paths] through
    the null pointer of that slot. *)
Lemma pruning_reads_cleared_slot :
  value (process_inotify_event 5 (dir_event IN_DELETE "a") watching_r) = Some true
  /\ kids <$> heap (final (process_inotify_event 5 (dir_event IN_DELETE "a") watching_r))
               !! 1%nat
     = Some (Some [None; Some 3%nat])
  /\ (exists s',
        process_inotify_event 5 (dir_event IN_DELETE "b")
          (final (process_inotify_event 5 (dir_event IN_DELETE "a") watching_r))
        = Crash NullPointer s').
Proof.
  repeat split; try (vm_compute; reflexivity).
  eexists. vm_compute. reflexivity.
Qed.

(** ** The notification over whole runs of the daemon

    Whatever the daemon does, and however it interleaves registrations
    with removals and with events, the limit-reached notification reaches
    the host at most once. *)

Section Once.
Context {World : Type} `{K : Kernel World}.

Local Abbreviation once := (@notified_at_most_once World).

Lemma once_refl (s : state World) : once s s.
Proof. left. now split. Qed.

Lemma once_trans (s1 s2 s3 : state World) : once s1 s2 -> once s2 s3 -> once s1 s3.
Proof.
  intros [[Hl Hs] | (Hl & Hl' & Hs)] [[Hl2 Hs2] | (Hl2 & Hl2' & Hs2)].
  - left. split; congruence.
  - right. repeat split; congruence.
  - right. repeat split; congruence.
  - congruence.
Qed.

Lemma keeps_ret {A} (a : A) : keeps once (ret a).
Proof. intros s. apply once_refl. Qed.

Lemma keeps_crash {A} (f : fault) : keeps once (@crash World A f).
Proof. intros s. apply once_refl. Qed.

Lemma keeps_bind {A B} (m : M World A) (k : A -> M World B) :
  keeps once m -> (forall a, keeps once (k a)) -> keeps once (bind m k).
Proof.
  intros Hm Hk s. specialize (Hm s). unfold bind.
  destruct (m s) as [a s1|f s1]; cbn [final] in *; [|exact Hm].
  exact (once_trans _ _ _ Hm (Hk a s1)).
Qed.

Lemma keeps_sys {A} (call : World -> A * World) : keeps once (sys call).
Proof. frame. Qed.
Lemma keeps_get_path : keeps once (@get_path World).
Proof. frame. Qed.
Lemma keeps_get_buf : keeps once (@get_buf World).
Proof. frame. Qed.
Lemma keeps_update_buf f : keeps once (@update_buf World f).
Proof. frame. Qed.
Lemma keeps_table_get key : keeps once (@table_get World key).
Proof. frame. Qed.
Lemma keeps_table_put key v : keeps once (@table_put World key v).
Proof. frame. Qed.
Lemma keeps_deref p : keeps once (@deref World p).
Proof. frame. Qed.
Lemma keeps_store p n : keeps once (@store World p n).
Proof. frame. Qed.
Lemma keeps_malloc n : keeps once (@malloc World n).
Proof. frame. Qed.
Lemma keeps_free p : keeps once (@free World p).
Proof. frame. Qed.
Lemma keeps_invoke_callback mask : keeps once (@invoke_callback World mask).
Proof. frame. Qed.

Lemma keeps_watch_limit_reached : keeps once (@watch_limit_reached World).
Proof.
  intros s. unfold watch_limit_reached, message.
  destruct (limit_reached s) eqn:E; cbn [negb final].
  - apply once_refl.
  - right. proj_simpl. now repeat split.
Qed.

#[local] Hint Resolve keeps_ret keeps_crash keeps_sys keeps_get_path keeps_get_buf
  keeps_update_buf keeps_table_get keeps_table_put keeps_deref keeps_store
  keeps_malloc keeps_free keeps_invoke_callback keeps_watch_limit_reached
  keeps_bind : keeps.
#[local] Hint Extern 2 (keeps _ (if ?b then _ else _)) => destruct b : keeps.
#[local] Hint Extern 2 (keeps _ (match ?x with _ => _ end)) => destruct x : keeps.

Lemma keeps_find_intersection p np aliases :
  keeps once (@find_intersection World K p np aliases).
Proof. induction aliases as [|wp rest IH]; cbn [find_intersection]; auto 40 with keeps nocore. Qed.
#[local] Hint Resolve keeps_find_intersection : keeps.

Lemma keeps_add_watch path_len parent : keeps once (@add_watch World K path_len parent).
Proof. unfold add_watch. auto 40 with keeps nocore. Qed.
#[local] Hint Resolve keeps_add_watch : keeps.

Lemma keeps_rm_kids (rm : Z -> bool -> M World unit) :
  (forall w b, keeps once (rm w b)) ->
  forall count n i, keeps once (rm_kids rm n i count).
Proof.
  intros Hrm. induction count as [|count IH]; intros n i; cbn [rm_kids];
    auto 40 with keeps nocore.
Qed.
#[local] Hint Resolve keeps_rm_kids : keeps.

Lemma keeps_rm_watch fuel wd' update_parent :
  keeps once (@rm_watch World K fuel wd' update_parent).
Proof.
  revert wd' update_parent. induction fuel as [|fuel IH]; intros wd' update_parent;
    cbn [rm_watch]; auto 40 with keeps nocore.
Qed.
#[local] Hint Resolve keeps_rm_watch : keeps.

Lemma keeps_select_entry path_len entry :
  keeps once (@select_entry World K path_len entry).
Proof. unfold select_entry. auto 40 with keeps nocore. Qed.
#[local] Hint Resolve keeps_select_entry : keeps.

Lemma keeps_walk_entries (walk : nat -> option loc -> bool -> array string -> M World Z)
    fuel path_len id recursive mounts :
  (forall l p r m, keeps once (walk l p r m)) ->
  forall entries, keeps once (walk_entries walk fuel path_len id recursive mounts entries).
Proof.
  intros Hwalk.
  induction entries as [|entry rest IH]; cbn [walk_entries]; auto 40 with keeps nocore.
Qed.
#[local] Hint Resolve keeps_walk_entries : keeps.

Lemma keeps_walk_tree fuel path_len parent recursive mounts :
  keeps once (@walk_tree World K fuel path_len parent recursive mounts).
Proof.
  revert path_len parent recursive mounts.
  induction fuel as [|fuel IH]; intros path_len parent recursive mounts;
    cbn [walk_tree]; auto 40 with keeps nocore.
Qed.
#[local] Hint Resolve keeps_walk_tree : keeps.

Lemma keeps_announce event wp : keeps once (@announce World event wp).
Proof. unfold announce. auto 40 with keeps nocore. Qed.
#[local] Hint Resolve keeps_announce : keeps.

Lemma keeps_prune_kid (rm : Z -> bool -> M World unit) :
  (forall w b, keeps once (rm w b)) ->
  forall slots node i, keeps once (prune_kid rm node i slots).
Proof.
  intros Hrm. induction slots as [|slot rest IH]; intros node i; cbn [prune_kid];
    auto 40 with keeps nocore.
Qed.
#[local] Hint Resolve keeps_prune_kid : keeps.

Lemma keeps_each_alias fuel event is_dir node i :
  keeps once (@each_alias World K fuel event is_dir node i).
Proof.
  revert i.
  induction fuel as [|fuel IH]; intros i; cbn [each_alias]; auto 40 with keeps nocore.
Qed.
#[local] Hint Resolve keeps_each_alias : keeps.

Lemma keeps_process_events fuel events :
  keeps once (@process_events World K fuel events).
Proof.
  induction events as [|event rest IH]; cbn [process_events]; unfold process_inotify_event;
    auto 40 with keeps nocore.
Qed.
#[local] Hint Resolve keeps_process_events : keeps.

Lemma keeps_watch fuel root mounts : keeps once (@watch World K fuel root mounts).
Proof.
  unfold watch. destruct (strip_bar root) as [recursive root']. auto 40 with keeps nocore.
Qed.

Lemma keeps_process_inotify_input fuel :
  keeps once (@process_inotify_input World K fuel).
Proof. unfold process_inotify_input. auto 40 with keeps nocore. Qed.

(** Every operation offered to the daemon sends the limit-reached
    notification at most once, and only if the flag was down. *)
Theorem operations_notify_at_most_once (fuel : nat) (c : command) (s : state World) :
  once s (final (run_command fuel c s)).
Proof.
  destruct c as [root mounts|id|]; cbn [run_command].
  - apply (keeps_bind (watch fuel root mounts) (fun _ => ret tt));
      [apply keeps_watch | intros; apply keeps_ret].
  - apply keeps_rm_watch.
  - apply (keeps_bind (process_inotify_input fuel) (fun _ => ret tt));
      [apply keeps_process_inotify_input | intros; apply keeps_ret].
Qed.

(** Over a whole run of the daemon the host receives the notification at
    most once. *)
Theorem run_notifies_at_most_once (fuel : nat) (cs : list command) (s : state World) :
  once s (run fuel cs s).
Proof.
  revert s. induction cs as [|c rest IH]; intros s; cbn [run]; [apply once_refl|].
  pose proof (operations_notify_at_most_once fuel c s) as Hc.
  destruct (run_command fuel c s) as [u s'|f s']; cbn [final] in Hc; [|exact Hc].
  exact (once_trans _ _ _ Hc (IH s')).
Qed.

End Once.

(** ** The limit-reached notification (C6) *)

Section Limit.

Context {World : Type} `{K : Kernel World}.

(** What [add_watch] does to the flag and to the notifications sent,
    whether it returns or crashes. *)
Lemma add_watch_signals (path_len : nat) (parent : option loc) (s : state World)
    (wd' errno : Z) (w' : World) :
  inotify_add_watch (cstr (path_buf s)) EVENT_MASK (world s) = (wd', errno, w') ->
  let refused := (wd' <? 0) && (errno =? ENOSPC) in
  limit_reached (final (add_watch path_len parent s)) = limit_reached s || refused
  /\ sent (final (add_watch path_len parent s))
     = sent s ++ (if refused && negb (limit_reached s) then [MSG_WATCH_LIMIT] else []).
Proof.
  intros Hk refused. subst refused.
  destruct (Z.ltb_spec wd' 0) as [Hneg | Hpos].
  - rewrite (add_watch_refused path_len parent s wd' errno w' Hk Hneg).
    destruct (errno =? EACCES) eqn:E1.
    { apply Z.eqb_eq in E1. subst errno. cbn.
      now rewrite orb_false_r, app_nil_r. }
    destruct (errno =? ENOENT) eqn:E2.
    { apply Z.eqb_eq in E2. subst errno. cbn.
      now rewrite orb_false_r, app_nil_r. }
    cbn [orb andb]. destruct (errno =? ENOSPC).
    + unfold watch_limit_reached. run_monad.
      destruct (limit_reached s) eqn:E; cbn; rewrite ?E, ?app_nil_r; split; reflexivity.
    + cbn. now rewrite orb_false_r, app_nil_r.
  - cbn [andb]. rewrite orb_false_r, app_nil_r.
    remember (add_watch path_len parent s) as o eqn:Ho.
    unfold add_watch in Ho. unfold bind at 1 2, get_path, sys in Ho. rewrite Hk in Ho.
    assert ((wd' <? 0) = false) as Hge by now apply Z.ltb_ge.
    rewrite Hge in Ho. clear Hge.
    unfold bind at 1, table_get in Ho. proj_simpl.
    destruct (watches s !! wd') as [n|].
    + unfold bind at 1, deref in Ho. proj_simpl.
      destruct (heap s !! n) as [nd|]; [|subst o; proj_simpl; now split].
      destruct (negb (wd nd =? wd')); [subst o; run_monad; now split|].
      unfold bind at 1, sys in Ho. proj_simpl.
      destruct (realpath (cstr (path_buf s)) w') as [np w2].
      unfold bind at 1 in Ho.
      destruct (find_intersection_returns (cstr (path_buf s)) np (paths nd)
                  (set_world w2 (set_world w' s))) as (found & s' & Hfind & _ & Hs).
      rewrite Hfind in Ho.
      assert (limit_reached s' = limit_reached s /\ sent s' = sent s) as [Hl Hm].
      { split; [apply (f_equal limit_reached) in Hs | apply (f_equal sent) in Hs];
          exact Hs. }
      destruct found; subst o; run_monad; now split.
    + destruct parent as [pp|]; run_monad; [|subst o; proj_simpl; now split].
      match type of Ho with context [?h !! pp] => destruct (h !! pp) end;
        subst o; proj_simpl; now split.
Qed.

Lemma attempts_notifications (l : list attempt) (s : state World) :
  map snd (attempts l s) = notifications (limit_reached s) (map fst (attempts l s)).
Proof.
  revert s. induction l as [|a rest IH]; intros s; [reflexivity|].
  cbn [attempts].
  destruct (inotify_add_watch (cstr (at_buf a)) EVENT_MASK (world s))
    as [[wd' errno] w'] eqn:Hk.
  destruct (add_watch_signals (at_len a) (at_parent a) (set_path_buf (at_buf a) s)
              wd' errno w' Hk) as [Hflag Hsent].
  proj_simpl.
  assert (Hseen : drop (length (sent s))
                    (sent (final (add_watch (at_len a) (at_parent a)
                                    (set_path_buf (at_buf a) s))))
                  = if refused_for_space a s && negb (limit_reached s)
                    then [MSG_WATCH_LIMIT] else []).
  { rewrite Hsent. unfold refused_for_space. rewrite Hk. apply drop_app_length. }
  assert (Hnext : limit_reached (final (add_watch (at_len a) (at_parent a)
                                          (set_path_buf (at_buf a) s)))
                  = limit_reached s || refused_for_space a s).
  { rewrite Hflag. unfold refused_for_space. now rewrite Hk. }
  destruct (add_watch (at_len a) (at_parent a) (set_path_buf (at_buf a) s))
    as [r s'|f s']; cbn [final] in *; cbn [map fst snd notifications].
  - rewrite Hseen, IH, Hnext. reflexivity.
  - rewrite Hseen. reflexivity.
Qed.

Lemma notifications_raised (refused : list bool) :
  concat (notifications true refused) = []
  /\ concat (notifications false refused)
     = if existsb (fun r => r) refused then [MSG_WATCH_LIMIT] else [].
Proof.
  assert (Hup : forall l, concat (notifications true l) = []).
  { induction l as [|r l IH]; [reflexivity|].
    cbn. rewrite andb_false_r. exact IH. }
  split; [apply Hup|].
  induction refused as [|r rest IH]; [reflexivity|].
  cbn. destruct r; cbn; [now rewrite Hup | exact IH].
Qed.

(** C6: in a process whose flag is still down, a run of registration
    attempts sends the limit-reached notification during the first attempt
    that the kernel refuses with [ENOSPC] and during no other attempt; over
    the whole run the host receives it exactly once if some attempt was
    refused so, and never otherwise.  And whatever operations the daemon
    runs from there, the notification is sent at most once. *)
Theorem watch_limit_notified_once (l : list attempt) (fuel : nat) (cs : list command)
    (s : state World) :
  limit_reached s = false ->
  map snd (attempts l s) = notifications false (map fst (attempts l s))
  /\ concat (map snd (attempts l s))
     = (if existsb (fun r => r) (map fst (attempts l s)) then [MSG_WATCH_LIMIT] else [])
  /\ notified_at_most_once s (run fuel cs s).
Proof.
  intros Hdown. pose proof (attempts_notifications l s) as H. rewrite Hdown in H.
  split; [exact H|]. split; [|apply run_notifies_at_most_once].
  rewrite H. apply notifications_raised.
Qed.

End Limit.

Lemma watch_limit_notified_once_witness :
  map snd (attempts [mk_attempt "/r/a" 4 None; mk_attempt "/r" 2 None;
                     mk_attempt "/r/a" 4 None; mk_attempt "/r/a" 4 None]
                    (init_state quota_at_a))
  = [[MSG_WATCH_LIMIT]; []; []; []]
  /\ map fst (attempts [mk_attempt "/r/a" 4 None; mk_attempt "/r" 2 None;
                        mk_attempt "/r/a" 4 None; mk_attempt "/r/a" 4 None]
                       (init_state quota_at_a))
     = [true; false; true; true]
  /\ sent (run 5 [Watch "/r" None; Watch "/r" None; Unwatch 1]
                (init_state quota_at_a))
     = [MSG_WATCH_LIMIT].
Proof.
  destruct (watch_limit_notified_once (K := tables_kernel)
              [mk_attempt "/r/a" 4 None; mk_attempt "/r" 2 None;
               mk_attempt "/r/a" 4 None; mk_attempt "/r/a" 4 None]
              5 [Watch "/r" None; Watch "/r" None; Unwatch 1]
              (init_state quota_at_a) eq_refl) as (Heach & _ & Honce).
  split; [|split].
  - rewrite Heach. vm_compute. reflexivity.
  - vm_compute. reflexivity.
  - destruct Honce as [[Hflag _] | (_ & _ & Hsent)].
    + vm_compute in Hflag. discriminate Hflag.
    + exact Hsent.
Defined.

(** ** The outcome of a child in the loop of [walk_tree] (C1) *)

Section Walk.

Context {World : Type} `{K : Kernel World}.

Lemma walk_entries_step
    (walk : nat -> option loc -> bool -> array string -> M World Z)
    (fuel path_len : nat) (id : Z) (recursive : bool) (mounts : array string)
    (entry : dirent) (rest : list dirent) (s s0 s1 : state World) (subdir_id : Z) :
  select_entry path_len entry s = Ret true s0 ->
  walk (path_len + 1 + strlen (d_name entry))%nat (watches s0 !! id) recursive mounts s0
    = Ret subdir_id s1 ->
  walk_entries walk fuel path_len id recursive mounts (entry :: rest) s
  = if (subdir_id <? 0) && negb (subdir_id =? ERR_IGNORE)
    then bind (rm_watch fuel id true) (fun _ => ret subdir_id) s1
    else walk_entries walk fuel path_len id recursive mounts rest s1.
Proof.
  intros Hsel Hwalk. cbn [walk_entries].
  rewrite (bind_Ret _ _ _ _ _ Hsel). cbv beta iota.
  unfold bind at 1, table_get.
  rewrite (bind_Ret _ _ _ _ _ Hwalk).
  now destruct ((subdir_id <? 0) && negb (subdir_id =? ERR_IGNORE)).
Qed.

End Walk.

(** C1, as stated, fails: on [quota_at_a] the walk of the child [/r/a]
    answers [ERR_CONTINUE]; the walk of [/r] then removes the node of [/r]
    it had registered, answers [ERR_CONTINUE] and never visits the sibling
    [/r/b]. *)
Lemma continue_from_child_aborts_walk :
  value (walk_tree 3 4 (Some 1%nat) true None
           (final (select_entry 2 (mk_dirent "a" DT_DIR) quota_loop)))
    = Some ERR_CONTINUE
  /\ value (watch 5 "/r" None (init_state quota_at_a)) = Some ERR_CONTINUE
  /\ watches (final (watch 5 "/r" None (init_state quota_at_a))) = ∅
  /\ tw_calls (world (final (watch 5 "/r" None (init_state quota_at_a))))
     = [Stat "/r"; Opendir "/r"; AddWatch "/r"; Opendir "/r/a"; AddWatch "/r/a";
        RmWatch 1].
Proof. repeat split; vm_compute; reflexivity. Qed.

(** ** Events that create a directory (C5, C10) *)

Section Events.

Context {World : Type} `{K : Kernel World}.

(** [announce] only writes [path_buf] and the record of callback calls. *)
Lemma announce_frame (event : inotify_event) (wp : watch_path) (s s1 : state World)
    (len : nat) :
  announce event wp s = Ret len s1 ->
  world s1 = world s /\ watches s1 = watches s /\ heap s1 = heap s
  /\ next_loc s1 = next_loc s.
Proof.
  unfold announce. run_monad.
  destruct (ev_len event >? 0); proj_simpl; destruct (callback s);
    intros H; injection H as _ <-; proj_simpl; repeat split.
Qed.



End Events.


(** * Further properties of the code *)

(** ** The root of a watch *)

Section Root.

Context {World : Type} `{K : Kernel World}.

(** [watch] up to the answer of [stat]. *)
Lemma watch_after_stat (fuel : nat) (root : string) (mounts : array string)
    (s : state World) (r errno st_mode : Z) (w' : World) :
  cstr root <> EmptyString ->
  stat (snd (strip_bar root)) (world s) = (r, errno, st_mode, w') ->
  watch fuel root mounts s =
    (if negb (r =? 0) then ret (stat_failure errno)
     else if negb (S_ISREG st_mode) && negb (S_ISDIR st_mode) then ret ERR_IGNORE
     else
       bind (update_buf (memcpy 0 (snd (strip_bar root)) (root_len (snd (strip_bar root)))))
         (fun _ =>
            bind (update_buf (poke (root_len (snd (strip_bar root))) NUL))
              (fun _ =>
                 walk_tree fuel (root_len (snd (strip_bar root))) None
                   (if S_ISREG st_mode then false else fst (strip_bar root)) mounts)))
      (set_world w' s).
Proof.
  intros Hroot Hstat. unfold watch.
  pose proof (strip_bar_flat_or_nonempty root Hroot) as Hbar.
  destruct (strip_bar root) as [recursive root'] eqn:E. cbn [fst snd] in *.
  assert (Hlast : exists c,
    match String.length root' with
    | O => if recursive then crash OutOfBounds else ret "|"%char
    | S i => ret (match String.get i root' with Some c => c | None => NUL end)
    end s = Ret c s
    /\ (if Ascii.eqb c "/" then (String.length root' - 1)%nat else String.length root')
       = root_len root').
  { unfold root_len. destruct (String.length root') as [|i] eqn:El.
    - destruct Hbar as [-> | Hne].
      + eexists. split; reflexivity.
      + destruct root'; [contradiction | discriminate].
    - eexists. split; [reflexivity|].
      destruct (String.get i root') as [c|]; cbn.
      + destruct (Ascii.eqb c "/"); [lia | reflexivity].
      + reflexivity. }
  destruct Hlast as (c & Hlast & Hlen).
  rewrite (bind_Ret _ _ _ _ _ Hlast). rewrite Hlen.
  unfold bind at 1, sys. rewrite Hstat.
  unfold stat_failure.
  destruct (negb (r =? 0)).
  - destruct (errno =? ENOENT); [reflexivity|].
    destruct ((errno =? EACCES) || (errno =? ELOOP) || (errno =? ENAMETOOLONG)
              || (errno =? ENOTDIR)); reflexivity.
  - reflexivity.
Qed.

(** When [stat] of the root fails, [watch] answers by the error alone
    ([ENOENT] missing; [EACCES], [ELOOP], [ENAMETOOLONG], [ENOTDIR] continue;
    anything else abort) and makes no other system call: nothing is
    registered, no node is created, [path_buf] is not written. *)
Theorem watch_stat_failure (fuel : nat) (root : string) (mounts : array string)
    (s : state World) (r errno st_mode : Z) (w' : World) :
  cstr root <> EmptyString ->
  stat (snd (strip_bar root)) (world s) = (r, errno, st_mode, w') ->
  r <> 0 ->
  watch fuel root mounts s = Ret (stat_failure errno) (set_world w' s)
  /\ (errno <> ENOENT -> errno <> EACCES -> errno <> ELOOP ->
      errno <> ENAMETOOLONG -> errno <> ENOTDIR -> stat_failure errno = ERR_ABORT)
  /\ (errno = EACCES \/ errno = ELOOP \/ errno = ENAMETOOLONG \/ errno = ENOTDIR ->
      stat_failure errno = ERR_CONTINUE).
Proof.
  intros Hroot Hstat Hr.
  rewrite (watch_after_stat _ _ _ _ _ _ _ _ Hroot Hstat).
  apply Z.eqb_neq in Hr. rewrite Hr. cbn [negb]. split; [reflexivity|].
  unfold stat_failure. split.
  - intros H1 H2 H3 H4 H5.
    apply Z.eqb_neq in H1, H2, H3, H4, H5. now rewrite H1, H2, H3, H4, H5.
  - intros [-> | [-> | [-> | ->]]]; reflexivity.
Qed.

(** A root that is neither a regular file nor a directory is answered with
    [ERR_IGNORE] after the [stat] call alone: nothing is registered. *)
Theorem watch_odd_node (fuel : nat) (root : string) (mounts : array string)
    (s : state World) (errno st_mode : Z) (w' : World) :
  cstr root <> EmptyString ->
  stat (snd (strip_bar root)) (world s) = (0, errno, st_mode, w') ->
  S_ISREG st_mode = false -> S_ISDIR st_mode = false ->
  watch fuel root mounts s = Ret ERR_IGNORE (set_world w' s).
Proof.
  intros Hroot Hstat Hreg Hdir.
  rewrite (watch_after_stat _ _ _ _ _ _ _ _ Hroot Hstat).
  now rewrite Hreg, Hdir.
Qed.

(** A regular file is watched flat whether or not the request carries the
    bar: with and without it, [watch] does the same. *)
Theorem watch_regular_file_flat (fuel : nat) (root : string) (mounts : array string)
    (s : state World) (c : ascii) (rest : string) (errno st_mode : Z) (w' : World) :
  cstr root = String c rest -> c <> "|"%char ->
  stat (cstr root) (world s) = (0, errno, st_mode, w') ->
  S_ISREG st_mode = true ->
  watch fuel (String "|" root) mounts s = watch fuel root mounts s
  /\ watch fuel root mounts s
     = bind (update_buf (memcpy 0 (cstr root) (root_len (cstr root))))
         (fun _ =>
            bind (update_buf (poke (root_len (cstr root)) NUL))
              (fun _ => walk_tree fuel (root_len (cstr root)) None false mounts))
         (set_world w' s).
Proof.
  intros Hc Hbar Hstat Hreg.
  assert (Hplain : strip_bar root = (true, cstr root)).
  { unfold strip_bar. rewrite Hc.
    destruct (Ascii.eqb c "|") eqn:E; [|reflexivity].
    apply Ascii.eqb_eq in E. contradiction. }
  assert (Hbarred : strip_bar (String "|" root) = (false, cstr root)).
  { unfold strip_bar. cbn. reflexivity. }
  assert (Hne : cstr root <> EmptyString) by (rewrite Hc; discriminate).
  assert (Hne' : cstr (String "|" root) <> EmptyString) by (cbn; discriminate).
  assert (Hstat' : stat (snd (strip_bar (String "|" root))) (world s)
                   = (0, errno, st_mode, w')) by now rewrite Hbarred.
  assert (Hstat'' : stat (snd (strip_bar root)) (world s) = (0, errno, st_mode, w'))
    by now rewrite Hplain.
  rewrite (watch_after_stat _ _ _ _ _ _ _ _ Hne' Hstat').
  rewrite (watch_after_stat _ _ _ _ _ _ _ _ Hne Hstat'').
  rewrite Hplain, Hbarred, Hreg. cbn [fst snd negb andb Z.eqb]. split; reflexivity.
Qed.

End Root.

(** ** Writes into the path buffer *)

Lemma append_cons (c : ascii) (p r : string) :
  (String c p ++ r)%string = String c (p ++ r).
Proof. reflexivity. Qed.

Lemma append_length (p r : string) :
  String.length (p ++ r) = (String.length p + String.length r)%nat.
Proof.
  induction p as [|c p IH]; [reflexivity|].
  rewrite append_cons. cbn [String.length]. now rewrite IH.
Qed.

Lemma append_assoc (p q r : string) : ((p ++ q) ++ r = p ++ (q ++ r))%string.
Proof. induction p as [|c p IH]; [reflexivity|]. rewrite !append_cons. now rewrite IH. Qed.

Lemma buf_take_length (n : nat) (b : string) : String.length (buf_take n b) = n.
Proof.
  revert b. induction n as [|n IH]; intros b; [reflexivity|].
  destruct b; cbn; now rewrite IH.
Qed.

Lemma buf_take_all (b : string) : buf_take (String.length b) b = b.
Proof. induction b as [|c b IH]; cbn; [reflexivity | now rewrite IH]. Qed.

Lemma buf_take_app (p r : string) : buf_take (String.length p) (p ++ r) = p.
Proof.
  induction p as [|c p IH]; rewrite ?append_cons; simpl; [reflexivity | now rewrite IH].
Qed.

Lemma cstr_app (p r : string) : cstr p = p -> cstr (p ++ r)%string = (p ++ cstr r)%string.
Proof.
  induction p as [|c p IH]; rewrite ?append_cons; simpl; [reflexivity|].
  destruct (Ascii.eqb c NUL); [discriminate|].
  intros H. injection H as H. now rewrite IH.
Qed.

Lemma cstr_app_nul (p r : string) : cstr (p ++ String NUL r)%string = cstr p.
Proof.
  induction p as [|c p IH]; rewrite ?append_cons; simpl; [reflexivity|].
  destruct (Ascii.eqb c NUL); [reflexivity | now rewrite IH].
Qed.

Lemma cstr_clean_app (p q : string) :
  cstr p = p -> cstr q = q -> cstr (p ++ q)%string = (p ++ q)%string.
Proof. intros Hp Hq. now rewrite cstr_app, Hq. Qed.

Lemma cstr_prefix_clean (n : nat) (b : string) :
  cstr b = b -> (n <= String.length b)%nat -> cstr (buf_take n b) = buf_take n b.
Proof.
  revert b. induction n as [|n IH]; intros b Hb Hn; [reflexivity|].
  destruct b as [|c b]; cbn in Hn; [lia|].
  pose proof (cstr_tail _ _ _ Hb) as Hb'.
  cbn in Hb |- *. destruct (Ascii.eqb c NUL); [discriminate|].
  rewrite IH; [reflexivity | exact Hb' | lia].
Qed.

(** [strlen(b) + 1] bytes of [b] are its C string and the NUL after it. *)
Lemma buf_take_cstr (b : string) :
  buf_take (strlen b + 1) b = (cstr b ++ String NUL EmptyString)%string.
Proof.
  unfold strlen. induction b as [|c b IH]; cbn; [reflexivity|].
  destruct (Ascii.eqb c NUL) eqn:E; simpl.
  - apply Ascii.eqb_eq in E. now subst c.
  - now rewrite IH.
Qed.

Lemma overwrite_exists (src b : string) : exists r, overwrite src b = (src ++ r)%string.
Proof.
  revert b. induction src as [|c src IH]; intros b; simpl;
    [now exists b|].
  destruct (IH (match b with EmptyString => EmptyString | String _ r => r end)) as [r ->].
  now exists r.
Qed.

Lemma buf_write_app (p src r : string) :
  buf_write (String.length p) src (p ++ r) = (p ++ overwrite src r)%string.
Proof.
  induction p as [|c p IH]; rewrite ?append_cons; simpl; [reflexivity | now rewrite IH].
Qed.

(** A write at the end of the C string held by [b] keeps that string and
    puts the bytes written right after it. *)
Lemma buf_write_end (b src : string) :
  exists r, buf_write (strlen b) src b = (cstr b ++ src ++ r)%string.
Proof.
  unfold strlen. induction b as [|c b IH]; cbn.
  - destruct (overwrite_exists src EmptyString) as [r ->]. now exists r.
  - destruct (Ascii.eqb c NUL); simpl.
    + destruct (overwrite_exists src (String c b)) as [r ->]. now exists r.
    + destruct IH as [r ->]. now exists r.
Qed.

(** [memcpy(b, src, n); b[n] = 0] leaves in [b] the C string held by the
    first [n] bytes of [src]. *)
Lemma cstr_copy_terminated (n : nat) (src b : string) :
  cstr (poke n NUL (memcpy 0 src n b)) = cstr (buf_take n src).
Proof.
  unfold poke, memcpy. cbn [buf_write].
  revert src b. induction n as [|n IH]; intros src b.
  - cbn. destruct b; reflexivity.
  - destruct src as [|c src]; cbn.
    + reflexivity.
    + destruct (Ascii.eqb c NUL); [reflexivity|]. now rewrite IH.
Qed.

(** The path a directory entry or an event name is appended to: the C
    string in [b], a separator written at its end, the name copied after
    it with its NUL. *)
Lemma cstr_child_path (b name : string) :
  cstr (memcpy (strlen b + 1) name (strlen name + 1) (poke (strlen b) "/" b))
  = (cstr b ++ String "/" (cstr name))%string.
Proof.
  unfold memcpy, poke. rewrite buf_take_cstr.
  destruct (buf_write_end b (String "/" EmptyString)) as [r ->].
  replace (strlen b + 1)%nat with (String.length (cstr b ++ String "/" EmptyString)%string).
  2:{ unfold strlen. rewrite append_length. reflexivity. }
  replace (cstr b ++ String "/" EmptyString ++ r)%string
    with ((cstr b ++ String "/" EmptyString) ++ r)%string.
  2:{ now rewrite append_assoc. }
  rewrite buf_write_app.
  destruct (overwrite_exists (cstr name ++ String NUL EmptyString) r) as [r' ->].
  rewrite !append_assoc.
  rewrite cstr_app by apply cstr_idem.
  change (String "/" EmptyString ++ cstr name ++ String NUL EmptyString ++ r')%string
    with (String "/" (cstr name ++ String NUL r')).
  change (cstr (String "/" (cstr name ++ String NUL r')))
    with (String "/" (cstr (cstr name ++ String NUL r'))).
  now rewrite cstr_app_nul, cstr_idem.
Qed.

Lemma watch_stat_failure_witness :
  watch 5 "/secret" None (init_state odd_roots)
  = Ret ERR_CONTINUE (set_world (record_call (Stat "/secret") odd_roots)
                                (init_state odd_roots)).
Proof.
  destruct (watch_stat_failure (K := tables_kernel) 5 "/secret" None
              (init_state odd_roots) (-1) EACCES 0
              (record_call (Stat "/secret") odd_roots)
              ltac:(discriminate) ltac:(reflexivity) ltac:(discriminate))
    as (Hrun & _ & _).
  exact Hrun.
Defined.

Lemma watch_odd_node_witness :
  watch 5 "/dev/null" None (init_state odd_roots)
  = Ret ERR_IGNORE (set_world (record_call (Stat "/dev/null") odd_roots)
                              (init_state odd_roots)).
Proof.
  apply (watch_odd_node (K := tables_kernel) 5 "/dev/null" None
           (init_state odd_roots) 0 8192); [discriminate | reflexivity..].
Defined.

Lemma watch_regular_file_flat_witness :
  watch 5 "|/f" None (init_state odd_roots) = watch 5 "/f" None (init_state odd_roots).
Proof.
  destruct (watch_regular_file_flat (K := tables_kernel) 5 "/f" None
              (init_state odd_roots) "/"%char "f" 0 S_IFREG
              (record_call (Stat "/f") odd_roots)
              ltac:(reflexivity) ltac:(discriminate) ltac:(reflexivity)
              ltac:(reflexivity)) as [Hsame _].
  exact Hsame.
Defined.

Section Root_path.

Context {World : Type} `{K : Kernel World}.

Lemma strip_bar_clean (root : string) :
  cstr (snd (strip_bar root)) = snd (strip_bar root).
Proof.
  unfold strip_bar. destruct (cstr root) as [|c r] eqn:E; [reflexivity|].
  destruct (Ascii.eqb c "|"); cbn [snd].
  - exact (cstr_tail _ _ _ E).
  - rewrite <- E. apply cstr_idem.
Qed.

Lemma buf_take_last (r : string) (i : nat) (c : ascii) :
  String.length r = S i -> String.get i r = Some c ->
  r = (buf_take i r ++ String c EmptyString)%string.
Proof.
  revert i. induction r as [|x r IH]; intros i Hl Hg; [discriminate|].
  cbn in Hl. injection Hl as Hl. destruct i as [|i].
  - destruct r; [|discriminate]. cbn in Hg. injection Hg as ->. reflexivity.
  - cbn in Hg. cbn [buf_take]. rewrite append_cons. f_equal. now apply IH.
Qed.

Lemma root_len_le (r : string) : (root_len r <= String.length r)%nat.
Proof.
  unfold root_len. destruct (String.length r) as [|i]; [lia|].
  destruct (String.get i r) as [c|]; [|lia]. destruct (Ascii.eqb c "/"); lia.
Qed.

Lemma get_last (p : string) (c : ascii) :
  String.get (String.length p) (p ++ String c EmptyString) = Some c.
Proof. induction p as [|x p IH]; rewrite ?append_cons; cbn; [reflexivity | exact IH]. Qed.

(** A root that ends in a separator is kept without it; any other root is
    kept whole. *)
Lemma root_len_chops (r : string) :
  (forall p, r = (p ++ String "/" EmptyString)%string -> buf_take (root_len r) r = p)
  /\ ((forall p, r <> (p ++ String "/" EmptyString)%string) ->
      buf_take (root_len r) r = r).
Proof.
  split.
  - intros p ->. unfold root_len. rewrite append_length. cbn [String.length].
    replace (String.length p + 1)%nat with (S (String.length p)) by lia.
    rewrite get_last. cbn [Ascii.eqb Bool.eqb]. cbn.
    apply buf_take_app.
  - intros Hno. unfold root_len. destruct (String.length r) as [|i] eqn:El.
    + destruct r; [reflexivity | discriminate].
    + destruct (String.get i r) as [c|] eqn:Eg.
      * destruct (Ascii.eqb c "/") eqn:Ec.
        -- apply Ascii.eqb_eq in Ec. subst c. exfalso.
           apply (Hno (buf_take i r)). now apply buf_take_last.
        -- rewrite <- El. apply buf_take_all.
      * rewrite <- El. apply buf_take_all.
Qed.

(** For a root that is a regular file or a directory, [watch] starts the
    walk with [path_buf] holding the root without its last byte when that
    byte is a separator, and the whole root otherwise, and with the length
    of the path so kept; the walk is flat for a regular file or a request
    that began with the bar, recursive otherwise. *)
Theorem watch_prepares_path (fuel : nat) (root : string) (mounts : array string)
    (s : state World) (errno st_mode : Z) (w' : World) :
  cstr root <> EmptyString ->
  stat (snd (strip_bar root)) (world s) = (0, errno, st_mode, w') ->
  S_ISREG st_mode = true \/ S_ISDIR st_mode = true ->
  exists b,
    watch fuel root mounts s
    = walk_tree fuel (strlen b) None
        (if S_ISREG st_mode then false else fst (strip_bar root)) mounts
        (set_path_buf b (set_world w' s))
    /\ (forall p, snd (strip_bar root) = (p ++ String "/" EmptyString)%string ->
        cstr b = p)
    /\ ((forall p, snd (strip_bar root) <> (p ++ String "/" EmptyString)%string) ->
        cstr b = snd (strip_bar root)).
Proof.
  intros Hroot Hstat Hkind.
  rewrite (watch_after_stat _ _ _ _ _ _ _ _ Hroot Hstat).
  assert (negb (S_ISREG st_mode) && negb (S_ISDIR st_mode) = false) as ->
    by (destruct Hkind as [-> | ->]; [reflexivity | apply andb_false_r]).
  cbn [Z.eqb negb].
  set (root' := snd (strip_bar root)).
  set (b := poke (root_len root') NUL (memcpy 0 root' (root_len root') (path_buf s))).
  assert (Hb : cstr b = buf_take (root_len root') root').
  { unfold b. rewrite cstr_copy_terminated.
    apply cstr_prefix_clean; [apply strip_bar_clean | apply root_len_le]. }
  exists b. split.
  - unfold strlen. rewrite Hb, buf_take_length. reflexivity.
  - rewrite Hb. apply root_len_chops.
Qed.

End Root_path.

Lemma watch_prepares_path_witness :
  exists b,
    watch 5 "/r/" None (init_state odd_roots)
    = walk_tree 5 (strlen b) None true None
        (set_path_buf b (set_world (record_call (Stat "/r/") odd_roots)
                                   (init_state odd_roots)))
    /\ cstr b = "/r"%string.
Proof.
  destruct (watch_prepares_path (K := tables_kernel) 5 "/r/" None (init_state odd_roots)
              0 S_IFDIR (record_call (Stat "/r/") odd_roots)
              ltac:(discriminate) ltac:(reflexivity) ltac:(right; reflexivity))
    as (b & Hrun & Hchop & _).
  exists b. split; [exact Hrun | apply (Hchop "/r"%string); reflexivity].
Defined.

(** ** The walk of one directory *)

Section Directory.

Context {World : Type} `{K : Kernel World}.

(** A directory that cannot be opened is answered by the error alone
    ([EACCES], [ENOENT] and [ENOTDIR] with [ERR_IGNORE], anything else with
    [ERR_CONTINUE]) before any registration is attempted: the table, the
    nodes and [path_buf] are as before. *)
Theorem walk_tree_unreadable (fuel path_len : nat) (parent : option loc)
    (mounts : array string) (s : state World) (errno : Z) (w' : World) :
  crosses_mount (cstr (path_buf s)) mounts = false ->
  opendir (cstr (path_buf s)) (world s) = (None, errno, w') ->
  walk_tree (S fuel) path_len parent true mounts s
    = Ret (opendir_failure errno) (set_world w' s)
  /\ (opendir_failure errno = ERR_IGNORE
      <-> errno = EACCES \/ errno = ENOENT \/ errno = ENOTDIR)
  /\ (opendir_failure errno <> ERR_IGNORE -> opendir_failure errno = ERR_CONTINUE).
Proof.
  intros Hmount Hopen. split; [|split].
  - cbn [walk_tree]. unfold bind at 1, get_path. rewrite Hmount.
    unfold bind, sys. rewrite Hopen. unfold opendir_failure.
    now destruct ((errno =? EACCES) || (errno =? ENOENT) || (errno =? ENOTDIR)).
  - unfold opendir_failure.
    destruct (Z.eqb_spec errno EACCES) as [-> | H1]; [now intuition|].
    destruct (Z.eqb_spec errno ENOENT) as [-> | H2]; [now intuition|].
    destruct (Z.eqb_spec errno ENOTDIR) as [-> | H3]; [now intuition|].
    cbn. split; [discriminate | now intros [? | [? | ?]]].
  - unfold opendir_failure.
    destruct ((errno =? EACCES) || (errno =? ENOENT) || (errno =? ENOTDIR));
      [contradiction | reflexivity].
Qed.

Lemma select_entry_passed_over (path_len : nat) (entry : dirent) (s : state World) :
  passed_over entry = true -> select_entry path_len entry s = Ret false s.
Proof.
  unfold passed_over, select_entry. intros H.
  destruct (strcmp_eq (d_name entry) "." || strcmp_eq (d_name entry) "..");
    [reflexivity|].
  cbn [orb] in H. now rewrite H.
Qed.

Lemma walk_entries_passed_over
    (walk : nat -> option loc -> bool -> array string -> M World Z)
    (fuel path_len : nat) (id : Z) (recursive : bool) (mounts : array string)
    (entries : list dirent) (s : state World) :
  forallb passed_over entries = true ->
  walk_entries walk fuel path_len id recursive mounts entries s = Ret id s.
Proof.
  induction entries as [|entry rest IH]; [reflexivity|].
  cbn [forallb]. intros H. apply andb_true_iff in H as [He Hr].
  cbn [walk_entries].
  rewrite (bind_Ret _ _ _ _ _ (select_entry_passed_over path_len entry s He)).
  now apply IH.
Qed.

(** A directory none of whose entries is a candidate subdirectory (each is
    a dot entry or has a known type other than directory) costs one
    [opendir] and one registration: the walk is [add_watch] followed, when
    it answers a handle, by the separator written after the path; no entry
    is examined with [stat] and none is walked. *)
Theorem walk_tree_no_subdirectories (fuel path_len : nat) (parent : option loc)
    (mounts : array string) (s : state World) (entries : list dirent)
    (errno : Z) (w' : World) :
  crosses_mount (cstr (path_buf s)) mounts = false ->
  opendir (cstr (path_buf s)) (world s) = (Some entries, errno, w') ->
  forallb passed_over entries = true ->
  walk_tree (S fuel) path_len parent true mounts s
  = bind (add_watch path_len parent)
      (fun id => if id <? 0 then ret id
                 else bind (update_buf (poke path_len "/")) (fun _ => ret id))
      (set_world w' s).
Proof.
  intros Hmount Hopen Hall. cbn [walk_tree].
  unfold bind at 1, get_path. rewrite Hmount.
  unfold bind at 1, sys. rewrite Hopen.
  unfold bind at 1 3.
  destruct (add_watch path_len parent (set_world w' s)) as [id s1|f s1]; [|reflexivity].
  destruct (id <? 0); [reflexivity|].
  unfold bind, update_buf. apply walk_entries_passed_over. exact Hall.
Qed.

(** A candidate subdirectory whose path begins with a mount point is
    skipped: its name is written after the separator, nothing is opened or
    registered for it, and the loop goes on with the entries that
    follow. *)
Theorem walk_entries_skips_mount (fuel fuel' path_len : nat) (id : Z)
    (mounts : array string) (entry : dirent) (rest : list dirent)
    (s : state World) (b : string) :
  path_buf s = poke path_len "/" b ->
  strlen b = path_len ->
  passed_over entry = false ->
  d_type entry = DT_DIR ->
  crosses_mount (cstr b ++ String "/" (cstr (d_name entry))) mounts = true ->
  exists b',
    cstr b' = (cstr b ++ String "/" (cstr (d_name entry)))%string
    /\ walk_entries (walk_tree (S fuel)) fuel' path_len id true mounts (entry :: rest) s
       = walk_entries (walk_tree (S fuel)) fuel' path_len id true mounts rest
           (set_path_buf b' s).
Proof.
  intros Hbuf Hlen Hcand Hdir Hmount.
  exists (memcpy (path_len + 1) (d_name entry) (strlen (d_name entry) + 1) (path_buf s)).
  assert (Hpath : cstr (memcpy (path_len + 1) (d_name entry)
                          (strlen (d_name entry) + 1) (path_buf s))
                  = (cstr b ++ String "/" (cstr (d_name entry)))%string).
  { rewrite Hbuf, <- Hlen. apply cstr_child_path. }
  split; [exact Hpath|].
  cbn [walk_entries]. unfold select_entry.
  unfold passed_over in Hcand. rewrite Hdir in *. 
  apply orb_false_iff in Hcand as [-> _].
  cbn [negb andb Z.eqb DT_DIR DT_UNKNOWN].
  cbn [Pos.eqb]. cbn [negb andb].
  cbn [walk_tree]. run_monad. rewrite Hpath, Hmount. reflexivity.
Qed.

End Directory.

Lemma walk_tree_unreadable_witness :
  walk_tree 1 7 None true None (set_path_buf "/locked" (init_state odd_roots))
  = Ret ERR_IGNORE
        (set_world (record_call (Opendir "/locked") odd_roots)
                   (set_path_buf "/locked" (init_state odd_roots))).
Proof.
  destruct (walk_tree_unreadable (K := tables_kernel) 0 7 None None
              (set_path_buf "/locked" (init_state odd_roots)) EACCES
              (record_call (Opendir "/locked") odd_roots)
              ltac:(reflexivity) ltac:(reflexivity)) as [Hrun _].
  exact Hrun.
Defined.

Lemma walk_tree_no_subdirectories_witness :
  walk_tree 1 2 None true None (set_path_buf "/r" (init_state files_only))
  = bind (add_watch 2 None)
      (fun id => if id <? 0 then ret id
                 else bind (update_buf (poke 2 "/")) (fun _ => ret id))
      (set_world (record_call (Opendir "/r") files_only)
                 (set_path_buf "/r" (init_state files_only))).
Proof.
  apply (walk_tree_no_subdirectories (K := tables_kernel) 0 2 None None
           (set_path_buf "/r" (init_state files_only))
           [mk_dirent "." DT_DIR; mk_dirent ".." DT_DIR; mk_dirent "f" DT_REG;
            mk_dirent "g" DT_REG] 0); reflexivity.
Defined.

Lemma walk_entries_skips_mount_witness :
  exists b',
    cstr b' = "/r/a"%string
    /\ walk_entries (walk_tree 3) 3 2 1 true (Some ["/r/a"%string])
                    [mk_dirent "a" DT_DIR; mk_dirent "b" DT_DIR] plain_loop
       = walk_entries (walk_tree 3) 3 2 1 true (Some ["/r/a"%string])
                      [mk_dirent "b" DT_DIR] (set_path_buf b' plain_loop).
Proof.
  apply (walk_entries_skips_mount (K := tables_kernel) 2 3 2 1 (Some ["/r/a"%string])
           (mk_dirent "a" DT_DIR) [mk_dirent "b" DT_DIR] plain_loop "/r");
    vm_compute; reflexivity.
Defined.

(** ** The effect of a registration *)

Section Registration.

Context {World : Type} `{K : Kernel World}.

(** A handle that is new to the table gets a node of its own: the node is
    allocated at the next free address with the handle, the given parent,
    no children and the one alias copied from [path_buf]; it is appended
    as the last child of its parent; the table maps the handle to it; every
    other node and table entry, [path_buf], the flag and what the host
    received are as before. *)
Theorem add_watch_new_node (path_len : nat) (parent : option loc) (s : state World)
    (wd' errno : Z) (w' : World) :
  inotify_add_watch (cstr (path_buf s)) EVENT_MASK (world s) = (wd', errno, w') ->
  0 <= wd' ->
  watches s !! wd' = None ->
  heap s !! next_loc s = None ->
  match parent with Some pp => is_Some (heap s !! pp) | None => True end ->
  exists s',
    add_watch path_len parent s = Ret wd' s'
    /\ watches s' = <[wd' := next_loc s]> (watches s)
    /\ heap s' !! next_loc s
       = Some (mk_watch_node wd' parent None [new_watch_path path_len (path_buf s)])
    /\ (forall pp par, parent = Some pp -> heap s !! pp = Some par ->
        heap s' !! pp = Some (with_kids (array_push (kids par) (Some (next_loc s))) par))
    /\ (forall n, n <> next_loc s -> parent <> Some n -> heap s' !! n = heap s !! n)
    /\ next_loc s' = S (next_loc s)
    /\ world s' = w' /\ path_buf s' = path_buf s /\ sent s' = sent s
    /\ limit_reached s' = limit_reached s /\ called s' = called s.
Proof.
  intros Hk Hpos Hnew Hfresh Hparent.
  assert (Hge : (wd' <? 0) = false) by now apply Z.ltb_ge.
  unfold add_watch. unfold bind at 1 2, get_path, sys. rewrite Hk, Hge.
  unfold bind at 1, table_get. proj_simpl. rewrite Hnew. cbv beta iota.
  destruct parent as [pp|].
  - destruct Hparent as [par Hpar].
    assert (Hne : next_loc s <> pp) by (intros Heq; rewrite Heq in Hfresh; congruence).
    run_monad. rewrite lookup_insert_ne by exact Hne. rewrite Hpar.
    eexists. split; [reflexivity|]. proj_simpl.
    split; [reflexivity|]. split.
    { rewrite lookup_insert_ne by (intros Heq; now apply Hne). apply lookup_insert_eq. }
    split.
    { intros pp' par' Heq Hpar'. injection Heq as <-.
      rewrite Hpar in Hpar'. injection Hpar' as <-. apply lookup_insert_eq. }
    split.
    { intros n Hn Hp. rewrite lookup_insert_ne by congruence.
      now rewrite lookup_insert_ne by congruence. }
    repeat split.
  - run_monad. eexists. split; [reflexivity|]. proj_simpl.
    split; [reflexivity|]. split; [apply lookup_insert_eq|].
    split; [discriminate|].
    split; [intros n Hn _; now rewrite lookup_insert_ne by congruence|].
    repeat split.
Qed.

(** A handle the table knows already gets no node: whatever parent is
    passed is ignored, the table is as before and nothing is allocated.
    The call returns; it answers the handle after appending one alias,
    copied from [path_buf], to the node of the handle, or it answers
    [ERR_IGNORE] or [ERR_ABORT] and leaves every node as it was.  The
    only system calls are the registration and [realpath]. *)
Theorem add_watch_known_handle (path_len : nat) (parent : option loc) (s : state World)
    (wd' errno : Z) (w' : World) (n : loc) (nd : watch_node) :
  inotify_add_watch (cstr (path_buf s)) EVENT_MASK (world s) = (wd', errno, w') ->
  0 <= wd' ->
  watches s !! wd' = Some n ->
  heap s !! n = Some nd ->
  exists r s',
    add_watch path_len parent s = Ret r s'
    /\ watches s' = watches s /\ next_loc s' = next_loc s
    /\ path_buf s' = path_buf s /\ sent s' = sent s
    /\ (wd nd <> wd' -> r = ERR_ABORT)
    /\ ((r = wd' /\ wd nd = wd'
         /\ heap s' = <[n := with_paths (paths nd ++ [new_watch_path path_len (path_buf s)])
                                        nd]> (heap s))
        \/ ((r = ERR_IGNORE \/ r = ERR_ABORT) /\ heap s' = heap s)).
Proof.
  intros Hk Hpos Hn Hnd.
  assert (Hge : (wd' <? 0) = false) by now apply Z.ltb_ge.
  unfold add_watch. unfold bind at 1 2, get_path, sys. rewrite Hk, Hge.
  unfold bind at 1, table_get. proj_simpl. rewrite Hn. cbv beta iota.
  unfold bind at 1, deref. proj_simpl. rewrite Hnd.
  destruct (Z.eqb_spec (wd nd) wd') as [Hwd | Hwd]; cbn [negb].
  2:{ eexists _, _. split; [reflexivity|]. proj_simpl.
      do 4 (split; [reflexivity|]). split; [reflexivity|].
      right. split; [now right | reflexivity]. }
  unfold bind at 1, sys. proj_simpl.
  destruct (realpath (cstr (path_buf s)) w') as [np w2].
  unfold bind at 1.
  destruct (find_intersection_returns (cstr (path_buf s)) np (paths nd)
              (set_world w2 (set_world w' s))) as (found & s1 & -> & Hf & Hs).
  assert (Hsame : watches s1 = watches s /\ next_loc s1 = next_loc s
                  /\ path_buf s1 = path_buf s /\ sent s1 = sent s /\ heap s1 = heap s).
  { repeat split;
      [apply (f_equal watches) in Hs | apply (f_equal next_loc) in Hs
       | apply (f_equal path_buf) in Hs | apply (f_equal sent) in Hs
       | apply (f_equal heap) in Hs]; exact Hs. }
  destruct Hsame as (Ht & Hl & Hb & Hm & Hh).
  destruct Hf as [-> | [-> | ->]].
  - run_monad. eexists _, _. split; [reflexivity|]. proj_simpl.
    rewrite Ht, Hl, Hb, Hm, Hh. do 4 (split; [reflexivity|]).
    split; [congruence|]. left. now repeat split.
  - eexists _, _. split; [reflexivity|].
    do 4 (split; [assumption|]). split; [congruence|].
    right. split; [now left | exact Hh].
  - eexists _, _. split; [reflexivity|].
    do 4 (split; [assumption|]). split; [reflexivity|].
    right. split; [now right | exact Hh].
Qed.

End Registration.

Lemma add_watch_new_node_witness :
  exists s',
    add_watch 4 (Some 1%nat) (set_path_buf "/r/m" watching_growing) = Ret 2 s'
    /\ heap s' !! 2%nat = Some (mk_watch_node 2 (Some 1%nat) None [mk_watch_path 4 "/r/m"])
    /\ heap s' !! 1%nat
       = Some (mk_watch_node 1 None (Some [Some 2%nat]) [mk_watch_path 2 "/r"]).
Proof.
  destruct (add_watch_new_node (K := tables_kernel) 4 (Some 1%nat)
              (set_path_buf "/r/m" watching_growing) 2 0
              (record_call (AddWatch "/r/m") (world watching_growing))
              ltac:(vm_compute; reflexivity) ltac:(discriminate)
              ltac:(vm_compute; reflexivity) ltac:(vm_compute; reflexivity)
              ltac:(vm_compute; eexists; reflexivity))
    as (s' & Hrun & _ & Hnode & Hpar & _).
  exists s'. split; [exact Hrun|]. split; [exact Hnode|].
  apply (Hpar 1%nat (mk_watch_node 1 None None [mk_watch_path 2 "/r"]));
    vm_compute; reflexivity.
Defined.

Lemma add_watch_known_handle_witness :
  exists r s',
    add_watch 2 (Some 7%nat) (set_path_buf "/b" watching_a) = Ret r s'
    /\ watches s' = watches watching_a
    /\ next_loc s' = next_loc watching_a.
Proof.
  destruct (add_watch_known_handle (K := tables_kernel) 2 (Some 7%nat)
              (set_path_buf "/b" watching_a) 1 0
              (record_call (AddWatch "/b") (world watching_a)) 1%nat
              (mk_watch_node 1 None None [mk_watch_path 2 "/a"])
              ltac:(vm_compute; reflexivity) ltac:(discriminate)
              ltac:(vm_compute; reflexivity) ltac:(vm_compute; reflexivity))
    as (r & s' & Hrun & Ht & Hl & _).
  exists r, s'. repeat split; assumption.
Defined.

(** ** What the callback is told *)

Section Callback.

Context {World : Type} `{K : Kernel World}.

Lemma same_registry_refl (s : state World) : same_registry s s.
Proof. repeat split. Qed.

Lemma same_registry_trans (s1 s2 s3 : state World) :
  same_registry s1 s2 -> same_registry s2 s3 -> same_registry s1 s3.
Proof.
  unfold same_registry. intros (A1 & A2 & A3 & A4 & A5 & A6 & A7)
    (B1 & B2 & B3 & B4 & B5 & B6 & B7).
  repeat split; congruence.
Qed.

(** The alias copied into [path_buf] with its NUL. *)
Lemma cstr_alias_copied (wp : watch_path) (b : string) :
  well_formed wp ->
  cstr (memcpy 0 (path wp) (path_len wp + 1) b) = path wp.
Proof.
  intros [Hclean Hlen]. unfold memcpy. cbn [buf_write].
  rewrite <- Hlen.
  replace (String.length (path wp)) with (strlen (path wp))
    by (unfold strlen; now rewrite Hclean).
  rewrite buf_take_cstr, Hclean.
  destruct (overwrite_exists (path wp ++ String NUL EmptyString) b) as [r ->].
  rewrite append_assoc. change (String NUL EmptyString ++ r)%string with (String NUL r).
  now rewrite cstr_app_nul.
Qed.

Lemma announce_runs (event : inotify_event) (wp : watch_path) (s : state World) :
  well_formed wp ->
  exists s1,
    announce event wp s = Ret (String.length (event_path event wp)) s1
    /\ cstr (path_buf s1) = event_path event wp
    /\ called s1
       = called s ++ (if callback s then [(event_path event wp, ev_mask event)] else [])
    /\ same_registry s s1.
Proof.
  intros Hwf. pose proof (cstr_alias_copied wp (path_buf s) Hwf) as Hcopy.
  destruct Hwf as [Hclean Hlen].
  unfold announce, event_path. run_monad.
  destruct (ev_len event >? 0); proj_simpl.
  - assert (Hpath : cstr (memcpy (path_len wp + 1) (ev_name event)
                            (strlen (ev_name event) + 1)
                            (poke (path_len wp) "/"
                               (memcpy 0 (path wp) (path_len wp + 1) (path_buf s))))
                    = (path wp ++ String "/" (cstr (ev_name event)))%string).
    { pose proof (cstr_child_path (memcpy 0 (path wp) (path_len wp + 1) (path_buf s))
                    (ev_name event)) as H.
      assert (HL : strlen (memcpy 0 (path wp) (path_len wp + 1) (path_buf s))
                   = path_len wp) by (unfold strlen; now rewrite Hcopy).
      rewrite HL, Hcopy in H. exact H. }
    assert (Hl : (path_len wp + (strlen (ev_name event) + 1))%nat
                 = String.length (path wp ++ String "/" (cstr (ev_name event)))).
    { rewrite append_length. cbn [String.length]. unfold strlen. lia. }
    rewrite Hl.
    destruct (callback s) eqn:Ec; eexists; (split; [reflexivity|]); proj_simpl;
      rewrite ?Hpath, ?app_nil_r, ?Ec; repeat split.
  - rewrite <- Hlen in Hcopy |- *.
    destruct (callback s) eqn:Ec; eexists; (split; [reflexivity|]); proj_simpl;
      rewrite ?Hcopy, ?app_nil_r, ?Ec; repeat split.
Qed.

(** For a well-formed alias, [announce] leaves in [path_buf] the alias
    itself when the event carries no name, the alias, a separator and the
    name otherwise; it answers the length of that path and, when a
    callback is installed, calls it once with that path and the mask of
    the event.  Nothing else changes. *)
Theorem announce_path (event : inotify_event) (wp : watch_path) (s : state World) :
  well_formed wp ->
  exists s1,
    announce event wp s = Ret (String.length (event_path event wp)) s1
    /\ cstr (path_buf s1) = event_path event wp
    /\ called s1
       = called s ++ (if callback s then [(event_path event wp, ev_mask event)] else [])
    /\ same_registry s s1.
Proof. apply announce_runs. Qed.

Lemma each_alias_plain (event : inotify_event) (is_dir : bool) (node : loc)
    (nd : watch_node) :
  Forall well_formed (paths nd) ->
  creates_dir is_dir (ev_mask event) = false ->
  deletes_dir is_dir (ev_mask event) = false ->
  forall (fuel i : nat) (s : state World),
    heap s !! node = Some nd ->
    (length (paths nd) - i < fuel)%nat ->
    exists s1,
      each_alias fuel event is_dir node i s = Ret true s1
      /\ called s1
         = called s ++ (if callback s
                        then map (fun wp => (event_path event wp, ev_mask event))
                                 (drop i (paths nd))
                        else [])
      /\ same_registry s s1.
Proof.
  intros Hwf Hc Hd. induction fuel as [|fuel IH]; intros i s Hnd Hfuel; [lia|].
  cbn [each_alias]. unfold bind at 1, deref. rewrite Hnd.
  destruct (paths nd !! i) as [wp|] eqn:Ewp.
  - assert (Hwp : well_formed wp).
    { rewrite Forall_forall in Hwf. apply Hwf.
      eapply list_elem_of_lookup_2. exact Ewp. }
    destruct (announce_runs event wp s Hwp) as (s1 & Hann & _ & Hcalled & Hreg).
    rewrite (bind_Ret _ _ _ _ _ Hann), Hc.
    unfold bind at 1, ret at 1. cbv beta iota. rewrite Hd.
    unfold bind at 1, ret at 1.
    pose proof Hreg as (_ & _ & Hh & _ & _ & Hcb & _).
    apply lookup_lt_Some in Ewp as Hlt.
    destruct (IH (S i) s1) as (s2 & Hrun & Hcalled2 & Hreg2);
      [now rewrite Hh | lia |].
    exists s2. split; [exact Hrun|]. split; [|exact (same_registry_trans _ _ _ Hreg Hreg2)].
    rewrite Hcalled2, Hcalled, Hcb.
    rewrite (drop_S _ _ _ Ewp).
    destruct (callback s); cbn [map]; [|now rewrite !app_nil_r].
    now rewrite <- app_assoc.
  - exists s. split; [reflexivity|]. split; [|apply same_registry_refl].
    apply lookup_ge_None in Ewp. rewrite drop_ge by lia.
    destruct (callback s); cbn [map]; now rewrite app_nil_r.
Qed.

(** An event that neither creates nor deletes a directory is answered with
    true after the callback has been called once for each alias of the
    node, in order, with the path of the event on that alias; the table,
    the nodes and the world are as before: no system call is made. *)
Theorem plain_event_calls_back (fuel : nat) (event : inotify_event) (node : loc)
    (nd : watch_node) (s : state World) :
  watches s !! ev_wd event = Some node ->
  heap s !! node = Some nd ->
  Forall well_formed (paths nd) ->
  creates_dir (Z.land (ev_mask event) IN_ISDIR =? IN_ISDIR) (ev_mask event) = false ->
  deletes_dir (Z.land (ev_mask event) IN_ISDIR =? IN_ISDIR) (ev_mask event) = false ->
  (length (paths nd) < fuel)%nat ->
  exists s1,
    process_inotify_event fuel event s = Ret true s1
    /\ called s1
       = called s ++ (if callback s
                      then map (fun wp => (event_path event wp, ev_mask event)) (paths nd)
                      else [])
    /\ same_registry s s1.
Proof.
  intros Hnode Hnd Hwf Hc Hd Hfuel.
  unfold process_inotify_event. unfold bind, table_get. rewrite Hnode.
  destruct (each_alias_plain event _ node nd Hwf Hc Hd fuel 0%nat s Hnd ltac:(lia))
    as (s1 & Hrun & Hcalled & Hreg).
  exists s1. now rewrite drop_0 in Hcalled.
Qed.

(** The events flagged [IN_IGNORED] or [IN_Q_OVERFLOW] take no part: a
    batch is processed as the batch without them.  So does an event whose
    handle has no table entry when its turn comes. *)
Theorem process_events_drops (fuel : nat) (events : list inotify_event)
    (s : state World) :
  process_events fuel events s
  = process_events fuel (List.filter (fun event => negb (dropped event)) events) s
  /\ forall event,
       watches s !! ev_wd event = None ->
       process_events fuel (event :: events) s = process_events fuel events s.
Proof.
  split.
  - revert s. induction events as [|event rest IH]; intros s; [reflexivity|].
    cbn [process_events List.filter].
    destruct (dropped event) eqn:Ed; unfold dropped in Ed; cbn [negb].
    + apply orb_true_iff in Ed as [-> | Ed]; [apply IH|].
      rewrite Ed. destruct (negb (Z.land (ev_mask event) IN_IGNORED =? 0)); apply IH.
    + apply orb_false_iff in Ed as [E1 E2]. rewrite E1, E2.
      cbn [process_events]. rewrite E1, E2. unfold bind.
      destruct (process_inotify_event fuel event s) as [[] s1|f s1]; [apply IH|..];
        reflexivity.
  - intros event Hnone. cbn [process_events].
    destruct (negb (Z.land (ev_mask event) IN_IGNORED =? 0)); [reflexivity|].
    destruct (negb (Z.land (ev_mask event) IN_Q_OVERFLOW =? 0)); [reflexivity|].
    unfold process_inotify_event. unfold bind, table_get. now rewrite Hnone.
Qed.

End Callback.

Lemma announce_path_witness :
  exists s1,
    announce (dir_event IN_CREATE "m") (mk_watch_path 2 "/r") watching_growing
    = Ret 4%nat s1
    /\ cstr (path_buf s1) = "/r/m"%string
    /\ called s1 = [("/r/m"%string, Z.lor IN_ISDIR IN_CREATE)].
Proof.
  destruct (announce_path (World := tables) (dir_event IN_CREATE "m")
              (mk_watch_path 2 "/r") watching_growing ltac:(split; reflexivity))
    as (s1 & Hrun & Hpath & Hcalled & _).
  exists s1. repeat split; assumption.
Defined.

Lemma plain_event_calls_back_witness :
  exists s1,
    process_inotify_event 5 (mk_event 1 IN_MODIFY 16 "f") watching_r = Ret true s1
    /\ called s1 = [("/r/f"%string, IN_MODIFY)]
    /\ same_registry watching_r s1.
Proof.
  apply (plain_event_calls_back (K := tables_kernel) 5 (mk_event 1 IN_MODIFY 16 "f")
           1%nat (mk_watch_node 1 None (Some [Some 2%nat; Some 3%nat])
                    [mk_watch_path 2 "/r"]) watching_r).
  - vm_compute. reflexivity.
  - vm_compute. reflexivity.
  - repeat constructor.
  - reflexivity.
  - reflexivity.
  - cbn. lia.
Defined.

(** ** Removal *)

Section Shrinking.

Context {World : Type} `{K : Kernel World}.

Lemma pruned_refl (nd : watch_node) : pruned nd nd.
Proof. repeat split. auto. Qed.

Lemma pruned_trans (a b c : watch_node) : pruned a b -> pruned b c -> pruned a c.
Proof.
  intros (A1 & A2 & A3 & A4 & A5) (B1 & B2 & B3 & B4 & B5).
  repeat split; try congruence. auto.
Qed.

Lemma shrinks_refl (s : state World) : shrinks s s.
Proof.
  repeat split; auto. intros n nd' H. exists nd'. split; [exact H | apply pruned_refl].
Qed.

Lemma shrinks_trans (s1 s2 s3 : state World) :
  shrinks s1 s2 -> shrinks s2 s3 -> shrinks s1 s3.
Proof.
  intros (A1 & A2 & A3 & A4 & A5 & A6 & A7 & A8) (B1 & B2 & B3 & B4 & B5 & B6 & B7 & B8).
  repeat split; try congruence; auto.
  intros n nd3 H. destruct (B2 _ _ H) as (nd2 & H2 & P2).
  destruct (A2 _ _ H2) as (nd1 & H1 & P1).
  exists nd1. split; [exact H1 | exact (pruned_trans _ _ _ P1 P2)].
Qed.

Lemma clear_slot_length (n : loc) (slots : list (option loc)) :
  length (clear_slot n slots) = length slots.
Proof.
  induction slots as [|[k|] rest IH]; cbn; [reflexivity | | now rewrite IH].
  destruct (Nat.eqb k n); cbn; [reflexivity | now rewrite IH].
Qed.

Lemma clear_slot_lookup (n : loc) (slots : list (option loc)) (i : nat) (k : loc) :
  clear_slot n slots !! i = Some (Some k) -> slots !! i = Some (Some k).
Proof.
  revert i. induction slots as [|[k'|] rest IH]; intros i; cbn; [auto | |].
  - destruct (Nat.eqb k' n); destruct i; cbn; auto; discriminate.
  - destruct i; cbn; auto.
Qed.

Lemma pruned_clear_slot (n : loc) (slots : list (option loc)) (par : watch_node) :
  kids par = Some slots -> pruned par (with_kids (Some (clear_slot n slots)) par).
Proof.
  intros Hk. destruct par as [w p k ps]. cbn in Hk. subst k.
  unfold pruned, with_kids, array_size, array_get. cbn.
  repeat split; [apply clear_slot_length|].
  intros i k. destruct (clear_slot n slots !! i) as [x|] eqn:E; [|discriminate].
  intros ->. now rewrite (clear_slot_lookup _ _ _ _ E).
Qed.

Lemma pruned_array_put (nd : watch_node) (i : nat) :
  pruned nd (with_kids (array_put (kids nd) i None) nd).
Proof.
  destruct nd as [w p [slots|] ps]; unfold pruned, with_kids, array_put, array_size,
    array_get; cbn; repeat split; auto.
  - now rewrite length_insert.
  - intros j k. destruct (decide (i = j)) as [<- | Hne].
    + destruct (decide (i < length slots)%nat) as [Hlt | Hge].
      * rewrite list_lookup_insert_eq by exact Hlt. discriminate.
      * rewrite list_insert_ge by lia. auto.
    + rewrite list_lookup_insert_ne by exact Hne. auto.
Qed.

Lemma shrinks_world (w : World) (s : state World) : shrinks s (set_world w s).
Proof.
  repeat split; auto. proj_simpl. intros n x Hx.
  exists x. split; [exact Hx | apply pruned_refl].
Qed.

Lemma shrinks_store (p : loc) (nd nd' : watch_node) (s : state World) :
  heap s !! p = Some nd -> pruned nd nd' ->
  shrinks s (set_heap (<[p := nd']> (heap s)) s).
Proof.
  intros Hp Hpr. repeat split; auto. proj_simpl. intros n x Hx.
  destruct (decide (p = n)) as [<- | Hne].
  - rewrite lookup_insert_eq in Hx. injection Hx as <-. now exists nd.
  - rewrite lookup_insert_ne in Hx by exact Hne. exists x. split; [exact Hx | apply pruned_refl].
Qed.

Lemma shrinks_free (p : loc) (s : state World) :
  shrinks s (set_heap (delete p (heap s)) s).
Proof.
  repeat split; auto. proj_simpl. intros n x Hx.
  apply lookup_delete_Some in Hx as [_ Hx].
  exists x. split; [exact Hx | apply pruned_refl].
Qed.

Lemma shrinks_forget (w : Z) (s : state World) :
  shrinks s (set_watches (delete w (watches s)) s).
Proof.
  repeat split; auto; proj_simpl.
  - intros w' n H. now apply lookup_delete_Some in H as [_ H].
  - intros n x Hx. exists x. split; [exact Hx | apply pruned_refl].
Qed.

Lemma keeps_shrinks_bind {A B} (m : M World A) (k : A -> M World B) :
  keeps shrinks m -> (forall a, keeps shrinks (k a)) -> keeps shrinks (bind m k).
Proof.
  intros Hm Hk s. specialize (Hm s). unfold bind.
  destruct (m s) as [a s1|f s1]; cbn [final] in *; [|exact Hm].
  exact (shrinks_trans _ _ _ Hm (Hk a s1)).
Qed.

Lemma keeps_shrinks_rm_kids (rm : Z -> bool -> M World unit) :
  (forall w b, keeps shrinks (rm w b)) ->
  forall count n i, keeps shrinks (rm_kids rm n i count).
Proof.
  intros Hrm. induction count as [|count IH]; intros n i s; cbn [rm_kids];
    [apply shrinks_refl|].
  unfold bind at 1, deref. destruct (heap s !! n) as [nd|]; [|apply shrinks_refl].
  destruct (i <? array_size (kids nd))%nat; [|apply shrinks_refl].
  destruct (array_get (kids nd) i) as [k|]; [|apply IH].
  unfold bind at 1, deref. destruct (heap s !! k) as [kid|]; [|apply shrinks_refl].
  apply keeps_shrinks_bind; [apply Hrm | intros; apply IH].
Qed.

(** The lines 232-243 of [rm_watch], from the second reading of the node
    on. *)
Lemma shrinks_rm_watch_tail (n : loc) (wd' : Z) (update_parent : bool) (s : state World) :
  shrinks s (final (bind (deref n) (fun nd =>
    bind (match (if update_parent then parent nd else None) with
          | Some pp =>
              bind (deref pp) (fun par =>
                match kids par with
                | Some slots => store pp (with_kids (Some (clear_slot n slots)) par)
                | None => ret tt
                end)
          | None => ret tt
          end)
      (fun _ => bind (free n) (fun _ => bind (table_put wd' None) (fun _ => ret tt)))) s)).
Proof.
  unfold bind at 1, deref. destruct (heap s !! n) as [nd|]; [|apply shrinks_refl].
  assert (Hend : forall s1, shrinks s s1 ->
            shrinks s (final (bind (free n) (fun _ =>
                          bind (table_put wd' None) (fun _ => ret tt)) s1))).
  { intros s1 H1. run_monad.
    apply (shrinks_trans _ s1); [exact H1|].
    apply (shrinks_trans _ (set_heap (delete n (heap s1)) s1)); [apply shrinks_free|].
    apply (shrinks_forget wd' (set_heap (delete n (heap s1)) s1)). }
  destruct (if update_parent then parent nd else None) as [pp|].
  - unfold bind at 1 2, deref. destruct (heap s !! pp) as [par|] eqn:Hpp;
      [|apply shrinks_refl].
    destruct (kids par) as [slots|] eqn:Hk.
    + unfold store. apply Hend.
      apply (shrinks_store pp par); [exact Hpp | now apply pruned_clear_slot].
    + unfold ret at 1. apply Hend, shrinks_refl.
  - unfold bind at 1, ret at 1. apply Hend, shrinks_refl.
Qed.

Lemma keeps_shrinks_rm_watch (fuel : nat) (wd' : Z) (update_parent : bool) :
  keeps shrinks (@rm_watch World K fuel wd' update_parent).
Proof.
  revert wd' update_parent. induction fuel as [|fuel IH]; intros wd' update_parent s;
    cbn [rm_watch]; [apply shrinks_refl|].
  unfold bind at 1, table_get. destruct (watches s !! wd') as [n|]; [|apply shrinks_refl].
  unfold bind at 1, deref. destruct (heap s !! n) as [nd|]; [|apply shrinks_refl].
  unfold bind at 1, sys. destruct (inotify_rm_watch (wd nd) (world s)) as [r w1].
  unfold bind at 1.
  pose proof (keeps_shrinks_rm_kids (rm_watch fuel) IH (array_size (kids nd)) n 0%nat
                (set_world w1 s)) as Hkids.
  destruct (rm_kids (rm_watch fuel) n 0 (array_size (kids nd)) (set_world w1 s))
    as [[] s2|f s2]; cbn [final] in Hkids.
  - eapply shrinks_trans; [apply (shrinks_world w1)|].
    eapply shrinks_trans; [exact Hkids|].
    apply shrinks_rm_watch_tail.
  - eapply shrinks_trans; [apply (shrinks_world w1) | exact Hkids].
Qed.

(** [unwatch] only removes: whether it returns or stops on a fault, the
    state it leaves has no table entry and no node that was not there
    before, every node that remains has its handle, parent and aliases
    unchanged and its children unchanged up to cleared slots, nothing was
    allocated, and [path_buf], the limit flag, the notifications sent and
    the callback calls are as before. *)
Theorem unwatch_only_removes (fuel : nat) (id : Z) (s : state World) :
  shrinks s (final (unwatch fuel id s)).
Proof. apply keeps_shrinks_rm_watch. Qed.

End Shrinking.

(** ** The table stays consistent *)

Section Consistency.

Context {World : Type} `{K : Kernel World}.

Local Abbreviation safe := (@stays_consistent World).

Lemma consistent_frame (s s' : state World) :
  watches s' = watches s -> heap s' = heap s -> next_loc s' = next_loc s ->
  consistent s -> consistent s'.
Proof. unfold consistent. intros -> -> ->. auto. Qed.

Lemma consistent_store (p : loc) (nd nd' : watch_node) (s : state World) :
  consistent s -> heap s !! p = Some nd -> wd nd' = wd nd ->
  consistent (set_heap (<[p := nd']> (heap s)) s).
Proof.
  intros [Ht Hl] Hp Hwd. split; proj_simpl.
  - intros w n Hw. destruct (Ht _ _ Hw) as (x & Hx & Hxw).
    destruct (decide (p = n)) as [<- | Hne].
    + rewrite lookup_insert_eq. exists nd'. split; [reflexivity | congruence].
    + rewrite lookup_insert_ne by exact Hne. now exists x.
  - intros n Hn. apply Hl. destruct (decide (p = n)) as [<- | Hne].
    + now rewrite Hp.
    + now rewrite lookup_insert_ne in Hn by exact Hne.
Qed.

Lemma consistent_malloc (nd : watch_node) (s : state World) :
  consistent s ->
  consistent (set_next_loc (S (next_loc s)) (set_heap (<[next_loc s := nd]> (heap s)) s)).
Proof.
  intros [Ht Hl]. split; proj_simpl.
  - intros w n Hw. destruct (Ht _ _ Hw) as (x & Hx & Hxw).
    assert (n < next_loc s)%nat by (apply Hl; now rewrite Hx).
    rewrite lookup_insert_ne by lia. now exists x.
  - intros n Hn. destruct (decide (next_loc s = n)) as [<- | Hne]; [lia|].
    rewrite lookup_insert_ne in Hn by exact Hne. apply Hl in Hn. lia.
Qed.

Lemma consistent_register (w : Z) (n : loc) (nd : watch_node) (s : state World) :
  consistent s -> heap s !! n = Some nd -> wd nd = w ->
  consistent (set_watches (<[w := n]> (watches s)) s).
Proof.
  intros [Ht Hl] Hn Hwd. split; proj_simpl; [|exact Hl].
  intros w' n' Hw. destruct (decide (w = w')) as [<- | Hne].
  - rewrite lookup_insert_eq in Hw. injection Hw as <-. now exists nd.
  - rewrite lookup_insert_ne in Hw by exact Hne. now apply Ht.
Qed.

Lemma consistent_remove (w : Z) (n : loc) (nd : watch_node) (s : state World) :
  consistent s -> heap s !! n = Some nd -> wd nd = w ->
  consistent (set_watches (delete w (watches s)) (set_heap (delete n (heap s)) s)).
Proof.
  intros [Ht Hl] Hn Hwd. split; proj_simpl.
  - intros w' n' Hw. apply lookup_delete_Some in Hw as [Hne Hw].
    destruct (Ht _ _ Hw) as (x & Hx & Hxw). exists x. split; [|exact Hxw].
    rewrite lookup_delete_ne; [exact Hx|].
    intros <-. rewrite Hn in Hx. injection Hx as <-. congruence.
  - intros n' [x Hx]. apply lookup_delete_Some in Hx as [_ Hx]. apply Hl. now exists x.
Qed.

Lemma safe_refl (s : state World) : safe s s.
Proof. unfold stays_consistent. auto. Qed.

Lemma safe_trans (s1 s2 s3 : state World) : safe s1 s2 -> safe s2 s3 -> safe s1 s3.
Proof. unfold stays_consistent. auto. Qed.

Lemma safe_frame (s s' : state World) :
  watches s' = watches s -> heap s' = heap s -> next_loc s' = next_loc s -> safe s s'.
Proof. intros. unfold stays_consistent. now apply consistent_frame. Qed.

Lemma safe_ret {A} (a : A) : keeps safe (ret a).
Proof. intros s. apply safe_refl. Qed.

Lemma safe_crash {A} (f : fault) : keeps safe (@crash World A f).
Proof. intros s. apply safe_refl. Qed.

Lemma safe_bind {A B} (m : M World A) (k : A -> M World B) :
  keeps safe m -> (forall a, keeps safe (k a)) -> keeps safe (bind m k).
Proof.
  intros Hm Hk s. specialize (Hm s). unfold bind.
  destruct (m s) as [a s1|f s1]; cbn [final] in *; [|exact Hm].
  exact (safe_trans _ _ _ Hm (Hk a s1)).
Qed.

Lemma safe_sys {A} (call : World -> A * World) : keeps safe (sys call).
Proof. intros s. unfold sys. destruct (call (world s)). now apply safe_frame. Qed.
Lemma safe_get_path : keeps safe (@get_path World).
Proof. intros s. apply safe_refl. Qed.
Lemma safe_get_buf : keeps safe (@get_buf World).
Proof. intros s. apply safe_refl. Qed.
Lemma safe_update_buf f : keeps safe (@update_buf World f).
Proof. intros s. now apply safe_frame. Qed.
Lemma safe_table_get key : keeps safe (@table_get World key).
Proof. intros s. apply safe_refl. Qed.
Lemma safe_deref p : keeps safe (@deref World p).
Proof. intros s. unfold deref. destruct (heap s !! p); apply safe_refl. Qed.
Lemma safe_invoke_callback mask : keeps safe (@invoke_callback World mask).
Proof.
  intros s. unfold invoke_callback. destruct (callback s); [now apply safe_frame|].
  apply safe_refl.
Qed.
Lemma safe_watch_limit_reached : keeps safe (@watch_limit_reached World).
Proof.
  intros s. unfold watch_limit_reached, message.
  destruct (negb (limit_reached s)); [now apply safe_frame | apply safe_refl].
Qed.

(** A node is read and written back with other children: lines 190-196,
    235 and 402. *)
Lemma safe_update_kids (p : loc) (f : watch_node -> array (option loc)) :
  keeps safe (bind (deref p) (fun nd => store p (with_kids (f nd) nd))).
Proof.
  intros s. unfold bind, deref, store. destruct (heap s !! p) as [nd|] eqn:Hp;
    [|apply safe_refl].
  intros Hc. cbn [final]. apply (consistent_store p nd); [exact Hc | exact Hp|].
  now destruct nd.
Qed.

#[local] Hint Resolve safe_ret safe_crash safe_sys safe_get_path safe_get_buf
  safe_update_buf safe_table_get safe_deref safe_invoke_callback
  safe_watch_limit_reached safe_update_kids safe_bind : safe.
#[local] Hint Extern 2 (keeps _ (if ?b then _ else _)) => destruct b : safe.
#[local] Hint Extern 2 (keeps _ (match ?x with _ => _ end)) => destruct x : safe.

Lemma safe_find_intersection p np aliases :
  keeps safe (@find_intersection World K p np aliases).
Proof.
  induction aliases as [|wp rest IH]; cbn [find_intersection]; auto 40 with safe nocore.
Qed.

Lemma safe_add_watch path_len parent : keeps safe (@add_watch World K path_len parent).
Proof.
  intros s Hc. unfold add_watch. unfold bind at 1 2, get_path, sys.
  destruct (inotify_add_watch (cstr (path_buf s)) EVENT_MASK (world s))
    as [[wd' errno] w1].
  assert (Hc1 : consistent (set_world w1 s)) by now apply (consistent_frame s).
  destruct (wd' <? 0).
  { destruct ((errno =? EACCES) || (errno =? ENOENT)); [exact Hc1|].
    destruct (errno =? ENOSPC); [|exact Hc1].
    apply (safe_bind watch_limit_reached (fun _ => ret ERR_CONTINUE));
      [apply safe_watch_limit_reached | intros; apply safe_ret | exact Hc1]. }
  unfold bind at 1, table_get. proj_simpl.
  destruct (watches s !! wd') as [n|] eqn:Hn.
  - destruct Hc as [Ht Hl]. destruct (Ht _ _ Hn) as (nd & Hnd & Hwd).
    unfold bind at 1, deref. proj_simpl. rewrite Hnd.
    destruct (negb (wd nd =? wd')); [exact Hc1|].
    unfold bind at 1, sys. proj_simpl.
    destruct (realpath (cstr (path_buf s)) w1) as [np w2].
    unfold bind at 1.
    destruct (find_intersection_returns (cstr (path_buf s)) np (paths nd)
                (set_world w2 (set_world w1 s))) as (found & s1 & -> & _ & Hs).
    assert (Hc2 : consistent s1).
    { apply (consistent_frame s); [| | |now split];
        [apply (f_equal watches) in Hs | apply (f_equal heap) in Hs
         | apply (f_equal next_loc) in Hs]; exact Hs. }
    destruct found as [code|]; [exact Hc2|].
    run_monad. apply (consistent_store n nd); [exact Hc2| |now destruct nd].
    apply (f_equal heap) in Hs. proj_simpl. congruence.
  - unfold bind at 1, get_buf. unfold bind at 1, malloc. proj_simpl.
    pose proof (consistent_malloc
                  (mk_watch_node wd' parent None [new_watch_path path_len (path_buf s)])
                  (set_world w1 s) Hc1) as Hc2.
    proj_simpl.
    set (nd := mk_watch_node wd' parent None [new_watch_path path_len (path_buf s)]) in *.
    set (s2 := set_next_loc (S (next_loc s)) (set_heap (<[next_loc s := nd]> (heap s))
                                                       (set_world w1 s))) in *.
    assert (Hend : forall (s3 : state World) x,
              consistent s3 -> heap s3 !! next_loc s = Some x -> wd x = wd' ->
              consistent (final (bind (table_put wd' (Some (next_loc s)))
                                   (fun stored => match stored with
                                                  | None => ret ERR_ABORT
                                                  | Some _ => ret wd'
                                                  end) s3))).
    { intros s3 x H3 Hx Hxw. run_monad. now apply (consistent_register _ _ x). }
    destruct parent as [pp|].
    + unfold bind at 1 2, deref.
      destruct (heap s2 !! pp) as [par|] eqn:Hpar; [|exact Hc2].
      unfold store.
      destruct (decide (pp = next_loc s)) as [-> | Hne].
      * apply (Hend _ (with_kids (array_push (kids par) (Some (next_loc s))) par)).
        -- apply (consistent_store _ par); [exact Hc2 | exact Hpar | now destruct par].
        -- proj_simpl. apply lookup_insert_eq.
        -- unfold s2 in Hpar. proj_simpl. rewrite lookup_insert_eq in Hpar.
           injection Hpar as <-. reflexivity.
      * apply (Hend _ nd).
        -- apply (consistent_store _ par); [exact Hc2 | exact Hpar | now destruct par].
        -- proj_simpl. rewrite lookup_insert_ne by exact Hne. unfold s2. proj_simpl.
           apply lookup_insert_eq.
        -- reflexivity.
    + unfold bind at 1, ret at 1. apply (Hend _ nd); [exact Hc2 | | reflexivity].
      unfold s2. proj_simpl. apply lookup_insert_eq.
Qed.

#[local] Hint Resolve safe_find_intersection safe_add_watch : safe.

Lemma safe_rm_kids (rm : Z -> bool -> M World unit) :
  (forall w b, keeps safe (rm w b)) ->
  forall count n i, keeps safe (rm_kids rm n i count).
Proof.
  intros Hrm. induction count as [|count IH]; intros n i; cbn [rm_kids];
    auto 40 with safe nocore.
Qed.

Lemma safe_rm_watch fuel wd' update_parent :
  keeps safe (@rm_watch World K fuel wd' update_parent).
Proof.
  revert wd' update_parent. induction fuel as [|fuel IH]; intros wd' update_parent s;
    cbn [rm_watch]; [apply safe_refl|].
  intros Hc.
  unfold bind at 1, table_get. destruct (watches s !! wd') as [n|] eqn:Hn; [|exact Hc].
  pose proof Hc as [Ht Hl]. destruct (Ht _ _ Hn) as (nd & Hnd & Hwd).
  unfold bind at 1, deref. rewrite Hnd.
  unfold bind at 1, sys. destruct (inotify_rm_watch (wd nd) (world s)) as [r w1].
  assert (Hc1 : consistent (set_world w1 s)) by now apply (consistent_frame s).
  unfold bind at 1.
  pose proof (safe_rm_kids (rm_watch fuel) IH (array_size (kids nd)) n 0%nat
                (set_world w1 s) Hc1) as Hc2.
  pose proof (keeps_shrinks_rm_kids (rm_watch fuel) (keeps_shrinks_rm_watch fuel)
                (array_size (kids nd)) n 0%nat (set_world w1 s)) as Hsh.
  destruct (rm_kids (rm_watch fuel) n 0 (array_size (kids nd)) (set_world w1 s))
    as [[] s2|f s2]; cbn [final] in *; [|exact Hc2].
  unfold bind at 1, deref. destruct (heap s2 !! n) as [nd2|] eqn:Hnd2; [|exact Hc2].
  assert (Hwd2 : wd nd2 = wd').
  { destruct Hsh as (_ & Hh & _). destruct (Hh _ _ Hnd2) as (x & Hx & Hp & _).
    proj_simpl. rewrite Hnd in Hx. injection Hx as <-. congruence. }
  assert (Hend : forall (s3 : state World) x,
            consistent s3 -> heap s3 !! n = Some x -> wd x = wd' ->
            consistent (final (bind (free n) (fun _ =>
                                 bind (table_put wd' None) (fun _ => ret tt)) s3))).
  { intros s3 x H3 Hx Hxw. run_monad. now apply (consistent_remove _ _ x). }
  destruct (if update_parent then parent nd2 else None) as [pp|].
  - unfold bind at 1 2, deref. destruct (heap s2 !! pp) as [par|] eqn:Hpar; [|exact Hc2].
    destruct (kids par) as [slots|].
    + unfold store.
      destruct (decide (pp = n)) as [-> | Hne].
      * apply (Hend _ (with_kids (Some (clear_slot n slots)) par)).
        -- apply (consistent_store _ par); [exact Hc2 | exact Hpar | now destruct par].
        -- proj_simpl. apply lookup_insert_eq.
        -- rewrite Hnd2 in Hpar. injection Hpar as <-. now destruct nd2.
      * apply (Hend _ nd2); [| |exact Hwd2].
        -- apply (consistent_store _ par); [exact Hc2 | exact Hpar | now destruct par].
        -- proj_simpl. now rewrite lookup_insert_ne by exact Hne.
    + unfold ret at 1. now apply (Hend _ nd2).
  - unfold bind at 1, ret at 1. now apply (Hend _ nd2).
Qed.

#[local] Hint Resolve safe_rm_kids safe_rm_watch : safe.

Lemma safe_select_entry path_len entry :
  keeps safe (@select_entry World K path_len entry).
Proof. unfold select_entry. auto 40 with safe nocore. Qed.
#[local] Hint Resolve safe_select_entry : safe.

Lemma safe_walk_entries (walk : nat -> option loc -> bool -> array string -> M World Z)
    fuel path_len id recursive mounts :
  (forall l p r m, keeps safe (walk l p r m)) ->
  forall entries, keeps safe (walk_entries walk fuel path_len id recursive mounts entries).
Proof.
  intros Hwalk.
  induction entries as [|entry rest IH]; cbn [walk_entries]; auto 40 with safe nocore.
Qed.
#[local] Hint Resolve safe_walk_entries : safe.

Lemma safe_walk_tree fuel path_len parent recursive mounts :
  keeps safe (@walk_tree World K fuel path_len parent recursive mounts).
Proof.
  revert path_len parent recursive mounts.
  induction fuel as [|fuel IH]; intros path_len parent recursive mounts;
    cbn [walk_tree]; auto 40 with safe nocore.
Qed.
#[local] Hint Resolve safe_walk_tree : safe.

Lemma safe_announce event wp : keeps safe (@announce World event wp).
Proof. unfold announce. auto 40 with safe nocore. Qed.
#[local] Hint Resolve safe_announce : safe.

Lemma safe_prune_kid (rm : Z -> bool -> M World unit) :
  (forall w b, keeps safe (rm w b)) ->
  forall slots node i, keeps safe (prune_kid rm node i slots).
Proof.
  intros Hrm. induction slots as [|slot rest IH]; intros node i; cbn [prune_kid];
    auto 40 with safe nocore.
Qed.
#[local] Hint Resolve safe_prune_kid : safe.

Lemma safe_each_alias fuel event is_dir node i :
  keeps safe (@each_alias World K fuel event is_dir node i).
Proof.
  revert i.
  induction fuel as [|fuel IH]; intros i; cbn [each_alias]; auto 40 with safe nocore.
Qed.
#[local] Hint Resolve safe_each_alias : safe.

Lemma safe_process_events fuel events :
  keeps safe (@process_events World K fuel events).
Proof.
  induction events as [|event rest IH]; cbn [process_events]; unfold process_inotify_event;
    auto 40 with safe nocore.
Qed.
#[local] Hint Resolve safe_process_events : safe.

Lemma safe_watch fuel root mounts : keeps safe (@watch World K fuel root mounts).
Proof.
  unfold watch. destruct (strip_bar root) as [recursive root']. auto 40 with safe nocore.
Qed.

Lemma safe_process_inotify_input fuel :
  keeps safe (@process_inotify_input World K fuel).
Proof. unfold process_inotify_input. auto 40 with safe nocore. Qed.

Lemma safe_run_command (fuel : nat) (c : command) (s : state World) :
  safe s (final (run_command fuel c s)).
Proof.
  destruct c as [root mounts|id|]; cbn [run_command].
  - apply (safe_bind (watch fuel root mounts) (fun _ => ret tt));
      [apply safe_watch | intros; apply safe_ret].
  - apply safe_rm_watch.
  - apply (safe_bind (process_inotify_input fuel) (fun _ => ret tt));
      [apply safe_process_inotify_input | intros; apply safe_ret].
Qed.

Lemma table_consistent_after (fuel : nat) (cs : list command) (s : state World) :
  consistent s -> consistent (run fuel cs s).
Proof.
  revert s. induction cs as [|c rest IH]; intros s Hc; cbn [run]; [exact Hc|].
  pose proof (safe_run_command fuel c s Hc) as H.
  destruct (run_command fuel c s) as [u s'|f s']; cbn [final] in H; [|exact H].
  now apply IH.
Qed.

Lemma init_state_consistent (w : World) : consistent (init_state w).
Proof.
  split; cbn.
  - intros w' n H. now rewrite lookup_empty in H.
  - intros n [x H]. now rewrite lookup_empty in H.
Qed.

(** Whatever the daemon asks for, in whatever order, and whether the run
    ends or stops on a fault: every table entry designates a live node
    that carries the handle it is entered under, and no live node lies at
    or above the address the allocator hands out next.  This holds of every
    state reached from a consistent one, so of every state reached from
    the state [init_inotify] leaves. *)
Theorem table_stays_consistent (fuel : nat) (cs : list command) (s : state World) :
  consistent s -> consistent (run fuel cs s).
Proof. apply table_consistent_after. Qed.

End Consistency.

Lemma table_stays_consistent_witness :
  consistent (run 5 [Watch "/r" None; Input; Unwatch 2; Watch "|/r/a" None]
                  (init_state two_dirs)).
Proof.
  apply (table_stays_consistent (K := tables_kernel) 5
           [Watch "/r" None; Input; Unwatch 2; Watch "|/r/a" None]
           (init_state two_dirs)).
  apply init_state_consistent.
Defined.

Section Safety.

Context {World : Type} `{K : Kernel World}.

(** In a consistent state, and with a parent that is null or live,
    [add_watch] reads no dangling pointer: it returns, whatever the kernel
    answers, and the state it leaves is consistent. *)
Theorem add_watch_returns (path_len : nat) (parent : option loc) (s : state World) :
  consistent s ->
  match parent with Some pp => is_Some (heap s !! pp) | None => True end ->
  exists r s', add_watch path_len parent s = Ret r s' /\ consistent s'.
Proof.
  intros Hc Hparent.
  pose proof (safe_add_watch path_len parent s Hc) as Hsafe.
  enough (exists r s', add_watch path_len parent s = Ret r s') as (r & s' & Hrun).
  { exists r, s'. rewrite Hrun in Hsafe. now split. }
  clear Hsafe. unfold add_watch. unfold bind at 1 2, get_path, sys.
  destruct (inotify_add_watch (cstr (path_buf s)) EVENT_MASK (world s))
    as [[wd' errno] w1].
  destruct (wd' <? 0).
  { destruct ((errno =? EACCES) || (errno =? ENOENT)); [now eexists _, _|].
    destruct (errno =? ENOSPC); [|now eexists _, _].
    unfold watch_limit_reached. run_monad.
    destruct (negb (limit_reached s)); now eexists _, _. }
  unfold bind at 1, table_get. proj_simpl.
  destruct (watches s !! wd') as [n|] eqn:Hn.
  - destruct Hc as [Ht _]. destruct (Ht _ _ Hn) as (nd & Hnd & Hwd).
    unfold bind at 1, deref. proj_simpl. rewrite Hnd.
    destruct (negb (wd nd =? wd')); [now eexists _, _|].
    unfold bind at 1, sys. proj_simpl.
    destruct (realpath (cstr (path_buf s)) w1) as [np w2].
    unfold bind at 1.
    destruct (find_intersection_returns (cstr (path_buf s)) np (paths nd)
                (set_world w2 (set_world w1 s))) as (found & s1 & -> & _ & _).
    destruct found; run_monad; now eexists _, _.
  - destruct parent as [pp|]; run_monad; [|now eexists _, _].
    destruct Hparent as [par Hpar].
    destruct (decide (next_loc s = pp)) as [<- | Hne].
    + rewrite lookup_insert_eq. now eexists _, _.
    + rewrite lookup_insert_ne by exact Hne. rewrite Hpar. now eexists _, _.
Qed.

Lemma rm_kids_no_live (rm : Z -> bool -> M World unit) (n : loc) (nd : watch_node)
    (s : state World) :
  heap s !! n = Some nd ->
  (forall i, array_get (kids nd) i = None) ->
  forall count i, rm_kids rm n i count s = Ret tt s.
Proof.
  intros Hn Hnone. induction count as [|count IH]; intros i; [reflexivity|].
  cbn [rm_kids]. unfold bind at 1, deref. rewrite Hn.
  destruct (i <? array_size (kids nd))%nat; [|reflexivity].
  rewrite Hnone. apply IH.
Qed.

(** The first slot that holds the node is cleared and no other. *)
Lemma clear_slot_first (n : loc) (pre post : list (option loc)) :
  Some n ∉ pre ->
  clear_slot n (pre ++ Some n :: post) = pre ++ None :: post.
Proof.
  induction pre as [|[k|] pre IH]; intros Hnot; cbn.
  - now rewrite Nat.eqb_refl.
  - destruct (Nat.eqb_spec k n) as [-> | Hne].
    + exfalso. apply Hnot. left.
    + rewrite IH; [reflexivity|]. intros H. apply Hnot. now right.
  - rewrite IH; [reflexivity|]. intros H. apply Hnot. now right.
Qed.

Lemma clear_slot_absent (n : loc) (slots : list (option loc)) :
  Some n ∉ slots -> clear_slot n slots = slots.
Proof.
  induction slots as [|[k|] rest IH]; intros Hnot; cbn; [reflexivity | |].
  - destruct (Nat.eqb_spec k n) as [-> | Hne].
    + exfalso. apply Hnot. left.
    + rewrite IH; [reflexivity|]. intros H. apply Hnot. now right.
  - rewrite IH; [reflexivity|]. intros H. apply Hnot. now right.
Qed.

(** [unwatch] of a node without live children that is a child of [pp]:
    the kernel is asked once to drop the node's handle; the node is freed
    and its table entry removed; in the children of the parent the first
    slot that holds the node is cleared, the array keeping its size and
    its other slots; everything else is as before. *)
Theorem unwatch_leaf (fuel : nat) (id : Z) (s : state World) (n pp : loc)
    (nd par : watch_node) (pre post : list (option loc)) (r : Z) (w1 : World) :
  watches s !! id = Some n ->
  heap s !! n = Some nd ->
  (forall i, array_get (kids nd) i = None) ->
  parent nd = Some pp ->
  heap s !! pp = Some par ->
  kids par = Some (pre ++ Some n :: post) ->
  Some n ∉ pre ->
  inotify_rm_watch (wd nd) (world s) = (r, w1) ->
  unwatch (S fuel) id s
  = Ret tt (set_watches (delete id (watches s))
              (set_heap (delete n (<[pp := with_kids (Some (pre ++ None :: post)) par]>
                                     (heap s)))
                 (set_world w1 s))).
Proof.
  intros Hid Hn Hleaf Hparent Hpp Hkids Hpre Hrm.
  unfold unwatch. cbn [rm_watch].
  unfold bind at 1, table_get. rewrite Hid.
  unfold bind at 1, deref. rewrite Hn.
  unfold bind at 1, sys. rewrite Hrm.
  rewrite (bind_Ret _ _ _ _ _
             (rm_kids_no_live (rm_watch fuel) n nd (set_world w1 s) Hn Hleaf _ _)).
  unfold bind at 1, deref. proj_simpl. rewrite Hn, Hparent.
  unfold bind at 1 2, deref. proj_simpl. rewrite Hpp, Hkids.
  rewrite clear_slot_first by exact Hpre. reflexivity.
Qed.

End Safety.

Lemma add_watch_returns_witness :
  exists r s',
    add_watch 4 (Some 1%nat) (set_path_buf "/r/a" watching_r) = Ret r s'
    /\ consistent s'.
Proof.
  apply (add_watch_returns (K := tables_kernel) 4 (Some 1%nat)
           (set_path_buf "/r/a" watching_r)).
  - apply (table_consistent_after (K := tables_kernel) 5 [Watch "/r" None]
             (init_state two_dirs)).
    apply init_state_consistent.
  - vm_compute. eexists. reflexivity.
Defined.

Lemma unwatch_leaf_witness :
  unwatch 1 2 watching_r
  = Ret tt (set_watches (delete 2 (watches watching_r))
              (set_heap (delete 2%nat
                           (<[1%nat := mk_watch_node 1 None (Some [None; Some 3%nat])
                                         [mk_watch_path 2 "/r"]]> (heap watching_r)))
                 (set_world (record_call (RmWatch 2) (world watching_r)) watching_r))).
Proof.
  apply (unwatch_leaf (K := tables_kernel) 0 2 watching_r 2%nat 1%nat
           (mk_watch_node 2 (Some 1%nat) None [mk_watch_path 4 "/r/a"])
           (mk_watch_node 1 None (Some [Some 2%nat; Some 3%nat]) [mk_watch_path 2 "/r"])
           [] [Some 3%nat] 0).
  - vm_compute. reflexivity.
  - vm_compute. reflexivity.
  - intros i. destruct i; reflexivity.
  - reflexivity.
  - vm_compute. reflexivity.
  - reflexivity.
  - apply not_elem_of_nil.
  - reflexivity.
Defined.

(** ** A walk that succeeds removes nothing *)

Section Growing.

Context {World : Type} `{K : Kernel World}.

Lemma extended_refl (nd : watch_node) : extended nd nd.
Proof. repeat split; reflexivity. Qed.

Lemma extended_trans (a b c : watch_node) : extended a b -> extended b c -> extended a c.
Proof.
  intros (A1 & A2 & A3 & A4) (B1 & B2 & B3 & B4).
  repeat split; try congruence; etrans; eassumption.
Qed.

Lemma grows_refl (s : state World) : grows s s.
Proof.
  repeat split; auto. intros n nd H. exists nd. split; [exact H | apply extended_refl].
Qed.

Lemma grows_trans (s1 s2 s3 : state World) : grows s1 s2 -> grows s2 s3 -> grows s1 s3.
Proof.
  intros (A1 & A2 & A3) (B1 & B2 & B3). repeat split; auto; [|lia].
  intros n nd H. destruct (A2 _ _ H) as (nd2 & H2 & E2).
  destruct (B2 _ _ H2) as (nd3 & H3 & E3).
  exists nd3. split; [exact H3 | exact (extended_trans _ _ _ E2 E3)].
Qed.

Lemma grows_frame (s s' : state World) :
  watches s' = watches s -> heap s' = heap s -> next_loc s' = next_loc s -> grows s s'.
Proof.
  intros Ht Hh Hl. unfold grows. rewrite Ht, Hh, Hl. apply grows_refl.
Qed.

Lemma grows_store (p : loc) (nd nd' : watch_node) (s : state World) :
  heap s !! p = Some nd -> extended nd nd' ->
  grows s (set_heap (<[p := nd']> (heap s)) s).
Proof.
  intros Hp He. repeat split; auto. proj_simpl. intros n x Hx.
  destruct (decide (p = n)) as [<- | Hne].
  - rewrite lookup_insert_eq. exists nd'. split; [reflexivity | congruence].
  - rewrite lookup_insert_ne by exact Hne. exists x. split; [exact Hx | apply extended_refl].
Qed.

Lemma grows_malloc (nd : watch_node) (s : state World) :
  consistent s ->
  grows s (set_next_loc (S (next_loc s)) (set_heap (<[next_loc s := nd]> (heap s)) s)).
Proof.
  intros [_ Hl]. repeat split; auto; proj_simpl; [|lia].
  intros n x Hx. assert (n < next_loc s)%nat by (apply Hl; now rewrite Hx).
  rewrite lookup_insert_ne by lia. exists x. split; [exact Hx | apply extended_refl].
Qed.

Lemma grows_register (w : Z) (n : loc) (s : state World) :
  watches s !! w = None -> grows s (set_watches (<[w := n]> (watches s)) s).
Proof.
  intros Hw. repeat split; auto; proj_simpl.
  - intros w' n' H. rewrite lookup_insert_ne; [exact H | congruence].
  - intros n' x Hx. exists x. split; [exact Hx | apply extended_refl].
Qed.

Lemma extended_paths (nd : watch_node) (wp : watch_path) :
  extended nd (with_paths (paths nd ++ [wp]) nd).
Proof. destruct nd. repeat split; cbn; [now apply prefix_app_r | reflexivity]. Qed.

Lemma extended_kids (nd : watch_node) (k : option loc) :
  extended nd (with_kids (array_push (kids nd) k) nd).
Proof. destruct nd. repeat split; cbn; [reflexivity | now apply prefix_app_r]. Qed.

(** Whatever it answers, [add_watch] removes nothing; a handle it answers
    is in the table. *)
Lemma add_watch_grows (path_len : nat) (parent : option loc) (s s' : state World)
    (r : Z) :
  consistent s ->
  add_watch path_len parent s = Ret r s' ->
  grows s s' /\ (0 <= r -> is_Some (watches s' !! r)).
Proof.
  intros Hc. unfold add_watch. unfold bind at 1 2, get_path, sys.
  destruct (inotify_add_watch (cstr (path_buf s)) EVENT_MASK (world s))
    as [[wd' errno] w1].
  assert (Hg1 : grows s (set_world w1 s)) by now apply grows_frame.
  destruct (Z.ltb_spec wd' 0) as [Hneg | Hpos].
  { destruct ((errno =? EACCES) || (errno =? ENOENT)).
    { intros H. injection H as <- <-. split; [exact Hg1 | no_handle]. }
    destruct (errno =? ENOSPC).
    - unfold watch_limit_reached. run_monad.
      destruct (negb (limit_reached s)); intros H; injection H as <- <-;
        (split; [now apply grows_frame | no_handle]).
    - intros H. injection H as <- <-. split; [exact Hg1 | no_handle]. }
  unfold bind at 1, table_get. proj_simpl.
  destruct (watches s !! wd') as [n|] eqn:Hn.
  - unfold bind at 1, deref. proj_simpl.
    destruct (heap s !! n) as [nd|] eqn:Hnd; [|discriminate].
    destruct (negb (wd nd =? wd')).
    { intros H. injection H as <- <-. split; [exact Hg1 | no_handle]. }
    unfold bind at 1, sys. proj_simpl.
    destruct (realpath (cstr (path_buf s)) w1) as [np w2].
    unfold bind at 1.
    destruct (find_intersection_returns (cstr (path_buf s)) np (paths nd)
                (set_world w2 (set_world w1 s))) as (found & s1 & -> & Hf & Hs).
    assert (Hsame : watches s1 = watches s /\ heap s1 = heap s
                    /\ next_loc s1 = next_loc s).
    { repeat split;
        [apply (f_equal watches) in Hs | apply (f_equal heap) in Hs
         | apply (f_equal next_loc) in Hs]; exact Hs. }
    destruct Hsame as (Ht & Hh & Hl).
    assert (Hg2 : grows s s1) by now apply grows_frame.
    destruct found as [code|].
    + intros H. injection H as <- <-. split; [exact Hg2|].
      destruct Hf as [Hf | [Hf | Hf]]; [discriminate | |]; injection Hf as ->;
        no_handle.
    + run_monad. intros H. injection H as <- <-. split.
      * apply (grows_trans _ s1); [exact Hg2|].
        apply (grows_store n nd); [congruence | apply extended_paths].
      * intros _. proj_simpl. rewrite Ht, Hn. now eexists.
  - unfold bind at 1, get_buf. unfold bind at 1, malloc. proj_simpl.
    set (nd := mk_watch_node wd' parent None [new_watch_path path_len (path_buf s)]).
    set (s2 := set_next_loc (S (next_loc s)) (set_heap (<[next_loc s := nd]> (heap s))
                                                       (set_world w1 s))).
    assert (Hg2 : grows s s2).
    { apply (grows_trans _ (set_world w1 s)); [exact Hg1|].
      apply (grows_malloc nd (set_world w1 s)). now apply (consistent_frame s). }
    assert (Hend : forall (s3 : state World),
              grows s s3 -> watches s3 = watches s ->
              bind (table_put wd' (Some (next_loc s)))
                (fun stored => match stored with
                               | None => ret ERR_ABORT
                               | Some _ => ret wd'
                               end) s3 = Ret r s' ->
              grows s s' /\ (0 <= r -> is_Some (watches s' !! r))).
    { intros s3 H3 Ht. run_monad. intros H. injection H as <- <-. split.
      - apply (grows_trans _ s3); [exact H3|]. apply grows_register. congruence.
      - intros _. proj_simpl. rewrite lookup_insert_eq. now eexists. }
    destruct parent as [pp|].
    + unfold bind at 1 2, deref.
      destruct (heap s2 !! pp) as [par|] eqn:Hpar; [|discriminate].
      unfold store. apply Hend; [|reflexivity].
      apply (grows_trans _ s2); [exact Hg2|].
      apply (grows_store pp par); [exact Hpar | apply extended_kids].
    + unfold bind at 1, ret at 1. now apply Hend.
Qed.

Lemma select_entry_grows (path_len : nat) (entry : dirent) (s s' : state World)
    (b : bool) :
  select_entry path_len entry s = Ret b s' ->
  watches s' = watches s /\ heap s' = heap s /\ next_loc s' = next_loc s.
Proof.
  unfold select_entry.
  destruct (strcmp_eq (d_name entry) "." || strcmp_eq (d_name entry) "..").
  { intros H. injection H as _ <-. auto. }
  destruct (negb (d_type entry =? DT_UNKNOWN) && negb (d_type entry =? DT_DIR)).
  { intros H. injection H as _ <-. auto. }
  run_monad. destruct (d_type entry =? DT_UNKNOWN).
  - match goal with
    | |- context [stat ?p ?w] => destruct (stat p w) as [[[r e] st_mode] w1]
    end.
    destruct (negb (r =? 0)); [|destruct (negb (S_ISDIR st_mode))];
      intros H; injection H as _ <-; auto.
  - intros H. injection H as _ <-. auto.
Qed.

Lemma walk_entries_grows
    (walk : nat -> option loc -> bool -> array string -> M World Z)
    (fuel path_len : nat) (id : Z) (recursive : bool) (mounts : array string) :
  (forall l p rc m (s s' : state World) r,
      consistent s -> walk l p rc m s = Ret r s' -> kept r -> grows s s') ->
  (forall l p rc m, keeps stays_consistent (walk l p rc m)) ->
  forall entries (s s' : state World) r,
    consistent s ->
    walk_entries walk fuel path_len id recursive mounts entries s = Ret r s' ->
    kept r -> grows s s' /\ r = id.
Proof.
  intros Hwalk Hsafe. induction entries as [|entry rest IH]; intros s s' r Hc.
  - cbn [walk_entries]. intros H _. injection H as <- <-. split; [apply grows_refl|reflexivity].
  - cbn [walk_entries]. intros H Hk. bind_inv H.
    destruct (select_entry_grows _ _ _ _ _ Hrun) as (Ht & Hh & Hl).
    assert (Hg0 : grows s s0) by now apply grows_frame.
    assert (Hc0 : consistent s0) by now apply (consistent_frame s).
    destruct a.
    + unfold bind at 1, table_get in H. bind_inv H.
      pose proof (Hsafe (path_len + 1 + strlen (d_name entry))%nat (watches s0 !! id)
                    recursive mounts s0 Hc0) as Hc1.
      rewrite Hrun0 in Hc1. cbn [final] in Hc1.
      destruct ((a <? 0) && negb (a =? ERR_IGNORE)) eqn:Ea.
      * bind_inv H. injection H as <- <-. exfalso.
        apply andb_true_iff in Ea as [E1 E2].
        apply Z.ltb_lt in E1. apply negb_true_iff, Z.eqb_neq in E2.
        destruct Hk as [Hk | Hk]; [lia | contradiction].
      * assert (Hka : kept a).
        { apply andb_false_iff in Ea as [E | E].
          - left. now apply Z.ltb_ge.
          - right. now apply negb_false_iff, Z.eqb_eq in E. }
        destruct (IH _ _ _ Hc1 H Hk) as [Hg Hr]. split; [|exact Hr].
        apply (grows_trans _ s0); [exact Hg0|].
        apply (grows_trans _ s1); [|exact Hg].
        exact (Hwalk _ _ _ _ _ _ _ Hc0 Hrun0 Hka).
    + destruct (IH _ _ _ Hc0 H Hk) as [Hg Hr]. split; [|exact Hr].
      exact (grows_trans _ _ _ Hg0 Hg).
Qed.

Lemma walk_tree_grows (fuel : nat) :
  forall (path_len : nat) (parent : option loc) (recursive : bool) (mounts : array string)
         (s s' : state World) (r : Z),
    consistent s ->
    walk_tree fuel path_len parent recursive mounts s = Ret r s' ->
    kept r ->
    grows s s' /\ (0 <= r -> is_Some (watches s' !! r)).
Proof.
  induction fuel as [|fuel IH]; intros path_len parent recursive mounts s s' r Hc;
    [discriminate|].
  cbn [walk_tree]. unfold bind at 1, get_path.
  destruct (crosses_mount (cstr (path_buf s)) mounts).
  { intros H _. injection H as <- <-. split; [apply grows_refl | no_handle]. }
  destruct recursive; [|intros H _; now apply (add_watch_grows path_len parent)].
  unfold bind at 1, sys.
  destruct (opendir (cstr (path_buf s)) (world s)) as [[dir errno] w1].
  assert (Hg1 : grows s (set_world w1 s)) by now apply grows_frame.
  assert (Hc1 : consistent (set_world w1 s)) by now apply (consistent_frame s).
  destruct dir as [entries|].
  2:{ destruct ((errno =? EACCES) || (errno =? ENOENT) || (errno =? ENOTDIR));
        intros H _; injection H as <- <-; (split; [exact Hg1 | no_handle]). }
  intros H Hk. bind_inv H.
  destruct (add_watch_grows _ _ _ _ _ Hc1 Hrun) as [Hg2 Hin].
  pose proof (safe_add_watch path_len parent _ Hc1) as Hc2.
  rewrite Hrun in Hc2. cbn [final] in Hc2.
  destruct (Z.ltb_spec a 0) as [Hneg | Hpos].
  { injection H as <- <-. split; [|lia]. exact (grows_trans _ _ _ Hg1 Hg2). }
  unfold bind at 1, update_buf in H.
  assert (Hc3 : consistent (set_path_buf (poke path_len "/" (path_buf s0)) s0))
    by now apply (consistent_frame s0).
  destruct (walk_entries_grows (walk_tree fuel) fuel path_len a true mounts
              (fun l p rc m s s' r Hc H Hk => proj1 (IH l p rc m s s' r Hc H Hk))
              (safe_walk_tree fuel) entries _ _ _ Hc3 H Hk)
    as [Hg3 ->].
  split.
  - apply (grows_trans _ (set_world w1 s)); [exact Hg1|].
    apply (grows_trans _ s0); [exact Hg2|].
    apply (grows_trans _ (set_path_buf (poke path_len "/" (path_buf s0)) s0));
      [now apply grows_frame | exact Hg3].
  - intros _. destruct (Hin Hpos) as [n Hn].
    destruct Hg3 as (Ht & _). exists n. apply Ht. exact Hn.
Qed.

(** A walk that answers a handle or [ERR_IGNORE] has removed nothing on
    its way: every table entry and every node of the consistent state it
    started in is still there, the nodes with the same handle and parent
    and with aliases and children only appended; and a handle it answers
    has an entry in the table.  So a registration is torn down only by a
    walk that fails. *)
Theorem walk_tree_keeps_registrations (fuel path_len : nat) (parent : option loc)
    (recursive : bool) (mounts : array string) (s s' : state World) (r : Z) :
  consistent s ->
  walk_tree fuel path_len parent recursive mounts s = Ret r s' ->
  0 <= r \/ r = ERR_IGNORE ->
  grows s s' /\ (0 <= r -> is_Some (watches s' !! r)).
Proof. apply walk_tree_grows. Qed.

(** The handle [watch] answers is registered: when [watch] answers a
    handle, the table of the consistent state it leaves maps that handle to
    a live node carrying it, and nothing that was registered before was
    removed. *)
Theorem watch_answer_registered (fuel : nat) (root : string) (mounts : array string)
    (s s' : state World) (id : Z) :
  consistent s ->
  watch fuel root mounts s = Ret id s' ->
  0 <= id ->
  grows s s'
  /\ exists n nd, watches s' !! id = Some n /\ heap s' !! n = Some nd /\ wd nd = id.
Proof.
  intros Hc Hrun Hpos.
  pose proof (safe_watch fuel root mounts s Hc) as Hc'.
  rewrite Hrun in Hc'. cbn [final] in Hc'.
  unfold watch in Hrun. destruct (strip_bar root) as [recursive root'].
  bind_inv Hrun.
  assert (s0 = s) as ->.
  { destruct (String.length root'); [destruct recursive|];
      unfold ret, crash in Hrun0; congruence. }
  unfold bind at 1, sys in Hrun.
  destruct (stat root' (world s)) as [[[r errno] st_mode] w1].
  destruct (negb (r =? 0)).
  { destruct (errno =? ENOENT); [injection Hrun as <- _; no_handle|].
    destruct ((errno =? EACCES) || (errno =? ELOOP) || (errno =? ENAMETOOLONG)
              || (errno =? ENOTDIR)); injection Hrun as <- _; no_handle. }
  destruct (negb (S_ISREG st_mode) && negb (S_ISDIR st_mode));
    [injection Hrun as <- _; no_handle|].
  unfold bind at 1 2, update_buf in Hrun.
  match type of Hrun with
  | walk_tree _ _ _ _ _ ?s1 = _ =>
      destruct (walk_tree_grows _ _ _ _ _ s1 _ _
                  ltac:(apply (consistent_frame s); [reflexivity.. | exact Hc])
                  Hrun (or_introl Hpos)) as [Hg Hin]
  end.
  split.
  - refine (grows_trans _ _ _ _ Hg). now apply grows_frame.
  - destruct (Hin Hpos) as [n Hn]. destruct Hc' as [Ht _].
    destruct (Ht _ _ Hn) as (nd & Hnd & Hwd). now exists n, nd.
Qed.

End Growing.

Lemma walk_tree_keeps_registrations_witness :
  grows (final (announce (dir_event IN_CREATE "m") (mk_watch_path 2 "/r")
                  watching_growing))
        (final (walk_tree 4 4 (Some 1%nat) true None
                  (final (announce (dir_event IN_CREATE "m") (mk_watch_path 2 "/r")
                            watching_growing))))
  /\ (0 <= 2 ->
      is_Some (watches (final (walk_tree 4 4 (Some 1%nat) true None
                                 (final (announce (dir_event IN_CREATE "m")
                                           (mk_watch_path 2 "/r") watching_growing))))
                 !! 2)).
Proof.
  apply (walk_tree_keeps_registrations (K := tables_kernel) 4 4 (Some 1%nat) true None
           (final (announce (dir_event IN_CREATE "m") (mk_watch_path 2 "/r")
                     watching_growing))).
  - apply (consistent_frame watching_growing); [reflexivity..|].
    apply (table_consistent_after (K := tables_kernel) 5 [Watch "/r" None]
             (init_state growing)).
    apply init_state_consistent.
  - vm_compute. reflexivity.
  - left. discriminate.
Defined.

Lemma watch_answer_registered_witness :
  grows (init_state two_dirs) watching_r
  /\ exists n nd,
       watches watching_r !! 1 = Some n /\ heap watching_r !! n = Some nd /\ wd nd = 1.
Proof.
  apply (watch_answer_registered (K := tables_kernel) 5 "/r" None (init_state two_dirs)
           watching_r 1).
  - apply init_state_consistent.
  - vm_compute. reflexivity.
  - discriminate.
Defined.

(** ** Pruning after a deletion *)

Section Pruning.

Context {World : Type} `{K : Kernel World}.

(** For a well-formed alias the test of line 400 says that the alias is a
    prefix of the affected path. *)
Lemma matches_prefix (buf : string) (kid : watch_node) (wp : watch_path) :
  paths kid = [wp] -> well_formed wp ->
  matches buf kid = true <-> exists rest, cstr buf = (path wp ++ rest)%string.
Proof.
  intros Hp [Hclean Hlen]. unfold matches. rewrite Hp, <- Hlen.
  rewrite strncmp_eq_cstr, Hclean.
  apply strncmp_eq_prefix_clean; [apply cstr_idem | exact Hclean].
Qed.

Lemma prune_kid_first (rm : Z -> bool -> M World unit) (node : loc) (k : loc)
    (kid : watch_node) (post : list (option loc)) (s : state World) :
  heap s !! k = Some kid ->
  matches (path_buf s) kid = true ->
  forall (pre : list (option loc)) (i : nat),
    Forall (fun slot => exists k0 kid0,
              slot = Some k0 /\ heap s !! k0 = Some kid0
              /\ matches (path_buf s) kid0 = false) pre ->
    prune_kid rm node i (pre ++ Some k :: post) s
    = bind (rm (wd kid) false)
        (fun _ => bind (deref node)
           (fun nd => store node (with_kids (array_put (kids nd) (i + length pre) None) nd)))
        s.
Proof.
  intros Hk Hm. induction pre as [|slot pre IH]; intros i Hpre.
  - cbn [app prune_kid length]. rewrite Nat.add_0_r.
    unfold bind at 1, deref. rewrite Hk.
    unfold matches in Hm. destruct (paths kid) as [|wp [|]]; try discriminate.
    unfold bind at 1, get_buf. rewrite Hm. reflexivity.
  - apply Forall_cons in Hpre as [(k0 & kid0 & -> & Hk0 & Hm0) Hpre].
    cbn [app prune_kid length]. unfold bind at 1, deref. rewrite Hk0.
    replace (i + S (length pre))%nat with (S i + length pre)%nat by lia.
    unfold matches in Hm0. destruct (paths kid0) as [|wp [|]]; try (now apply IH).
    unfold bind at 1, get_buf. rewrite Hm0. now apply IH.
Qed.

(** After the deletion of a directory, the children of the node are
    examined in order and the first child whose single alias is a prefix
    of the affected path is removed with all it holds, its slot cleared;
    the children after it are not examined.  The alias need not be the
    affected path itself: the first [path_len] bytes are compared and no
    more. *)
Theorem prune_kid_removes_first_prefix (rm : Z -> bool -> M World unit) (node : loc)
    (i : nat) (pre post : list (option loc)) (k : loc) (kid : watch_node)
    (wp : watch_path) (rest : string) (s : state World) :
  Forall (fun slot => exists k0 kid0,
            slot = Some k0 /\ heap s !! k0 = Some kid0
            /\ matches (path_buf s) kid0 = false) pre ->
  heap s !! k = Some kid ->
  paths kid = [wp] ->
  well_formed wp ->
  cstr (path_buf s) = (path wp ++ rest)%string ->
  prune_kid rm node i (pre ++ Some k :: post) s
  = bind (rm (wd kid) false)
      (fun _ => bind (deref node)
         (fun nd => store node (with_kids (array_put (kids nd) (i + length pre) None) nd)))
      s.
Proof.
  intros Hpre Hk Hp Hwf Hrest.
  apply (prune_kid_first rm node k kid post s Hk); [|exact Hpre].
  apply (matches_prefix _ _ _ Hp Hwf). now exists rest.
Qed.

End Pruning.

Lemma prune_kid_removes_first_prefix_witness :
  prune_kid (rm_watch 3) 1 0 [Some 2%nat; Some 3%nat]
            (set_path_buf "/r/ab" watching_similar)
  = bind (rm_watch 3 2 false)
      (fun _ => bind (deref 1%nat)
         (fun nd => store 1%nat (with_kids (array_put (kids nd) (0 + 0) None) nd)))
      (set_path_buf "/r/ab" watching_similar).
Proof.
  apply (prune_kid_removes_first_prefix (World := tables) (rm_watch 3) 1%nat 0%nat
           [] [Some 3%nat] 2%nat
           (mk_watch_node 2 (Some 1%nat) None [mk_watch_path 4 "/r/a"])
           (mk_watch_path 4 "/r/a") "b" (set_path_buf "/r/ab" watching_similar)).
  - constructor.
  - vm_compute. reflexivity.
  - reflexivity.
  - split; reflexivity.
  - reflexivity.
Defined.

(** ** Every alias is a path of the recorded length *)

Lemma buf_take_buf_write (n off : nat) (src b : string) :
  (n <= off)%nat -> buf_take n (buf_write off src b) = buf_take n b.
Proof.
  revert n b. induction off as [|off IH]; intros n b Hn.
  - assert (n = 0%nat) as -> by lia. reflexivity.
  - destruct n as [|n]; [reflexivity|].
    destruct b as [|c b]; cbn [buf_write buf_take]; rewrite IH by lia; reflexivity.
Qed.

Lemma buf_take_le (m n : nat) (b b' : string) :
  (m <= n)%nat -> buf_take n b = buf_take n b' -> buf_take m b = buf_take m b'.
Proof.
  revert n b b'. induction m as [|m IH]; intros n b b' Hm H; [reflexivity|].
  destruct n as [|n]; [lia|].
  destruct b as [|c b], b' as [|c' b']; cbn [buf_take] in *;
    f_equal; try congruence; try (apply (IH n); [lia | congruence]).
Qed.

(** A clean start of a buffer is a start of the buffer itself. *)
Lemma buf_take_clean (n : nat) (b q : string) :
  buf_take n b = q -> cstr q = q -> exists r, b = (q ++ r)%string.
Proof.
  revert b q. induction n as [|n IH]; intros b q Hq Hclean.
  - cbn in Hq. subst q. now exists b.
  - destruct b as [|c b]; cbn [buf_take] in Hq; subst q.
    + cbn in Hclean. discriminate.
    + pose proof (cstr_tail _ _ _ Hclean) as Ht.
      assert (Hc : cstr (buf_take n b) = buf_take n b).
      { cbn in Hclean. destruct (Ascii.eqb c NUL); [discriminate|].
        now injection Hclean. }
      destruct (IH b _ eq_refl Hc) as [r Hr].
      exists r. rewrite append_cons. now f_equal.
Qed.

Lemma new_watch_path_well_formed (b : string) :
  well_formed (new_watch_path (strlen b) b).
Proof.
  unfold well_formed, new_watch_path. cbn [path path_len].
  rewrite buf_take_cstr, cstr_app_nul, !cstr_idem. now split.
Qed.

(** The separator written at the end of the path. *)
Lemma buf_take_separator (b : string) :
  buf_take (strlen b + 1) (poke (strlen b) "/" b) = (cstr b ++ String "/" EmptyString)%string.
Proof.
  unfold poke. destruct (buf_write_end b (String "/" EmptyString)) as [r ->].
  rewrite <- append_assoc.
  replace (strlen b + 1)%nat with (String.length (cstr b ++ String "/" EmptyString)).
  - apply buf_take_app.
  - rewrite append_length. reflexivity.
Qed.

(** The name of an entry copied after the separator. *)
Lemma cstr_entry_path (p name b : string) :
  cstr p = p ->
  buf_take (String.length p + 1) b = (p ++ String "/" EmptyString)%string ->
  cstr (memcpy (String.length p + 1) name (strlen name + 1) b)
  = (p ++ String "/" (cstr name))%string.
Proof.
  intros Hp Hb.
  assert (Hq : cstr (p ++ String "/" EmptyString) = (p ++ String "/" EmptyString)%string).
  { now apply cstr_clean_app. }
  destruct (buf_take_clean _ _ _ Hb Hq) as [r ->].
  unfold memcpy. rewrite buf_take_cstr.
  replace (String.length p + 1)%nat with (String.length (p ++ String "/" EmptyString))
    by (rewrite append_length; reflexivity).
  rewrite buf_write_app.
  destruct (overwrite_exists (cstr name ++ String NUL EmptyString) r) as [r' ->].
  rewrite !append_assoc. rewrite cstr_app by exact Hp.
  change (String "/" EmptyString ++ cstr name ++ String NUL EmptyString ++ r')%string
    with (String "/" (cstr name ++ String NUL r')).
  change (cstr (String "/" (cstr name ++ String NUL r')))
    with (String "/" (cstr (cstr name ++ String NUL r'))).
  now rewrite cstr_app_nul, cstr_idem.
Qed.

Section Aliases.

Context {World : Type} `{K : Kernel World}.

Local Abbreviation wf := (@stays_well_formed World).

Lemma wf_frame (s s' : state World) : heap s' = heap s -> wf s s'.
Proof. unfold stays_well_formed, aliases_well_formed. now intros ->. Qed.

Lemma wf_refl (s : state World) : wf s s.
Proof. now apply wf_frame. Qed.

Lemma wf_trans (s1 s2 s3 : state World) : wf s1 s2 -> wf s2 s3 -> wf s1 s3.
Proof. unfold stays_well_formed. auto. Qed.

Lemma wf_shrinks (s s' : state World) : shrinks s s' -> wf s s'.
Proof.
  intros (_ & Hh & _) Hw n nd' Hn.
  destruct (Hh _ _ Hn) as (nd & Hnd & _ & _ & Hp & _).
  rewrite Hp. exact (Hw _ _ Hnd).
Qed.

Lemma wf_store (p : loc) (nd : watch_node) (s : state World) :
  aliases_well_formed s -> Forall well_formed (paths nd) ->
  aliases_well_formed (set_heap (<[p := nd]> (heap s)) s).
Proof.
  intros Hw Hnd n x. proj_simpl. destruct (decide (p = n)) as [<- | Hne].
  - rewrite lookup_insert_eq. now intros [= <-].
  - rewrite lookup_insert_ne by exact Hne. apply Hw.
Qed.

Lemma wf_ret {A} (a : A) : keeps wf (ret a).
Proof. intros s. apply wf_refl. Qed.
Lemma wf_crash {A} (f : fault) : keeps wf (@crash World A f).
Proof. intros s. apply wf_refl. Qed.
Lemma wf_bind {A B} (m : M World A) (k : A -> M World B) :
  keeps wf m -> (forall a, keeps wf (k a)) -> keeps wf (bind m k).
Proof.
  intros Hm Hk s. specialize (Hm s). unfold bind.
  destruct (m s) as [a s1|f s1]; cbn [final] in *; [|exact Hm].
  exact (wf_trans _ _ _ Hm (Hk a s1)).
Qed.
Lemma wf_sys {A} (call : World -> A * World) : keeps wf (sys call).
Proof. intros s. unfold sys. destruct (call (world s)). now apply wf_frame. Qed.
Lemma wf_get_path : keeps wf (@get_path World).
Proof. intros s. apply wf_refl. Qed.
Lemma wf_get_buf : keeps wf (@get_buf World).
Proof. intros s. apply wf_refl. Qed.
Lemma wf_update_buf f : keeps wf (@update_buf World f).
Proof. intros s. now apply wf_frame. Qed.
Lemma wf_table_get key : keeps wf (@table_get World key).
Proof. intros s. apply wf_refl. Qed.
Lemma wf_deref p : keeps wf (@deref World p).
Proof. intros s. unfold deref. destruct (heap s !! p); apply wf_refl. Qed.
Lemma wf_invoke_callback mask : keeps wf (@invoke_callback World mask).
Proof.
  intros s. unfold invoke_callback. destruct (callback s); [now apply wf_frame|].
  apply wf_refl.
Qed.
Lemma wf_rm_watch fuel wd' update_parent :
  keeps wf (@rm_watch World K fuel wd' update_parent).
Proof. intros s. apply wf_shrinks, keeps_shrinks_rm_watch. Qed.
Lemma wf_update_kids (p : loc) (f : watch_node -> array (option loc)) :
  keeps wf (bind (deref p) (fun nd => store p (with_kids (f nd) nd))).
Proof.
  intros s. unfold bind, deref, store. destruct (heap s !! p) as [nd|] eqn:Hp;
    [|apply wf_refl].
  intros Hw. cbn [final]. apply wf_store; [exact Hw|].
  destruct nd. exact (Hw _ _ Hp).
Qed.

#[local] Hint Resolve wf_ret wf_crash wf_sys wf_get_path wf_get_buf wf_update_buf
  wf_table_get wf_deref wf_invoke_callback wf_rm_watch wf_update_kids wf_bind : aliases.
#[local] Hint Extern 2 (keeps _ (if ?b then _ else _)) => destruct b : aliases.
#[local] Hint Extern 2 (keeps _ (match ?x with _ => _ end)) => destruct x : aliases.

Lemma wf_prune_kid (rm : Z -> bool -> M World unit) :
  (forall w b, keeps wf (rm w b)) ->
  forall slots node i, keeps wf (prune_kid rm node i slots).
Proof.
  intros Hrm. induction slots as [|slot rest IH]; intros node i; cbn [prune_kid];
    auto 40 with aliases nocore.
Qed.

(** [add_watch] called with the length of the path in [path_buf]. *)
Lemma wf_add_watch (parent : option loc) (s : state World) :
  aliases_well_formed s ->
  aliases_well_formed (final (add_watch (strlen (path_buf s)) parent s))
  /\ path_buf (final (add_watch (strlen (path_buf s)) parent s)) = path_buf s.
Proof.
  intros Hw.
  remember (add_watch (strlen (path_buf s)) parent s) as o eqn:Ho.
  unfold add_watch in Ho. unfold bind at 1 2, get_path, sys in Ho.
  destruct (inotify_add_watch (cstr (path_buf s)) EVENT_MASK (world s))
    as [[wd' errno] w1].
  destruct (wd' <? 0).
  { destruct ((errno =? EACCES) || (errno =? ENOENT)); [subst o; now split|].
    destruct (errno =? ENOSPC); [|subst o; now split].
    unfold watch_limit_reached in Ho. run_monad.
    destruct (negb (limit_reached s)); subst o; now split. }
  unfold bind at 1, table_get in Ho. proj_simpl.
  destruct (watches s !! wd') as [n|].
  - unfold bind at 1, deref in Ho. proj_simpl.
    destruct (heap s !! n) as [nd|] eqn:Hnd; [|subst o; now split].
    destruct (negb (wd nd =? wd')); [subst o; now split|].
    unfold bind at 1, sys in Ho. proj_simpl.
    destruct (realpath (cstr (path_buf s)) w1) as [np w2].
    unfold bind at 1 in Ho.
    destruct (find_intersection_returns (cstr (path_buf s)) np (paths nd)
                (set_world w2 (set_world w1 s))) as (found & s1 & Hfind & _ & Hs).
    rewrite Hfind in Ho.
    assert (Hsame : heap s1 = heap s /\ path_buf s1 = path_buf s).
    { split; [apply (f_equal heap) in Hs | apply (f_equal path_buf) in Hs]; exact Hs. }
    destruct Hsame as [Hh Hb].
    assert (Hw1 : aliases_well_formed s1) by now apply (wf_frame s).
    destruct found as [code|]; [subst o; now split|].
    run_monad. subst o. proj_simpl. split; [|exact Hb].
    apply wf_store; [exact Hw1|]. destruct nd as [w p k ps]. cbn [with_paths paths].
    apply Forall_app. split; [exact (Hw _ _ Hnd)|].
    apply Forall_singleton. rewrite Hb. apply new_watch_path_well_formed.
  - unfold bind at 1, get_buf in Ho. unfold bind at 1, malloc in Ho. proj_simpl.
    set (nd := mk_watch_node wd' parent None [new_watch_path (strlen (path_buf s))
                                                             (path_buf s)]) in *.
    set (s2 := set_next_loc (S (next_loc s)) (set_heap (<[next_loc s := nd]> (heap s))
                                                       (set_world w1 s))) in *.
    assert (Hw2 : aliases_well_formed s2).
    { apply (wf_frame (set_heap (<[next_loc s := nd]> (heap s)) s)); [reflexivity|].
      apply wf_store; [exact Hw|].
      apply Forall_singleton, new_watch_path_well_formed. }
    destruct parent as [pp|].
    + unfold bind at 1 2, deref in Ho.
      destruct (heap s2 !! pp) as [par|] eqn:Hpar; [|subst o; now split].
      run_monad. subst o. proj_simpl. split; [|reflexivity].
      apply (wf_frame (set_heap (<[pp := with_kids (array_push (kids par)
                                                      (Some (next_loc s))) par]>
                                   (heap s2)) s2)); [reflexivity|].
      apply wf_store; [exact Hw2|]. destruct par. exact (Hw2 _ _ Hpar).
    + run_monad. subst o. proj_simpl. split; [|reflexivity]. now apply (wf_frame s2).
Qed.

Lemma select_entry_buffer (p : string) (entry : dirent) (s : state World) :
  cstr p = p ->
  buf_take (String.length p + 1) (path_buf s) = (p ++ String "/" EmptyString)%string ->
  heap (final (select_entry (String.length p) entry s)) = heap s
  /\ forall b s', select_entry (String.length p) entry s = Ret b s' ->
       buf_take (String.length p + 1) (path_buf s') = (p ++ String "/" EmptyString)%string
       /\ (b = true ->
           strlen (path_buf s') = (String.length p + 1 + strlen (d_name entry))%nat).
Proof.
  intros Hp Hb. unfold select_entry.
  destruct (strcmp_eq (d_name entry) "." || strcmp_eq (d_name entry) "..").
  { split; [reflexivity|]. intros b s' H. injection H as <- <-. now split. }
  destruct (negb (d_type entry =? DT_UNKNOWN) && negb (d_type entry =? DT_DIR)).
  { split; [reflexivity|]. intros b s' H. injection H as <- <-. now split. }
  assert (Hpre : buf_take (String.length p + 1)
                   (memcpy (String.length p + 1) (d_name entry)
                      (strlen (d_name entry) + 1) (path_buf s))
                 = (p ++ String "/" EmptyString)%string).
  { unfold memcpy. now rewrite buf_take_buf_write by lia. }
  assert (Hlen : strlen (memcpy (String.length p + 1) (d_name entry)
                           (strlen (d_name entry) + 1) (path_buf s))
                 = (String.length p + 1 + strlen (d_name entry))%nat).
  { unfold strlen at 1. rewrite (cstr_entry_path p _ _ Hp Hb).
    rewrite append_length. cbn [String.length]. unfold strlen. lia. }
  run_monad. destruct (d_type entry =? DT_UNKNOWN).
  - match goal with
    | |- context [stat ?q ?w] => destruct (stat q w) as [[[r e] st_mode] w1]
    end.
    destruct (negb (r =? 0)); [|destruct (negb (S_ISDIR st_mode))];
      (split; [reflexivity|]); intros b s' H; injection H as <- <-; now split.
  - split; [reflexivity|]. intros b s' H. injection H as <- <-. now split.
Qed.

(** A property of the state in which [bind m k] ends and a property of
    the state in which it returns, from the same of [m] and [k]. *)
Lemma outcome_bind {A B} (m : M World A) (k : A -> M World B) (s : state World)
    (P Q : state World -> Prop) :
  (forall f s1, m s = Crash f s1 -> P s1) ->
  (forall a s1, m s = Ret a s1 ->
     P (final (k a s1)) /\ forall r s', k a s1 = Ret r s' -> Q s') ->
  P (final (bind m k s)) /\ forall r s', bind m k s = Ret r s' -> Q s'.
Proof.
  intros Hcrash Hret. unfold bind. destruct (m s) as [a s1|f s1].
  - now apply Hret.
  - split; [now apply (Hcrash f) | intros r s' H; discriminate H].
Qed.

Lemma walk_entries_wf
    (walk : nat -> option loc -> bool -> array string -> M World Z)
    (fuel : nat) (p : string) (id : Z) (recursive : bool) (mounts : array string) :
  cstr p = p ->
  (forall parent rc m (s : state World),
      aliases_well_formed s ->
      aliases_well_formed (final (walk (strlen (path_buf s)) parent rc m s))
      /\ forall r s', walk (strlen (path_buf s)) parent rc m s = Ret r s' ->
           buf_take (strlen (path_buf s)) (path_buf s')
           = buf_take (strlen (path_buf s)) (path_buf s)) ->
  forall entries (s : state World),
    buf_take (String.length p + 1) (path_buf s) = (p ++ String "/" EmptyString)%string ->
    aliases_well_formed s ->
    aliases_well_formed
      (final (walk_entries walk fuel (String.length p) id recursive mounts entries s))
    /\ forall r s',
         walk_entries walk fuel (String.length p) id recursive mounts entries s = Ret r s' ->
         buf_take (String.length p + 1) (path_buf s') = (p ++ String "/" EmptyString)%string.
Proof.
  intros Hp Hwalk. induction entries as [|entry rest IH]; intros s Hb Hw.
  { split; [exact Hw|]. intros r s' H. injection H as _ <-. exact Hb. }
  cbn [walk_entries].
  destruct (select_entry_buffer p entry s Hp Hb) as [Hh Hsel].
  apply outcome_bind.
  { intros f s0 E. rewrite E in Hh. now apply (wf_frame s). }
  intros descend s0 E. rewrite E in Hh. cbn [final] in Hh.
  destruct (Hsel _ _ E) as [Hb0 Hlen].
  assert (Hw0 : aliases_well_formed s0) by now apply (wf_frame s).
  destruct descend; [|now apply IH].
  specialize (Hlen eq_refl).
  apply outcome_bind; [intros f s1 E1; discriminate E1|].
  intros node s1 E1. unfold table_get in E1. injection E1 as <- <-.
  rewrite <- Hlen.
  destruct (Hwalk (watches s0 !! id) recursive mounts s0 Hw0) as [Hw1 Hbuf].
  apply outcome_bind; [intros f s1 E1; now rewrite E1 in Hw1|].
  intros subdir_id s1 E1. rewrite E1 in Hw1. cbn [final] in Hw1.
  specialize (Hbuf _ _ E1).
  assert (Hb1 : buf_take (String.length p + 1) (path_buf s1)
                = (p ++ String "/" EmptyString)%string).
  { rewrite <- Hb0. apply (buf_take_le _ (strlen (path_buf s0))); [lia | exact Hbuf]. }
  destruct ((subdir_id <? 0) && negb (subdir_id =? ERR_IGNORE)); [|now apply IH].
  pose proof (keeps_shrinks_rm_watch fuel id true s1) as Hsh.
  apply outcome_bind.
  - intros f s2 E2. rewrite E2 in Hsh. now apply (wf_shrinks s1).
  - intros u s2 E2. rewrite E2 in Hsh. cbn [final] in Hsh.
    split; [now apply (wf_shrinks s1)|].
    intros r s' H. injection H as _ <-.
    destruct Hsh as (_ & _ & _ & Hpb & _). now rewrite Hpb.
Qed.

Lemma walk_tree_wf (fuel : nat) :
  forall (parent : option loc) (recursive : bool) (mounts : array string)
         (s : state World),
    aliases_well_formed s ->
    aliases_well_formed
      (final (walk_tree fuel (strlen (path_buf s)) parent recursive mounts s))
    /\ forall r s',
         walk_tree fuel (strlen (path_buf s)) parent recursive mounts s = Ret r s' ->
         buf_take (strlen (path_buf s)) (path_buf s')
         = buf_take (strlen (path_buf s)) (path_buf s).
Proof.
  induction fuel as [|fuel IH]; intros parent recursive mounts s Hw;
    [split; [exact Hw | intros r s' H; discriminate H]|].
  cbn [walk_tree].
  apply outcome_bind; [intros f s1 E; discriminate E|].
  intros p s0 E. unfold get_path in E. injection E as <- <-.
  destruct (crosses_mount (cstr (path_buf s)) mounts).
  { split; [exact Hw|]. intros r s' H. now injection H as _ <-. }
  destruct recursive.
  2:{ destruct (wf_add_watch parent s Hw) as [Hw1 Hb1]. split; [exact Hw1|].
      intros r s' H. rewrite H in Hb1. cbn [final] in Hb1. now rewrite Hb1. }
  apply outcome_bind.
  { intros f s1 E. unfold sys in E. now destruct (opendir _ _). }
  intros [dir errno] s1 E. unfold sys in E.
  destruct (opendir (cstr (path_buf s)) (world s)) as [[dir' errno'] w1].
  injection E as -> -> <-.
  destruct dir as [entries|].
  2:{ destruct ((errno =? EACCES) || (errno =? ENOENT) || (errno =? ENOTDIR));
        (split; [now apply (wf_frame s) | intros r s' H; now injection H as _ <-]). }
  destruct (wf_add_watch parent (set_world w1 s) ltac:(now apply (wf_frame s)))
    as [Hw1 Hb1].
  proj_simpl.
  apply outcome_bind; [intros f s1 E; now rewrite E in Hw1|].
  intros id s1 E. rewrite E in Hw1, Hb1. cbn [final] in Hw1, Hb1.
  destruct (id <? 0).
  { split; [exact Hw1|]. intros r s' H. injection H as _ <-. now rewrite Hb1. }
  apply outcome_bind; [intros f s2 E2; discriminate E2|].
  intros u s2 E2. unfold update_buf in E2. injection E2 as _ <-.
  assert (Hsep : buf_take (String.length (cstr (path_buf s)) + 1)
                   (path_buf (set_path_buf (poke (strlen (path_buf s)) "/" (path_buf s1))
                                           s1))
                 = (cstr (path_buf s) ++ String "/" EmptyString)%string).
  { proj_simpl. rewrite Hb1. apply buf_take_separator. }
  destruct (walk_entries_wf (walk_tree fuel) fuel (cstr (path_buf s)) id true mounts
              (cstr_idem _) IH entries _ Hsep
              ltac:(now apply (wf_frame s1))) as [Hw2 Hb2].
  split; [exact Hw2|].
  intros r s' H. specialize (Hb2 _ _ H).
  rewrite <- Hsep in Hb2. proj_simpl.
  apply (buf_take_le (strlen (path_buf s))) in Hb2; [|unfold strlen; lia].
  rewrite Hb2, Hb1. unfold poke. now apply buf_take_buf_write.
Qed.

#[local] Hint Resolve wf_prune_kid : aliases.

Lemma wf_each_alias (fuel : nat) (event : inotify_event) (is_dir : bool) (node : loc) :
  forall i, keeps wf (each_alias fuel event is_dir node i).
Proof.
  induction fuel as [|fuel IH]; intros i s Hw; [exact Hw|].
  cbn [each_alias]. unfold bind at 1, deref.
  destruct (heap s !! node) as [nd|] eqn:Hnd; [|exact Hw].
  destruct (paths nd !! i) as [wp|] eqn:Ewp; [|exact Hw].
  assert (Hwp : well_formed wp).
  { pose proof (Hw _ _ Hnd) as Hall. rewrite Forall_forall in Hall. apply Hall.
    eapply list_elem_of_lookup_2. exact Ewp. }
  destruct (announce_runs event wp s Hwp) as (s1 & Hann & Hpath & _ & Hreg).
  rewrite (bind_Ret _ _ _ _ _ Hann).
  assert (Hw1 : aliases_well_formed s1).
  { destruct Hreg as (_ & _ & Hh & _). now apply (wf_frame s). }
  assert (Hlen : String.length (event_path event wp) = strlen (path_buf s1))
    by (unfold strlen; now rewrite Hpath).
  rewrite Hlen.
  assert (Hrest : forall s2, aliases_well_formed s2 ->
            aliases_well_formed
              (final (bind (if deletes_dir is_dir (ev_mask event)
                            then bind (deref node) (fun nd0 =>
                                   prune_kid (rm_watch fuel) node 0
                                     (array_elems (kids nd0)))
                            else ret tt)
                        (fun _ => each_alias fuel event is_dir node (S i)) s2))).
  { intros s2. apply wf_bind; [|intros; apply IH].
    destruct (deletes_dir is_dir (ev_mask event)); auto 40 with aliases nocore. }
  unfold bind at 1.
  destruct (creates_dir is_dir (ev_mask event)).
  - destruct (walk_tree_wf fuel (Some node) true None s1 Hw1) as [Hw2 _].
    unfold bind at 1.
    destruct (walk_tree fuel (strlen (path_buf s1)) (Some node) true None s1)
      as [result s2|f s2]; cbn [final] in Hw2; [|exact Hw2].
    unfold ret at 1. destruct (fatal result); [exact Hw2 | now apply Hrest].
  - unfold ret at 1. now apply Hrest.
Qed.

Lemma wf_process_events (fuel : nat) (events : list inotify_event) :
  keeps wf (@process_events World K fuel events).
Proof.
  pose proof (wf_each_alias fuel) as Hea.
  induction events as [|event rest IH]; cbn [process_events]; unfold process_inotify_event;
    auto 40 with aliases nocore.
Qed.

Lemma wf_process_inotify_input (fuel : nat) :
  keeps wf (@process_inotify_input World K fuel).
Proof.
  pose proof (wf_process_events fuel) as Hpe.
  unfold process_inotify_input. auto 40 with aliases nocore.
Qed.

Lemma wf_watch (fuel : nat) (root : string) (mounts : array string) :
  keeps wf (@watch World K fuel root mounts).
Proof.
  intros s Hw. unfold watch.
  pose proof (strip_bar_clean root) as Hclean.
  destruct (strip_bar root) as [recursive root']. cbn [snd] in Hclean.
  unfold bind at 1.
  destruct (match String.length root' with
            | O => if recursive then crash OutOfBounds else ret "|"%char
            | S i => ret (match String.get i root' with Some c => c | None => NUL end)
            end s) as [last s0|f s0] eqn:Elast.
  2:{ assert (s0 = s) as ->; [|exact Hw].
      destruct (String.length root'); [destruct recursive|]; unfold ret, crash in Elast;
        congruence. }
  assert (s0 = s) as ->.
  { destruct (String.length root'); [destruct recursive|]; unfold ret, crash in Elast;
      congruence. }
  assert (Hlen : (if Ascii.eqb last "/" then (String.length root' - 1)%nat
                  else String.length root') = root_len root').
  { unfold root_len. destruct (String.length root') as [|i].
    - destruct recursive; unfold ret, crash in Elast; [discriminate|].
      injection Elast as <-. reflexivity.
    - unfold ret in Elast. injection Elast as <-.
      destruct (String.get i root') as [c|]; cbn.
      + destruct (Ascii.eqb c "/"); [lia | reflexivity].
      + reflexivity. }
  rewrite Hlen. unfold bind at 1, sys.
  destruct (stat root' (world s)) as [[[r errno] st_mode] w1].
  destruct (negb (r =? 0)).
  { destruct (errno =? ENOENT); [now apply (wf_frame s)|].
    destruct ((errno =? EACCES) || (errno =? ELOOP) || (errno =? ENAMETOOLONG)
              || (errno =? ENOTDIR)); now apply (wf_frame s). }
  destruct (negb (S_ISREG st_mode) && negb (S_ISDIR st_mode)); [now apply (wf_frame s)|].
  unfold bind at 1 2, update_buf. proj_simpl.
  set (b := poke (root_len root') NUL (memcpy 0 root' (root_len root') (path_buf s))).
  assert (Hb : strlen b = root_len root').
  { unfold strlen, b. rewrite cstr_copy_terminated.
    rewrite cstr_prefix_clean; [apply buf_take_length | exact Hclean | apply root_len_le]. }
  rewrite <- Hb.
  apply (walk_tree_wf fuel None _ mounts (set_path_buf b (set_world w1 s))).
  now apply (wf_frame s).
Qed.

Lemma wf_run_command (fuel : nat) (c : command) (s : state World) :
  wf s (final (run_command fuel c s)).
Proof.
  destruct c as [root mounts|id|]; cbn [run_command].
  - apply (wf_bind (watch fuel root mounts) (fun _ => ret tt));
      [apply wf_watch | intros; apply wf_ret].
  - apply wf_rm_watch.
  - apply (wf_bind (process_inotify_input fuel) (fun _ => ret tt));
      [apply wf_process_inotify_input | intros; apply wf_ret].
Qed.

Lemma aliases_well_formed_after (fuel : nat) (cs : list command) (s : state World) :
  aliases_well_formed s -> aliases_well_formed (run fuel cs s).
Proof.
  revert s. induction cs as [|c rest IH]; intros s Hw; cbn [run]; [exact Hw|].
  pose proof (wf_run_command fuel c s Hw) as H.
  destruct (run_command fuel c s) as [u s'|f s']; cbn [final] in H; [|exact H].
  now apply IH.
Qed.

Lemma init_state_well_formed (w : World) : aliases_well_formed (init_state w).
Proof. intros n nd H. cbn in H. now rewrite lookup_empty in H. Qed.

(** Whatever the daemon asks for, every alias stored in a node is the path
    that was in [path_buf] when it was registered: a C string without an
    inner NUL whose recorded [path_len] is its length.  The lengths that
    [watch], the loop of [walk_tree] and the event processor compute by
    hand and pass to [walk_tree] and [add_watch] always agree with the
    string in [path_buf]. *)
Theorem aliases_stay_well_formed (fuel : nat) (cs : list command) (w : World)
    (n : loc) (nd : watch_node) (wp : watch_path) :
  heap (run fuel cs (init_state w)) !! n = Some nd ->
  wp ∈ paths nd ->
  cstr (path wp) = path wp /\ String.length (path wp) = path_len wp.
Proof.
  intros Hn Hwp.
  pose proof (aliases_well_formed_after fuel cs (init_state w)
                (init_state_well_formed w) n nd Hn) as Hall.
  rewrite Forall_forall in Hall. exact (Hall wp Hwp).
Qed.

End Aliases.

Lemma aliases_stay_well_formed_witness :
  cstr (path (mk_watch_path 4 "/r/a")) = path (mk_watch_path 4 "/r/a")
  /\ String.length (path (mk_watch_path 4 "/r/a")) = path_len (mk_watch_path 4 "/r/a").
Proof.
  apply (aliases_stay_well_formed (K := tables_kernel) 5 [Watch "/r" None] two_dirs 2%nat
           (mk_watch_node 2 (Some 1%nat) None [mk_watch_path 4 "/r/a"])).
  - vm_compute. reflexivity.
  - apply list_elem_of_here.
Defined.

(** ** Relations kept by every operation *)

Section Kept.

Context {World : Type} `{K : Kernel World}.

Variable R : state World -> state World -> Prop.

Hypothesis R_refl : forall s, R s s.
Hypothesis R_trans : forall s1 s2 s3, R s1 s2 -> R s2 s3 -> R s1 s3.
Hypothesis R_world : forall w s, R s (set_world w s).
Hypothesis R_path_buf : forall b s, R s (set_path_buf b s).
Hypothesis R_watches : forall t s, R s (set_watches t s).
Hypothesis R_heap : forall h s, R s (set_heap h s).
Hypothesis R_next_loc : forall n s, R s (set_next_loc n s).
Hypothesis R_limit : forall s, R s (final (watch_limit_reached s)).
Hypothesis R_callback : forall mask s, R s (final (invoke_callback mask s)).

Lemma kept_ret {A} (a : A) : keeps R (ret a).
Proof. intros s. apply R_refl. Qed.
Lemma kept_crash {A} (f : fault) : keeps R (@crash World A f).
Proof. intros s. apply R_refl. Qed.
Lemma kept_bind {A B} (m : M World A) (k : A -> M World B) :
  keeps R m -> (forall a, keeps R (k a)) -> keeps R (bind m k).
Proof.
  intros Hm Hk s. specialize (Hm s). unfold bind.
  destruct (m s) as [a s1|f s1]; cbn [final] in *; [|exact Hm].
  exact (R_trans _ _ _ Hm (Hk a s1)).
Qed.
Lemma kept_sys {A} (call : World -> A * World) : keeps R (sys call).
Proof. intros s. unfold sys. destruct (call (world s)). apply R_world. Qed.
Lemma kept_get_path : keeps R (@get_path World).
Proof. intros s. apply R_refl. Qed.
Lemma kept_get_buf : keeps R (@get_buf World).
Proof. intros s. apply R_refl. Qed.
Lemma kept_update_buf f : keeps R (@update_buf World f).
Proof. intros s. apply R_path_buf. Qed.
Lemma kept_table_get key : keeps R (@table_get World key).
Proof. intros s. apply R_refl. Qed.
Lemma kept_table_put key v : keeps R (@table_put World key v).
Proof. intros s. unfold table_put. destruct v; apply R_watches. Qed.
Lemma kept_deref p : keeps R (@deref World p).
Proof. intros s. unfold deref. destruct (heap s !! p); apply R_refl. Qed.
Lemma kept_store p n : keeps R (@store World p n).
Proof. intros s. apply R_heap. Qed.
Lemma kept_malloc n : keeps R (@malloc World n).
Proof.
  intros s. unfold malloc. cbn [final].
  eapply R_trans; [apply R_heap | apply R_next_loc].
Qed.
Lemma kept_free p : keeps R (@free World p).
Proof. intros s. apply R_heap. Qed.
Lemma kept_invoke_callback mask : keeps R (@invoke_callback World mask).
Proof. intros s. apply R_callback. Qed.
Lemma kept_watch_limit_reached : keeps R (@watch_limit_reached World).
Proof. intros s. apply R_limit. Qed.

#[local] Hint Resolve kept_ret kept_crash kept_sys kept_get_path kept_get_buf
  kept_update_buf kept_table_get kept_table_put kept_deref kept_store kept_malloc
  kept_free kept_invoke_callback kept_watch_limit_reached kept_bind : kept.
#[local] Hint Extern 2 (keeps _ (if ?b then _ else _)) => destruct b : kept.
#[local] Hint Extern 2 (keeps _ (match ?x with _ => _ end)) => destruct x : kept.

Lemma kept_find_intersection p np aliases :
  keeps R (@find_intersection World K p np aliases).
Proof.
  induction aliases as [|wp rest IH]; cbn [find_intersection]; auto 40 with kept nocore.
Qed.
#[local] Hint Resolve kept_find_intersection : kept.

Lemma kept_add_watch path_len parent : keeps R (@add_watch World K path_len parent).
Proof. unfold add_watch. auto 40 with kept nocore. Qed.
#[local] Hint Resolve kept_add_watch : kept.

Lemma kept_rm_kids (rm : Z -> bool -> M World unit) :
  (forall w b, keeps R (rm w b)) ->
  forall count n i, keeps R (rm_kids rm n i count).
Proof.
  intros Hrm. induction count as [|count IH]; intros n i; cbn [rm_kids];
    auto 40 with kept nocore.
Qed.
#[local] Hint Resolve kept_rm_kids : kept.

Lemma kept_rm_watch fuel wd' update_parent :
  keeps R (@rm_watch World K fuel wd' update_parent).
Proof.
  revert wd' update_parent. induction fuel as [|fuel IH]; intros wd' update_parent;
    cbn [rm_watch]; auto 40 with kept nocore.
Qed.
#[local] Hint Resolve kept_rm_watch : kept.

Lemma kept_select_entry path_len entry :
  keeps R (@select_entry World K path_len entry).
Proof. unfold select_entry. auto 40 with kept nocore. Qed.
#[local] Hint Resolve kept_select_entry : kept.

Lemma kept_walk_entries (walk : nat -> option loc -> bool -> array string -> M World Z)
    fuel path_len id recursive mounts :
  (forall l p r m, keeps R (walk l p r m)) ->
  forall entries, keeps R (walk_entries walk fuel path_len id recursive mounts entries).
Proof.
  intros Hwalk.
  induction entries as [|entry rest IH]; cbn [walk_entries]; auto 40 with kept nocore.
Qed.
#[local] Hint Resolve kept_walk_entries : kept.

Lemma kept_walk_tree fuel path_len parent recursive mounts :
  keeps R (@walk_tree World K fuel path_len parent recursive mounts).
Proof.
  revert path_len parent recursive mounts.
  induction fuel as [|fuel IH]; intros path_len parent recursive mounts;
    cbn [walk_tree]; auto 40 with kept nocore.
Qed.
#[local] Hint Resolve kept_walk_tree : kept.

Lemma kept_announce event wp : keeps R (@announce World event wp).
Proof. unfold announce. auto 40 with kept nocore. Qed.
#[local] Hint Resolve kept_announce : kept.

Lemma kept_prune_kid (rm : Z -> bool -> M World unit) :
  (forall w b, keeps R (rm w b)) ->
  forall slots node i, keeps R (prune_kid rm node i slots).
Proof.
  intros Hrm. induction slots as [|slot rest IH]; intros node i; cbn [prune_kid];
    auto 40 with kept nocore.
Qed.
#[local] Hint Resolve kept_prune_kid : kept.

Lemma kept_each_alias fuel event is_dir node i :
  keeps R (@each_alias World K fuel event is_dir node i).
Proof.
  revert i.
  induction fuel as [|fuel IH]; intros i; cbn [each_alias]; auto 40 with kept nocore.
Qed.
#[local] Hint Resolve kept_each_alias : kept.

Lemma kept_process_events fuel events :
  keeps R (@process_events World K fuel events).
Proof.
  induction events as [|event rest IH]; cbn [process_events]; unfold process_inotify_event;
    auto 40 with kept nocore.
Qed.
#[local] Hint Resolve kept_process_events : kept.

Lemma kept_watch fuel root mounts : keeps R (@watch World K fuel root mounts).
Proof.
  unfold watch. destruct (strip_bar root) as [recursive root']. auto 40 with kept nocore.
Qed.

Lemma kept_process_inotify_input fuel :
  keeps R (@process_inotify_input World K fuel).
Proof. unfold process_inotify_input. auto 40 with kept nocore. Qed.

Lemma kept_run (fuel : nat) (cs : list command) (s : state World) :
  R s (run fuel cs s).
Proof.
  revert s. induction cs as [|c rest IH]; intros s; cbn [run]; [apply R_refl|].
  assert (Hc : R s (final (run_command fuel c s))).
  { destruct c as [root mounts|id|]; cbn [run_command].
    - apply (kept_bind (watch fuel root mounts) (fun _ => ret tt));
        [apply kept_watch | intros; apply kept_ret].
    - apply kept_rm_watch.
    - apply (kept_bind (process_inotify_input fuel) (fun _ => ret tt));
        [apply kept_process_inotify_input | intros; apply kept_ret]. }
  destruct (run_command fuel c s) as [u s'|f s']; cbn [final] in Hc; [|exact Hc].
  exact (R_trans _ _ _ Hc (IH s')).
Qed.

End Kept.

Section Quiet.

Context {World : Type} `{K : Kernel World}.

(** Once the callback has been removed with [set_inotify_callback], the
    daemon processes events, registers and removes watches without calling
    anything: whatever it runs, no callback call is recorded and no
    callback gets installed.  And as long as one is installed, none is
    removed by these operations. *)
Theorem no_callback_no_calls (fuel : nat) (cs : list command) (s s0 : state World) :
  set_inotify_callback false s = Ret tt s0 ->
  called (run fuel cs s0) = called s /\ callback (run fuel cs s0) = false.
Proof.
  intros Hset. unfold set_inotify_callback in Hset. injection Hset as <-.
  assert (Hq : quiet (set_callback false s) (run fuel cs (set_callback false s))).
  { apply kept_run; unfold quiet.
    - now intros.
    - intros s1 s2 s3 [A1 A2] [B1 B2]. split; [congruence|].
      intros H. rewrite B2, A2; congruence.
    - now intros.
    - now intros.
    - now intros.
    - now intros.
    - now intros.
    - intros s1. unfold watch_limit_reached, message.
      now destruct (negb (limit_reached s1)).
    - intros mask s1. unfold invoke_callback.
      destruct (callback s1) eqn:E; cbn [final]; proj_simpl; [|now split].
      split; [congruence | intros H; congruence]. }
  destruct Hq as [Hcb Hcalled]. cbn [set_callback callback called] in *.
  split; [now apply Hcalled | exact Hcb].
Qed.

End Quiet.

Lemma no_callback_no_calls_witness :
  called (run 5 [Input; Input] (set_callback false watching_r)) = called watching_r
  /\ callback (run 5 [Input; Input] (set_callback false watching_r)) = false.
Proof.
  apply (no_callback_no_calls (K := tables_kernel) 5 [Input; Input] watching_r).
  reflexivity.
Defined.

(** ** Starting the process *)

Section Start.

Context {World : Type} `{B : Startup World}.

Lemma read_watch_descriptors_count_spec (p : process World) :
  watch_count (read_watch_descriptors_count p)
  = match count_read (world (core p)) with
    | Some n => n
    | None => watch_count p
    end
  /\ inotify_fd (read_watch_descriptors_count p) = inotify_fd p
  /\ table_made (read_watch_descriptors_count p) = table_made p
  /\ set_world (world (core p)) (core (read_watch_descriptors_count p)) = core p.
Proof.
  unfold read_watch_descriptors_count, count_read.
  destruct (fopen WATCH_COUNT_NAME (world (core p))) as [[f|] w1].
  - destruct (read_line f w1) as [[str|] w2]; cbn; repeat split; now destruct p as [? ? ? []].
  - cbn. repeat split. now destruct p as [? ? ? []].
Qed.

(** [init_inotify] answers true exactly when the kernel gave a descriptor,
    the watch count then held is positive and the table could be made;
    [get_inotify_fd] then answers that descriptor, the count is positive and
    the table is new and empty.  When it answers false, [get_inotify_fd]
    answers a negative number.  The host is sent the instance-limit
    notification exactly when [inotify_init] failed with [EMFILE], and
    nothing else in any case. *)
Theorem init_inotify_outcome (p p' : process World) (ok : bool) (fd e : Z) (w1 : World) :
  inotify_init (world (core p)) = (fd, e, w1) ->
  init_inotify p = (ok, p') ->
  (ok = true <-> 0 <= get_inotify_fd p')
  /\ (ok = true ->
      get_inotify_fd p' = fd /\ 0 < watch_count p' /\ table_made p' = true
      /\ watches (core p') = ∅
      /\ watch_count p' = match count_read w1 with Some n => n | None => watch_count p end)
  /\ sent (core p')
     = sent (core p) ++ (if (fd <? 0) && (e =? EMFILE) then [MSG_INSTANCE_LIMIT] else [])
  /\ heap (core p') = heap (core p) /\ callback (core p') = callback (core p)
  /\ limit_reached (core p') = limit_reached (core p).
Proof.
  intros Hinit. unfold init_inotify. rewrite Hinit.
  destruct (Z.ltb_spec fd 0) as [Hneg | Hpos].
  { destruct (e =? EMFILE); intros H; injection H as <- <-; cbn;
      rewrite ?app_nil_r; (split; [split; [discriminate | unfold get_inotify_fd; cbn; lia]|]);
      (split; [discriminate|]); repeat split. }
  pose proof (read_watch_descriptors_count_spec (with_world w1 (with_fd fd p)))
    as (Hcount & Hfd & Hmade & Hcore).
  set (p2 := read_watch_descriptors_count (with_world w1 (with_fd fd p))) in *.
  cbn in Hcount, Hfd, Hmade, Hcore.
  assert (Hsame : sent (core p2) = sent (core p) /\ heap (core p2) = heap (core p)
                  /\ callback (core p2) = callback (core p)
                  /\ limit_reached (core p2) = limit_reached (core p)).
  { repeat split;
      [apply (f_equal sent) in Hcore | apply (f_equal heap) in Hcore
       | apply (f_equal callback) in Hcore | apply (f_equal limit_reached) in Hcore];
      exact Hcore. }
  destruct Hsame as (Hs & Hh & Hc & Hl).
  destruct (Z.leb_spec (watch_count p2) 0) as [Hle | Hgt].
  { intros H. injection H as <- <-. cbn. rewrite app_nil_r.
    split; [split; [discriminate | unfold get_inotify_fd; cbn; lia]|].
    split; [discriminate|]. now repeat split. }
  destruct (table_create (watch_count p2) (world (core p2))) as [made w2].
  destruct made.
  - intros H. injection H as <- <-. cbn. rewrite app_nil_r.
    split; [split; [unfold get_inotify_fd; cbn; lia | reflexivity]|].
    split; [|now repeat split].
    intros _. unfold get_inotify_fd. cbn. repeat split; try assumption; try lia.
  - intros H. injection H as <- <-. cbn. rewrite app_nil_r.
    split; [split; [discriminate | unfold get_inotify_fd; cbn; lia]|].
    split; [discriminate|]. now repeat split.
Qed.

(** In a process whose watch count is not positive, as it is when the
    process starts, [init_inotify] fails whenever the count cannot be read
    from the count file or is read as a number that is not positive; the
    descriptor the kernel had given is then closed, [get_inotify_fd] answers
    -1, and no table is made. *)
Theorem init_inotify_needs_count (p : process World) (fd e : Z) (w1 : World) :
  inotify_init (world (core p)) = (fd, e, w1) ->
  0 <= fd ->
  watch_count p <= 0 ->
  match count_read w1 with Some n => n <= 0 | None => True end ->
  fst (init_inotify p) = false
  /\ get_inotify_fd (snd (init_inotify p)) = -1
  /\ (exists w2, world (core (snd (init_inotify p))) = close fd w2)
  /\ table_made (snd (init_inotify p)) = table_made p
  /\ watches (core (snd (init_inotify p))) = watches (core p).
Proof.
  intros Hinit Hpos Hold Hread. unfold init_inotify. rewrite Hinit.
  assert ((fd <? 0) = false) as -> by now apply Z.ltb_ge.
  pose proof (read_watch_descriptors_count_spec (with_world w1 (with_fd fd p)))
    as (Hcount & Hfd & Hmade & Hcore).
  set (p2 := read_watch_descriptors_count (with_world w1 (with_fd fd p))) in *.
  cbn in Hcount, Hfd, Hmade, Hcore.
  assert (Hle : watch_count p2 <= 0).
  { rewrite Hcount. destruct (count_read w1); [exact Hread | exact Hold]. }
  apply Z.leb_le in Hle. rewrite Hle. cbn.
  split; [reflexivity|]. split; [reflexivity|]. split; [|split].
  - rewrite Hfd. now eexists.
  - exact Hmade.
  - apply (f_equal watches) in Hcore. exact Hcore.
Qed.

End Start.

Lemma init_inotify_outcome_witness :
  (true = true <-> 0 <= get_inotify_fd (snd (init_inotify (boot (mk_startup (4, 0) (Some (Some "8192")) true [])))))
  /\ watch_count (snd (init_inotify (boot (mk_startup (4, 0) (Some (Some "8192")) true []))))
     = 8192
  /\ sent (core (snd (init_inotify (boot (mk_startup (-1, EMFILE) None true [])))))
     = [MSG_INSTANCE_LIMIT].
Proof.
  destruct (init_inotify_outcome (B := startup_world)
              (boot (mk_startup (4, 0) (Some (Some "8192")) true []))
              (snd (init_inotify (boot (mk_startup (4, 0) (Some (Some "8192")) true []))))
              true 4 0 (mk_startup (4, 0) (Some (Some "8192")) true [])
              ltac:(reflexivity) ltac:(reflexivity)) as (Hiff & Hok & _).
  destruct (init_inotify_outcome (B := startup_world)
              (boot (mk_startup (-1, EMFILE) None true []))
              (snd (init_inotify (boot (mk_startup (-1, EMFILE) None true []))))
              false (-1) EMFILE (mk_startup (-1, EMFILE) None true [])
              ltac:(reflexivity) ltac:(reflexivity)) as (_ & _ & Hsent & _).
  split; [exact Hiff|]. split; [|exact Hsent].
  destruct (Hok eq_refl) as (_ & _ & _ & _ & Hcount). exact Hcount.
Defined.

Lemma init_inotify_needs_count_witness :
  fst (init_inotify (boot (mk_startup (4, 0) (Some (Some "many")) true []))) = false
  /\ get_inotify_fd (snd (init_inotify (boot (mk_startup (4, 0) (Some (Some "many")) true []))))
     = -1
  /\ su_closed (world (core (snd (init_inotify
                                     (boot (mk_startup (4, 0) (Some (Some "many")) true []))))))
     = [4].
Proof.
  destruct (init_inotify_needs_count (B := startup_world)
              (boot (mk_startup (4, 0) (Some (Some "many")) true []))
              4 0 (mk_startup (4, 0) (Some (Some "many")) true [])
              ltac:(reflexivity) ltac:(discriminate) ltac:(reflexivity)
              ltac:(vm_compute; discriminate)) as (Hok & Hfd & _).
  split; [exact Hok|]. split; [exact Hfd|]. reflexivity.
Defined.

(** * The forest of nodes

    The nodes of the heap form a forest through [kids] and [parent].
    [rm_watch] removes a node with everything beneath it; registration
    grafts a node; every operation that returns leaves a forest. *)

(** ** Removal of a subtree *)

Lemma shape_induction (P : shape -> Prop) :
  P Hole -> (forall n ks, Forall P ks -> P (Node n ks)) -> forall t, P t.
Proof.
  intros HH HN. fix IH 1. intros [|n ks]; [exact HH|].
  apply HN. induction ks as [|t ks IHks]; constructor; [apply IH | exact IHks].
Qed.

Section Subtree.

Context {World : Type} `{K : Kernel World}.

Lemma ends_bind {A B} (enough : bool) (m : M World A) (k : A -> M World B)
    (s : state World) (Q1 Q2 : state World -> Prop) :
  ends enough (m s) Q1 ->
  (forall a s1, m s = Ret a s1 -> Q1 s1 -> ends enough (k a s1) Q2) ->
  ends enough (bind m k s) Q2.
Proof.
  unfold bind. destruct (m s) as [a s1|f s1]; cbn [ends]; [|auto].
  intros H1 Hk. now apply Hk.
Qed.

Lemma removed_world (w : World) (s : state World) : removed [] [] s (set_world w s).
Proof. repeat split. Qed.

Lemma removed_trans (L1 L2 : list loc) (W1 W2 : list Z) (s s1 s2 : state World) :
  removed L1 W1 s s1 -> removed L2 W2 s1 s2 -> removed (L1 ++ L2) (W1 ++ W2) s s2.
Proof.
  intros (A1 & A2 & A3 & A4 & A5 & A6 & A7 & A8) (B1 & B2 & B3 & B4 & B5 & B6 & B7 & B8).
  repeat split; try congruence.
  - intros x. rewrite B1, A1.
    destruct (decide (x ∈ L2)), (decide (x ∈ L1)), (decide (x ∈ L1 ++ L2)) as [H | H];
      try reflexivity; exfalso; rewrite elem_of_app in H; tauto.
  - intros w. rewrite B2, A2.
    destruct (decide (w ∈ W2)), (decide (w ∈ W1)), (decide (w ∈ W1 ++ W2)) as [H | H];
      try reflexivity; exfalso; rewrite elem_of_app in H; tauto.
Qed.

Lemma handles_app (s : state World) (l1 l2 : list loc) :
  handles s (l1 ++ l2) = handles s l1 ++ handles s l2.
Proof. apply omap_app. Qed.

Lemma handles_elem (s : state World) (l : list loc) (w : Z) :
  w ∈ handles s l <-> exists x nd, x ∈ l /\ heap s !! x = Some nd /\ wd nd = w.
Proof.
  unfold handles. rewrite list_elem_of_omap. split.
  - intros (x & Hx & Hw). destruct (heap s !! x) as [nd|] eqn:E; [|discriminate].
    cbn in Hw. injection Hw as <-. now exists x, nd.
  - intros (x & nd & Hx & Hnd & <-). exists x. now rewrite Hnd.
Qed.

Lemma handles_same (s s' : state World) (l : list loc) :
  (forall x, x ∈ l -> heap s' !! x = heap s !! x) -> handles s' l = handles s l.
Proof.
  induction l as [|x l IH]; intros H; [reflexivity|].
  unfold handles in *. cbn. rewrite (H x) by left.
  rewrite IH; [reflexivity|]. intros y Hy. apply H. now right.
Qed.

(** Every node of a subtree is live and entered under its handle. *)
Lemma holds_table (s : state World) (t : shape) :
  holds s t -> forall x, x ∈ locs t ->
  exists nd, heap s !! x = Some nd /\ watches s !! wd nd = Some x.
Proof.
  induction t as [|n ks IH] using shape_induction; intros Hh x Hx.
  - cbn in Hx. now apply elem_of_nil in Hx.
  - inversion Hh as [|n' ks' nd Hn Hw Hk Hall Hpar]; subst.
    cbn [locs] in Hx. apply elem_of_cons in Hx as [-> | Hx]; [now exists nd|].
    apply list_elem_of_In, in_flat_map in Hx as (t & Ht & Hx).
    rewrite Forall_forall in IH, Hall. apply list_elem_of_In in Ht.
    apply (IH t Ht (Hall t Ht)). now apply list_elem_of_In.
Qed.

(** A subtree is still there when its nodes and their table entries are. *)
Lemma holds_frame (s s' : state World) (t : shape) :
  holds s t ->
  (forall x, x ∈ locs t -> heap s' !! x = heap s !! x) ->
  (forall x nd, x ∈ locs t -> heap s !! x = Some nd ->
     watches s' !! wd nd = watches s !! wd nd) ->
  holds s' t.
Proof.
  induction t as [|n ks IH] using shape_induction; intros Hh Hheap Htable; [constructor|].
  inversion Hh as [|n' ks' nd Hn Hw Hk Hall Hpar]; subst.
  assert (Hin : forall t, t ∈ ks -> forall x, x ∈ locs t -> x ∈ locs (Node n ks)).
  { intros t Ht x Hx. cbn [locs]. right. apply list_elem_of_In, in_flat_map.
    exists t. split; now apply list_elem_of_In. }
  apply (holds_node s' n ks nd).
  - rewrite Hheap; [exact Hn | left].
  - rewrite (Htable n nd); [exact Hw | left | exact Hn].
  - exact Hk.
  - rewrite Forall_forall in *. intros t Ht. apply (IH t Ht (Hall t Ht)).
    + intros x Hx. apply Hheap. now apply (Hin t).
    + intros x xd Hx. apply Htable. now apply (Hin t).
  - rewrite Forall_forall in *. intros t Ht k kd Hs Hkd.
    apply (Hpar t Ht k kd Hs). rewrite <- Hheap; [exact Hkd|].
    apply (Hin t Ht). destruct t; [discriminate|]. injection Hs as ->. left.
Qed.

Lemma holds_removed (L : list loc) (W : list Z) (s s' : state World) (t : shape) :
  holds s t -> removed L W s s' ->
  (forall x, x ∈ locs t -> x ∉ L) ->
  (forall w, w ∈ handles s (locs t) -> w ∉ W) ->
  holds s' t.
Proof.
  intros Hh (Hheap & Htable & _) HL HW. apply (holds_frame s); [exact Hh | |].
  - intros x Hx. rewrite Hheap. destruct (decide (x ∈ L)); [|reflexivity].
    now exfalso; apply (HL x).
  - intros x nd Hx Hnd. rewrite Htable. destruct (decide (wd nd ∈ W)) as [Hin|]; [|reflexivity].
    exfalso. apply (HW (wd nd)); [|exact Hin]. apply handles_elem. now exists x, nd.
Qed.

(** Nodes that the table knows and that are distinct have distinct
    handles. *)
Lemma handles_disjoint (s : state World) (l1 l2 : list loc) (w : Z) :
  (forall x nd, x ∈ l1 -> heap s !! x = Some nd -> watches s !! wd nd = Some x) ->
  (forall x nd, x ∈ l2 -> heap s !! x = Some nd -> watches s !! wd nd = Some x) ->
  (forall x, x ∈ l1 -> x ∉ l2) ->
  w ∈ handles s l1 -> w ∉ handles s l2.
Proof.
  intros H1 H2 Hdis Hw Hw'.
  apply handles_elem in Hw as (x & nd & Hx & Hnd & <-).
  apply handles_elem in Hw' as (y & yd & Hy & Hyd & Heq).
  pose proof (H1 x nd Hx Hnd) as Tx. pose proof (H2 y yd Hy Hyd) as Ty.
  rewrite Heq in Ty. rewrite Tx in Ty. injection Ty as ->. now apply (Hdis y).
Qed.

Lemma holds_entered (s : state World) (t : shape) :
  holds s t ->
  forall x nd, x ∈ locs t -> heap s !! x = Some nd -> watches s !! wd nd = Some x.
Proof.
  intros Hh x nd Hx Hnd. destruct (holds_table s t Hh x Hx) as (nd' & Hnd' & Htab).
  rewrite Hnd in Hnd'. now injection Hnd' as <-.
Qed.

Lemma holds_all_entered (s : state World) (ts : list shape) :
  Forall (holds s) ts ->
  forall x nd, x ∈ flat_map locs ts -> heap s !! x = Some nd ->
               watches s !! wd nd = Some x.
Proof.
  intros Hall x nd Hx Hnd. apply list_elem_of_In, in_flat_map in Hx as (t & Ht & Hx).
  rewrite Forall_forall in Hall. apply list_elem_of_In in Ht, Hx.
  exact (holds_entered s t (Hall t Ht) x nd Hx Hnd).
Qed.

Lemma slot_lookup (pre rest : list shape) (t : shape) (a : array (option loc)) :
  array_elems a = map slot (pre ++ t :: rest) ->
  array_get a (length pre) = slot t /\ (length pre < array_size a)%nat.
Proof.
  intros H. unfold array_get, array_size. rewrite H. split.
  - rewrite list_lookup_fmap, lookup_app_r, Nat.sub_diag by lia. reflexivity.
  - rewrite length_map, length_app. cbn. lia.
Qed.

(** The loop of lines 225-230 on a node whose remaining children are intact
    subtrees without a common node. *)
Lemma rm_kids_shape (enough : bool) (rm : Z -> bool -> M World unit) (d : nat)
    (n : loc) (nd : watch_node) :
  (forall (t : shape) (s : state World) (k : loc) (kd : watch_node),
      (depth t <= d)%nat -> holds s t -> NoDup (locs t) ->
      slot t = Some k -> heap s !! k = Some kd ->
      ends enough (rm (wd kd) false s) (removed (locs t) (handles s (locs t)) s)) ->
  forall (rest pre : list shape) (s : state World),
    heap s !! n = Some nd ->
    array_elems (kids nd) = map slot (pre ++ rest) ->
    Forall (holds s) rest ->
    Forall (fun t => (depth t <= d)%nat) rest ->
    NoDup (n :: flat_map locs rest) ->
    ends enough (rm_kids rm n (length pre) (length rest) s)
         (removed (flat_map locs rest) (handles s (flat_map locs rest)) s).
Proof.
  intros Hrm. induction rest as [|t rest IH]; intros pre s Hn Hk Hall Hd Hnd.
  { cbn. repeat split. }
  cbn [length rm_kids]. unfold bind at 1, deref. rewrite Hn.
  destruct (slot_lookup pre rest t (kids nd) Hk) as [Hget Hlt].
  apply Nat.ltb_lt in Hlt. rewrite Hlt, Hget.
  apply Forall_cons in Hall as [Ht Hall]. apply Forall_cons in Hd as [Hdt Hd].
  assert (Hk' : array_elems (kids nd) = map slot ((pre ++ [t]) ++ rest))
    by now rewrite <- app_assoc.
  assert (Hlen : S (length pre) = length (pre ++ [t]))
    by (rewrite length_app; cbn; lia).
  apply NoDup_cons in Hnd as [Hn_out Hnd]. cbn [flat_map] in Hn_out, Hnd.
  apply NoDup_app in Hnd as (Hnd_t & Hdis & Hnd_rest).
  rewrite not_elem_of_app in Hn_out. destruct Hn_out as [Hn_t Hn_rest].
  destruct t as [|k ks].
  { cbn [slot]. rewrite Hlen. cbn [flat_map locs app].
    apply IH; try assumption. apply NoDup_cons. now split. }
  cbn [slot]. inversion Ht as [|k' ks' kd Hkd Hkw Hkk Hkall Hkpar]; subst.
  unfold bind at 1, deref. rewrite Hkd.
  cbn [flat_map]. rewrite handles_app.
  eapply ends_bind.
  - apply (Hrm (Node k ks) s k kd Hdt Ht Hnd_t eq_refl Hkd).
  - intros [] s1 _ Hrem. rewrite Hlen.
    assert (Hframe : forall x, x ∉ locs (Node k ks) -> heap s1 !! x = heap s !! x).
    { intros x Hx. destruct Hrem as (Hheap & _). rewrite Hheap.
      now destruct (decide (x ∈ locs (Node k ks))). }
    assert (Hall1 : Forall (holds s1) rest).
    { rewrite Forall_forall in *. intros t Hin.
      assert (Hsub : forall x, x ∈ locs t -> x ∈ flat_map locs rest).
      { intros x Hx. apply list_elem_of_In, in_flat_map. exists t.
        split; now apply list_elem_of_In. }
      apply (holds_removed _ _ s s1 t (Hall t Hin) Hrem).
      - intros x Hx Hx'. exact (Hdis x Hx' (Hsub x Hx)).
      - intros w Hw. apply (handles_disjoint s (locs t) (locs (Node k ks)));
          [apply holds_entered, Hall, Hin | now apply holds_entered | | exact Hw].
        intros x Hx Hx'. exact (Hdis x Hx' (Hsub x Hx)). }
    assert (Hsame : handles s1 (flat_map locs rest) = handles s (flat_map locs rest)).
    { apply handles_same. intros x Hx. apply Hframe. intros Hx'. exact (Hdis x Hx' Hx). }
    rewrite <- Hsame.
    assert (Hgoal : ends enough (rm_kids rm n (length (pre ++ [Node k ks])) (length rest) s1)
                      (removed (flat_map locs rest) (handles s1 (flat_map locs rest)) s1)).
    { apply IH; try assumption.
      - rewrite Hframe; [exact Hn | exact Hn_t].
      - apply NoDup_cons. now split. }
    destruct (rm_kids rm n (length (pre ++ [Node k ks])) (length rest) s1) as [u s2|f s2];
      cbn [ends] in *; [|exact Hgoal].
    exact (removed_trans _ _ _ _ _ _ _ Hrem Hgoal).
Qed.

Lemma removed_store (L : list loc) (W : list Z) (s s2 : state World) (pp : loc)
    (x : watch_node) :
  removed L W s s2 -> pp ∉ L ->
  removed L W (set_heap (<[pp := x]> (heap s)) s) (set_heap (<[pp := x]> (heap s2)) s2).
Proof.
  intros (Hheap & Htable & Hrest) Hpp. split; [|split; [exact Htable | exact Hrest]].
  intros y. proj_simpl. destruct (decide (pp = y)) as [<- | Hne].
  - rewrite !lookup_insert_eq. now destruct (decide (pp ∈ L)).
  - rewrite !lookup_insert_ne by exact Hne. apply Hheap.
Qed.

Lemma removed_finish (L : list loc) (W : list Z) (s s2 : state World) (n : loc)
    (w : Z) :
  removed L W s s2 ->
  removed (n :: L) (w :: W) s
          (set_watches (delete w (watches s2)) (set_heap (delete n (heap s2)) s2)).
Proof.
  intros (Hheap & Htable & Hrest). split; [|split; [|exact Hrest]]; proj_simpl.
  - intros x. destruct (decide (n = x)) as [<- | Hne].
    + rewrite lookup_delete_eq. destruct (decide (n ∈ n :: L)) as [|Hn]; [reflexivity|].
      exfalso. apply Hn. left.
    + rewrite lookup_delete_ne by exact Hne. rewrite Hheap.
      destruct (decide (x ∈ L)), (decide (x ∈ n :: L)) as [H | H]; try reflexivity;
        exfalso; rewrite elem_of_cons in H; intuition congruence.
  - intros x. destruct (decide (w = x)) as [<- | Hne].
    + rewrite lookup_delete_eq. destruct (decide (w ∈ w :: W)) as [|Hn]; [reflexivity|].
      exfalso. apply Hn. left.
    + rewrite lookup_delete_ne by exact Hne. rewrite Htable.
      destruct (decide (x ∈ W)), (decide (x ∈ w :: W)) as [H | H]; try reflexivity;
        exfalso; rewrite elem_of_cons in H; intuition congruence.
Qed.

Lemma depth_kids (n : loc) (ks : list shape) (d : nat) :
  (depth (Node n ks) <= S d)%nat -> Forall (fun t => (depth t <= d)%nat) ks.
Proof.
  cbn [depth]. intros H. apply le_S_n in H.
  induction ks as [|t ks IH]; constructor; cbn in H; [lia | apply IH; lia].
Qed.

(** [rm_watch] on the root of an intact subtree: it ends without a pointer
    fault; when it returns, exactly the nodes of the subtree and their
    table entries are gone, after the slot of the root in its parent was
    cleared if that was asked for; it returns when the fuel covers the
    depth of the subtree. *)
Lemma rm_watch_shape (d : nat) :
  forall (fuel : nat) (t : shape) (s : state World) (up : bool) (n : loc)
         (nd : watch_node),
    (depth t <= d)%nat -> holds s t -> NoDup (locs t) ->
    slot t = Some n -> heap s !! n = Some nd ->
    (up = true -> forall pp, parent nd = Some pp ->
                  (pp ∉ locs t) /\ is_Some (heap s !! pp)) ->
    ends (d <=? fuel)%nat (rm_watch fuel (wd nd) up s)
         (removed (locs t) (handles s (locs t)) (if up then unlink n s else s)).
Proof.
  induction d as [|d IH]; intros fuel t s up n nd Hd Hh Hnd Hs Hn Hup.
  { destruct t; [discriminate | cbn in Hd; lia]. }
  destruct t as [|n' ks]; [discriminate|]. injection Hs as ->.
  inversion Hh as [|n' ks' nd' Hn' Hw Hk Hall Hpar]; subst.
  rewrite Hn in Hn'. injection Hn' as <-.
  destruct fuel as [|fuel]; [now split|].
  cbn [rm_watch]. unfold bind at 1, table_get. rewrite Hw.
  unfold bind at 1, deref. rewrite Hn.
  unfold bind at 1, sys. destruct (inotify_rm_watch (wd nd) (world s)) as [r w1].
  change (S d <=? S fuel)%nat with (d <=? fuel)%nat.
  assert (Hsize : array_size (kids nd) = length ks).
  { unfold array_size. now rewrite Hk, length_map. }
  rewrite Hsize. cbn [locs] in Hnd |- *.
  pose proof (NoDup_cons_1_1 _ _ Hnd) as Hn_out.
  assert (Hall1 : Forall (holds (set_world w1 s)) ks).
  { rewrite Forall_forall in *. intros t Ht.
    apply (holds_frame s); [now apply Hall | reflexivity..]. }
  pose proof (rm_kids_shape (d <=? fuel)%nat (rm_watch fuel) d n nd
                (fun t s k kd Hd Hh Hnd Hs Hk =>
                   IH fuel t s false k kd Hd Hh Hnd Hs Hk
                      ltac:(intros H; discriminate H))
                ks [] (set_world w1 s) Hn Hk Hall1 (depth_kids _ _ _ Hd) Hnd) as Hkids.
  cbn [length] in Hkids.
  assert (Hhandles : handles s (n :: flat_map locs ks)
                     = wd nd :: handles (set_world w1 s) (flat_map locs ks)).
  { unfold handles. cbn. now rewrite Hn. }
  rewrite Hhandles.
  eapply ends_bind; [exact Hkids|].
  intros [] s2 _ Hrem. cbv beta.
  assert (Hframe : forall x, x ∉ flat_map locs ks -> heap s2 !! x = heap s !! x).
  { intros x Hx. destruct Hrem as (Hheap & _). rewrite Hheap.
    now destruct (decide (x ∈ flat_map locs ks)). }
  unfold bind at 1, deref. rewrite (Hframe n Hn_out), Hn.
  assert (Hrem' : removed (flat_map locs ks)
                    (handles (set_world w1 s) (flat_map locs ks)) s s2).
  { destruct Hrem as (A1 & A2 & A3). now repeat split. }
  destruct up.
  - destruct (parent nd) as [pp|] eqn:Hparent.
    + destruct (Hup eq_refl pp eq_refl) as [Hpp [par Hlive]].
      assert (Hpp' : pp ∉ flat_map locs ks) by (intros H; apply Hpp; now right).
      unfold unlink. rewrite Hn, Hparent, Hlive.
      unfold bind at 1 2, deref. rewrite (Hframe pp Hpp'), Hlive.
      destruct (kids par) as [slots|].
      * run_monad. cbn [ends].
        pose proof (removed_finish _ _ _ _ n (wd nd)
                      (removed_store _ _ _ _ pp
                         (with_kids (Some (clear_slot n slots)) par) Hrem' Hpp')) as Hfin.
        exact Hfin.
      * run_monad. cbn [ends]. now apply removed_finish.
    + unfold unlink. rewrite Hn, Hparent. run_monad. cbn [ends]. now apply removed_finish.
  - destruct (parent nd); run_monad; cbn [ends]; now apply removed_finish.
Qed.

End Subtree.

(** ** The subtree below a node of a forest *)

Section Forest.

Context {World : Type} `{K : Kernel World}.

Lemma locs_kid (n : loc) (ks : list shape) (t : shape) (x : loc) :
  t ∈ ks -> x ∈ locs t -> x ∈ locs (Node n ks).
Proof.
  intros Ht Hx. cbn [locs]. right. apply list_elem_of_In, in_flat_map.
  exists t. split; now apply list_elem_of_In.
Qed.

Lemma locs_inv (n : loc) (ks : list shape) (x : loc) :
  x ∈ locs (Node n ks) -> x = n \/ exists t, t ∈ ks /\ x ∈ locs t.
Proof.
  cbn [locs]. intros Hx. apply elem_of_cons in Hx as [-> | Hx]; [now left|].
  right. apply list_elem_of_In, in_flat_map in Hx as (t & Ht & Hx).
  exists t. split; now apply list_elem_of_In.
Qed.

(** A slot of a shape that holds is a slot of the node. *)
Lemma holds_slot (s : state World) (nd : watch_node) (ks : list shape) (t : shape)
    (k : loc) :
  array_elems (kids nd) = map slot ks -> t ∈ ks -> slot t = Some k ->
  exists i, array_get (kids nd) i = Some k.
Proof.
  intros Hk Ht Hs. apply list_elem_of_lookup in Ht as [i Hi].
  exists i. unfold array_get. now rewrite Hk, list_lookup_fmap, Hi, <- Hs.
Qed.

(** In a forest the nodes of a subtree lie at or above its root. *)
Lemma holds_above (s : state World) (t : shape) :
  tree s -> holds s t -> forall n x, slot t = Some n -> x ∈ locs t -> (n <= x)%nat.
Proof.
  intros T. induction t as [|n ks IH] using shape_induction; intros Hh n' x Hs Hx;
    [discriminate|].
  injection Hs as <-. inversion Hh as [|? ? nd Hn Hw Hk Hall Hpar]; subst.
  apply locs_inv in Hx as [-> | (t & Ht & Hx)]; [lia|].
  rewrite Forall_forall in IH, Hall.
  destruct t as [|k ks']; [now apply elem_of_nil in Hx|].
  destruct (holds_slot s nd ks _ k Hk Ht eq_refl) as [i Hi].
  destruct (tree_kids s T n nd i k Hn Hi) as [Hlt _].
  pose proof (IH _ Ht (Hall _ Ht) k x eq_refl Hx). lia.
Qed.

(** In a forest every node of a subtree but its root has its parent in the
    subtree, below itself. *)
Lemma holds_up (s : state World) (t : shape) :
  tree s -> holds s t ->
  forall x, x ∈ locs t -> slot t <> Some x ->
  exists xd p, heap s !! x = Some xd /\ parent xd = Some p /\ p ∈ locs t /\ (p < x)%nat.
Proof.
  intros T. induction t as [|n ks IH] using shape_induction; intros Hh x Hx Hroot.
  { now apply elem_of_nil in Hx. }
  inversion Hh as [|? ? nd Hn Hw Hk Hall Hpar]; subst.
  apply locs_inv in Hx as [-> | (t & Ht & Hx)]; [now contradiction Hroot|].
  rewrite Forall_forall in IH, Hall, Hpar.
  destruct (decide (slot t = Some x)) as [Hs | Hs].
  - destruct (holds_slot s nd ks t x Hk Ht Hs) as [i Hi].
    destruct (tree_kids s T n nd i x Hn Hi) as [Hlt (xd & Hxd & Hp)].
    exists xd, n. repeat split; [exact Hxd | exact Hp | left | exact Hlt].
  - destruct (IH t Ht (Hall t Ht) x Hx Hs) as (xd & p & Hxd & Hp & Hin & Hlt).
    exists xd, p. repeat split; try assumption. now apply (locs_kid n ks t).
Qed.

(** Two children of a node have no node in common. *)
Lemma siblings_disjoint (s : state World) (n : loc) (t1 t2 : shape) (k1 k2 : loc)
    (kd1 kd2 : watch_node) :
  tree s -> holds s t1 -> holds s t2 ->
  slot t1 = Some k1 -> slot t2 = Some k2 -> k1 <> k2 ->
  heap s !! k1 = Some kd1 -> parent kd1 = Some n ->
  heap s !! k2 = Some kd2 -> parent kd2 = Some n ->
  (n < k1)%nat -> (n < k2)%nat ->
  forall x, x ∈ locs t1 -> x ∉ locs t2.
Proof.
  intros T H1 H2 S1 S2 Hne Hk1 Hp1 Hk2 Hp2 Hlt1 Hlt2.
  induction x as [x IH] using (well_founded_induction lt_wf). intros Hx1 Hx2.
  destruct (decide (x = k1)) as [-> | Hx1'].
  - destruct (holds_up s t2 T H2 k1 Hx2) as (xd & p & Hxd & Hp & Hin & _).
    { rewrite S2. congruence. }
    rewrite Hk1 in Hxd. injection Hxd as <-. rewrite Hp1 in Hp. injection Hp as <-.
    pose proof (holds_above s t2 T H2 k2 n S2 Hin). lia.
  - destruct (decide (x = k2)) as [-> | Hx2'].
    + destruct (holds_up s t1 T H1 k2 Hx1) as (xd & p & Hxd & Hp & Hin & _).
      { rewrite S1. congruence. }
      rewrite Hk2 in Hxd. injection Hxd as <-. rewrite Hp2 in Hp. injection Hp as <-.
      pose proof (holds_above s t1 T H1 k1 n S1 Hin). lia.
    + destruct (holds_up s t1 T H1 x Hx1) as (xd & p & Hxd & Hp & Hin & Hlt).
      { rewrite S1. congruence. }
      destruct (holds_up s t2 T H2 x Hx2) as (xd' & p' & Hxd' & Hp' & Hin' & _).
      { rewrite S2. congruence. }
      rewrite Hxd in Hxd'. injection Hxd' as <-. rewrite Hp in Hp'. injection Hp' as <-.
      exact (IH p Hlt Hin Hin').
Qed.

Lemma NoDup_flat_map (ks : list shape) :
  (forall i t, ks !! i = Some t -> NoDup (locs t)) ->
  (forall i j ti tj x, i <> j -> ks !! i = Some ti -> ks !! j = Some tj ->
                       x ∈ locs ti -> x ∉ locs tj) ->
  NoDup (flat_map locs ks).
Proof.
  induction ks as [|t ks IH]; intros Hnd Hdis; [constructor|].
  cbn [flat_map]. apply NoDup_app. split; [exact (Hnd 0%nat t eq_refl)|]. split.
  - intros x Hx Hx'. apply list_elem_of_In, in_flat_map in Hx' as (t' & Ht' & Hx').
    apply list_elem_of_In, list_elem_of_lookup in Ht' as [j Hj].
    apply list_elem_of_In in Hx'.
    exact (Hdis 0%nat (S j) t t' x ltac:(lia) eq_refl Hj Hx Hx').
  - apply IH.
    + intros i t' Hi. exact (Hnd (S i) t' Hi).
    + intros i j ti tj x Hne Hi Hj. apply (Hdis (S i) (S j)); [lia | exact Hi | exact Hj].
Qed.

Lemma build_kids (s : state World) (n : loc) (nd : watch_node) (m : nat) :
  tree s -> heap s !! n = Some nd ->
  (forall k kd, (n < k)%nat -> heap s !! k = Some kd ->
     exists t, slot t = Some k /\ holds s t /\ NoDup (locs t) /\ (depth t <= m)%nat) ->
  forall rest pre,
    array_elems (kids nd) = pre ++ rest ->
    exists ks, map slot ks = rest /\ Forall (holds s) ks
               /\ Forall (fun t => NoDup (locs t)) ks
               /\ Forall (fun t => (depth t <= m)%nat) ks.
Proof.
  intros T Hn Hsub. induction rest as [|o rest IH]; intros pre Hk.
  { exists []. repeat split; constructor. }
  destruct (IH (pre ++ [o])) as (ks & Hmap & Hall & Hnd & Hd).
  { now rewrite <- app_assoc. }
  destruct o as [k|].
  - assert (Hget : array_get (kids nd) (length pre) = Some k).
    { unfold array_get. rewrite Hk, lookup_app_r, Nat.sub_diag by lia. reflexivity. }
    destruct (tree_kids s T n nd _ k Hn Hget) as [Hlt (kd & Hkd & _)].
    destruct (Hsub k kd Hlt Hkd) as (t & Hs & Hh & Hndt & Hdt).
    exists (t :: ks). cbn [map]. rewrite Hs, Hmap.
    repeat split; constructor; assumption.
  - exists (Hole :: ks). cbn [map slot]. rewrite Hmap.
    repeat split; constructor; try assumption; [constructor | constructor | cbn; lia].
Qed.

Lemma depth_node (n : loc) (ks : list shape) (m : nat) :
  Forall (fun t => (depth t <= m)%nat) ks -> (depth (Node n ks) <= S m)%nat.
Proof.
  intros H. cbn [depth]. apply le_n_S.
  induction H as [|t ks Ht _ IH]; cbn; [lia | lia].
Qed.

(** In a forest every live node is the root of a subtree that holds, has
    no node twice and is no deeper than the heap is high above it. *)
Lemma tree_shape (s : state World) :
  tree s ->
  forall m n nd,
    (next_loc s - n <= m)%nat -> heap s !! n = Some nd ->
    exists t, slot t = Some n /\ holds s t /\ NoDup (locs t) /\ (depth t <= m)%nat.
Proof.
  intros T. induction m as [|m IH]; intros n nd Hm Hn.
  { destruct (tree_consistent s T) as [_ Hl].
    assert (n < next_loc s)%nat by (apply Hl; now rewrite Hn). lia. }
  destruct (build_kids s n nd m T Hn
              ltac:(intros k kd Hlt Hkd; apply (IH k kd); [lia | exact Hkd])
              (array_elems (kids nd)) [] eq_refl)
    as (ks & Hmap & Hall & Hnd & Hd).
  assert (Hkid : forall i t k, ks !! i = Some t -> slot t = Some k ->
            array_get (kids nd) i = Some k).
  { intros i t k Hi Hs. unfold array_get. now rewrite <- Hmap, list_lookup_fmap, Hi, <- Hs. }
  exists (Node n ks). split; [reflexivity|]. split; [|split].
  - apply (holds_node s n ks nd); [exact Hn | now apply (tree_total s T) | now symmetry
                                   | exact Hall |].
    rewrite Forall_forall. intros t Ht k kd Hs Hkd.
    apply list_elem_of_lookup in Ht as [i Hi].
    destruct (tree_kids s T n nd i k Hn (Hkid i t k Hi Hs)) as [_ (kd' & Hkd' & Hp)].
    rewrite Hkd in Hkd'. now injection Hkd' as <-.
  - cbn [locs]. apply NoDup_cons. split.
    + intros Hx. apply list_elem_of_In, in_flat_map in Hx as (t & Ht & Hx).
      apply list_elem_of_In in Ht, Hx. rewrite Forall_forall in Hall.
      destruct t as [|k ks']; [now apply elem_of_nil in Hx|].
      apply list_elem_of_lookup in Ht as [i Hi].
      destruct (tree_kids s T n nd i k Hn (Hkid i _ k Hi eq_refl)) as [Hlt _].
      pose proof (holds_above s (Node k ks') T
                    (Hall _ ltac:(eapply list_elem_of_lookup_2; exact Hi)) k n eq_refl Hx).
      lia.
    + apply NoDup_flat_map.
      * intros i t Hi. rewrite Forall_forall in Hnd. apply Hnd.
        eapply list_elem_of_lookup_2. exact Hi.
      * intros i j ti tj x Hne Hi Hj Hx.
        rewrite Forall_forall in Hall.
        destruct ti as [|ki ksi]; [now apply elem_of_nil in Hx|].
        destruct tj as [|kj ksj]; [apply not_elem_of_nil|].
        pose proof (Hkid i _ ki Hi eq_refl) as Gi.
        pose proof (Hkid j _ kj Hj eq_refl) as Gj.
        destruct (tree_kids s T n nd i ki Hn Gi) as [Hlti (kdi & Hkdi & Hpi)].
        destruct (tree_kids s T n nd j kj Hn Gj) as [Hltj (kdj & Hkdj & Hpj)].
        apply (siblings_disjoint s n (Node ki ksi) (Node kj ksj) ki kj kdi kdj T);
          try assumption; try reflexivity.
        -- apply Hall. eapply list_elem_of_lookup_2. exact Hi.
        -- apply Hall. eapply list_elem_of_lookup_2. exact Hj.
        -- intros ->. apply Hne. exact (tree_nodup s T n nd i j kj Hn Gi Gj).
  - now apply depth_node.
Qed.

End Forest.

(** ** The forest after a removal *)

Section Forest_removal.

Context {World : Type} `{K : Kernel World}.

Lemma clear_slot_other (n : loc) (slots : list (option loc)) (i : nat) (k : loc) :
  slots !! i = Some (Some k) -> k <> n -> clear_slot n slots !! i = Some (Some k).
Proof.
  revert i. induction slots as [|[k'|] rest IH]; intros i Hi Hne; [discriminate | |].
  - cbn [clear_slot]. destruct (Nat.eqb_spec k' n) as [-> | Hk'].
    + destruct i; cbn in *; [congruence | exact Hi].
    + destruct i; cbn in *; [exact Hi | now apply IH].
  - destruct i; cbn in *; [discriminate | now apply IH].
Qed.

(** Once cleared, a node that was listed once is listed no more. *)
Lemma clear_slot_gone (n : loc) (slots : list (option loc)) :
  (forall i j, slots !! i = Some (Some n) -> slots !! j = Some (Some n) -> i = j) ->
  forall i, clear_slot n slots !! i <> Some (Some n).
Proof.
  induction slots as [|[k|] rest IH]; intros Hone i; [now destruct i | |].
  - cbn [clear_slot]. destruct (Nat.eqb_spec k n) as [-> | Hk].
    + destruct i as [|i]; cbn; [discriminate|].
      intros Hi. pose proof (Hone 0%nat (S i) eq_refl Hi). discriminate.
    + destruct i as [|i]; cbn; [congruence|].
      apply IH. intros a b Ha Hb. apply (f_equal pred (Hone (S a) (S b) Ha Hb)).
  - destruct i as [|i]; cbn; [discriminate|].
    apply IH. intros a b Ha Hb. apply (f_equal pred (Hone (S a) (S b) Ha Hb)).
Qed.

(** Clearing the one slot that holds the node is what line 235 does. *)
Lemma clear_slot_insert (n : loc) (slots : list (option loc)) (i : nat) :
  slots !! i = Some (Some n) ->
  (forall j, slots !! j = Some (Some n) -> j = i) ->
  clear_slot n slots = <[i := None]> slots.
Proof.
  revert i. induction slots as [|[k|] rest IH]; intros i Hi Hone; [discriminate | |].
  - cbn [clear_slot]. destruct (Nat.eqb_spec k n) as [-> | Hk].
    + pose proof (Hone 0%nat eq_refl) as <-. reflexivity.
    + destruct i as [|i]; cbn in *; [congruence|]. f_equal. apply IH; [exact Hi|].
      intros j Hj. apply (f_equal pred (Hone (S j) Hj)).
  - destruct i as [|i]; cbn in *; [discriminate|]. f_equal. apply IH; [exact Hi|].
    intros j Hj. apply (f_equal pred (Hone (S j) Hj)).
Qed.

(** The children listed by a node of a subtree are in the subtree. *)
Lemma holds_down (s : state World) (t : shape) :
  holds s t ->
  forall p pd i k, p ∈ locs t -> heap s !! p = Some pd ->
                   array_get (kids pd) i = Some k -> k ∈ locs t.
Proof.
  induction t as [|n ks IH] using shape_induction; intros Hh p pd i k Hp Hpd Hi.
  { now apply elem_of_nil in Hp. }
  inversion Hh as [|? ? nd Hn Hw Hk Hall Hpar]; subst.
  rewrite Forall_forall in IH, Hall.
  apply locs_inv in Hp as [-> | (t & Ht & Hp)].
  - rewrite Hn in Hpd. injection Hpd as <-.
    unfold array_get in Hi. rewrite Hk, list_lookup_fmap in Hi.
    destruct (ks !! i) as [t|] eqn:Et; [|discriminate]. cbn in Hi.
    destruct t as [|k' ks']; [discriminate|]. cbn in Hi. injection Hi as ->.
    apply (locs_kid n ks (Node k ks') k); [eapply list_elem_of_lookup_2; exact Et | left].
  - apply (locs_kid n ks t k Ht). exact (IH t Ht (Hall t Ht) p pd i k Hp Hpd Hi).
Qed.

(** What is left of a node after [unlink]. *)
Lemma unlink_lookup (n : loc) (s : state World) (x : loc) (xd' : watch_node) :
  heap (unlink n s) !! x = Some xd' ->
  exists xd, heap s !! x = Some xd /\ wd xd' = wd xd /\ parent xd' = parent xd
             /\ paths xd' = paths xd
             /\ (kids xd' = kids xd
                 \/ exists nd slots, heap s !! n = Some nd /\ parent nd = Some x
                                     /\ kids xd = Some slots
                                     /\ kids xd' = Some (clear_slot n slots)).
Proof.
  unfold unlink. destruct (heap s !! n) as [nd|] eqn:Hn; [|intros H; exists xd'; auto 10].
  destruct (parent nd) as [pp|] eqn:Hp; [|intros H; exists xd'; auto 10].
  destruct (heap s !! pp) as [par|] eqn:Hpar; [|intros H; exists xd'; auto 10].
  destruct (kids par) as [slots|] eqn:Hk; [|intros H; exists xd'; auto 10].
  proj_simpl. destruct (decide (pp = x)) as [<- | Hne].
  - rewrite lookup_insert_eq. intros [= <-]. exists par.
    destruct par; cbn in *. repeat split; try reflexivity; try assumption.
    right. now exists nd, slots.
  - rewrite lookup_insert_ne by exact Hne. intros H. exists xd'. auto 10.
Qed.

Lemma unlink_frame (n : loc) (s : state World) :
  watches (unlink n s) = watches s /\ next_loc (unlink n s) = next_loc s.
Proof.
  unfold unlink. destruct (heap s !! n) as [nd|]; [|auto].
  destruct (parent nd) as [pp|]; [|auto]. destruct (heap s !! pp) as [par|]; [|auto].
  destruct (kids par); auto.
Qed.

Lemma unlink_live (n : loc) (s : state World) (x : loc) (xd : watch_node) :
  heap s !! x = Some xd -> is_Some (heap (unlink n s) !! x).
Proof.
  intros Hx. unfold unlink. destruct (heap s !! n) as [nd|]; [|now rewrite Hx].
  destruct (parent nd) as [pp|]; [|now rewrite Hx].
  destruct (heap s !! pp) as [par|]; [|now rewrite Hx].
  destruct (kids par); [|now rewrite Hx].
  proj_simpl. destruct (decide (pp = x)) as [<- | Hne].
  - rewrite lookup_insert_eq. now eexists.
  - rewrite lookup_insert_ne by exact Hne. now rewrite Hx.
Qed.

Lemma array_get_cleared (n : loc) (a : array (option loc)) (slots : list (option loc))
    (i : nat) (k : loc) :
  a = Some slots -> array_get (Some (clear_slot n slots)) i = Some k ->
  array_get a i = Some k.
Proof.
  intros ->. unfold array_get. cbn.
  destruct (clear_slot n slots !! i) as [[k'|]|] eqn:E; try discriminate.
  intros [= ->]. now rewrite (clear_slot_lookup _ _ _ _ E).
Qed.

(** The forest without the subtree at [n], its root unlinked first, is a
    forest. *)
Lemma tree_removed (s s' : state World) (t : shape) (n : loc) :
  tree s -> holds s t -> slot t = Some n ->
  removed (locs t) (handles s (locs t)) (unlink n s) s' ->
  tree s'.
Proof.
  intros T Hh Hs (Hheap & Htable & Hnext & _).
  destruct (unlink_frame n s) as [Hut Hun]. rewrite Hut in Htable. rewrite Hun in Hnext.
  assert (Hn_in : n ∈ locs t) by (destruct t; [discriminate | injection Hs as ->; left]).
  (* what a node of the new state was *)
  assert (Hold : forall x xd', heap s' !! x = Some xd' ->
            (x ∉ locs t)
            /\ exists xd, heap s !! x = Some xd /\ wd xd' = wd xd /\ parent xd' = parent xd
               /\ (kids xd' = kids xd
                   \/ exists nd slots, heap s !! n = Some nd /\ parent nd = Some x
                                       /\ kids xd = Some slots
                                       /\ kids xd' = Some (clear_slot n slots))).
  { intros x xd' Hx. rewrite Hheap in Hx.
    destruct (decide (x ∈ locs t)) as [|Hout]; [discriminate|]. split; [exact Hout|].
    destruct (unlink_lookup n s x xd' Hx) as (xd & A & B & C & _ & E). now exists xd. }
  (* a node outside the subtree is still there *)
  assert (Hkeep : forall x xd, heap s !! x = Some xd -> x ∉ locs t ->
            exists xd', heap s' !! x = Some xd').
  { intros x xd Hx Hout. rewrite Hheap. destruct (decide (x ∈ locs t)); [contradiction|].
    exact (unlink_live n s x xd Hx). }
  (* the handles of the nodes outside the subtree are still entered *)
  assert (Hentry : forall x xd, heap s !! x = Some xd -> x ∉ locs t ->
            watches s' !! wd xd = Some x).
  { intros x xd Hx Hout. rewrite Htable.
    destruct (decide (wd xd ∈ handles s (locs t))) as [Hin|];
      [|exact (tree_total s T x xd Hx)].
    exfalso. apply handles_elem in Hin as (y & yd & Hy & Hyd & Heq).
    pose proof (tree_total s T y yd Hyd) as Ty. pose proof (tree_total s T x xd Hx) as Tx.
    rewrite Heq in Ty. rewrite Tx in Ty. injection Ty as ->. contradiction. }
  (* a slot of the new state was a slot before *)
  assert (Hslot : forall x xd' xd i k,
            heap s' !! x = Some xd' -> heap s !! x = Some xd ->
            (kids xd' = kids xd
             \/ exists nd slots, heap s !! n = Some nd /\ parent nd = Some x
                                 /\ kids xd = Some slots
                                 /\ kids xd' = Some (clear_slot n slots)) ->
            array_get (kids xd') i = Some k ->
            array_get (kids xd) i = Some k /\ k <> n).
  { intros x xd' xd i k Hx' Hx Hkids Hi.
    destruct Hkids as [Heq | (nd & slots & Hnd & Hp & Hsl & Hcl)].
    - rewrite Heq in Hi. split; [exact Hi|]. intros ->.
      destruct (tree_kids s T x xd i n Hx Hi) as [_ (nd & Hnd & Hp)].
      (* the parent of [n] lists it, so [unlink] cleared a slot of [x] *)
      rewrite Hheap in Hx'. destruct (decide (x ∈ locs t)); [discriminate|].
      unfold unlink in Hx'. rewrite Hnd, Hp, Hx in Hx'.
      destruct (kids xd) as [slots|] eqn:Hsl; [|discriminate Hi].
      proj_simpl. rewrite lookup_insert_eq in Hx'. injection Hx' as <-.
      destruct xd as [w p ks ps]. cbn in *. subst ks.
      rewrite <- Heq in Hi. unfold array_get in Hi. cbn in Hi.
      destruct (clear_slot n slots !! i) as [o|] eqn:E; [|discriminate]. subst o.
      revert E. apply clear_slot_gone. intros a b Ha Hb.
      apply (tree_nodup s T x (mk_watch_node w p (Some slots) ps) a b n Hx);
        unfold array_get; cbn; [now rewrite Ha | now rewrite Hb].
    - rewrite Hcl in Hi. split; [exact (array_get_cleared _ _ _ _ _ Hsl Hi)|].
      intros ->. unfold array_get in Hi. cbn in Hi.
      destruct (clear_slot n slots !! i) as [o|] eqn:E; [|discriminate]. subst o.
      revert E. apply clear_slot_gone. intros a b Ha Hb.
      apply (tree_nodup s T x xd a b n Hx); unfold array_get; rewrite Hsl; cbn;
        [now rewrite Ha | now rewrite Hb]. }
  split.
  - (* consistent *)
    split.
    + intros w m Hw. rewrite Htable in Hw.
      destruct (decide (w ∈ handles s (locs t))) as [|Hout]; [discriminate|].
      destruct (tree_consistent s T) as [Ht _].
      destruct (Ht w m Hw) as (md & Hmd & Hwd).
      assert (Hm : m ∉ locs t).
      { intros Hin. apply Hout. apply handles_elem. now exists m, md. }
      destruct (Hkeep m md Hmd Hm) as [md' Hmd'].
      destruct (Hold m md' Hmd') as (_ & md0 & Hmd0 & Hwd0 & _).
      rewrite Hmd in Hmd0. injection Hmd0 as <-. exists md'. split; congruence.
    + intros x [xd' Hx]. destruct (Hold x xd' Hx) as (_ & xd & Hxd & _).
      rewrite Hnext. apply (tree_consistent s T). now rewrite Hxd.
  - (* total *)
    intros x xd' Hx. destruct (Hold x xd' Hx) as (Hout & xd & Hxd & Hwd & _).
    rewrite Hwd. now apply Hentry.
  - (* kids *)
    intros x xd' i k Hx Hi. destruct (Hold x xd' Hx) as (Hout & xd & Hxd & _ & _ & Hkids).
    destruct (Hslot x xd' xd i k Hx Hxd Hkids Hi) as [Hi0 Hkn].
    destruct (tree_kids s T x xd i k Hxd Hi0) as [Hlt (kd & Hkd & Hp)].
    split; [exact Hlt|].
    assert (Hk : k ∉ locs t).
    { intros Hin. destruct (holds_up s t T Hh k Hin) as (kd0 & p & Hkd0 & Hp0 & Hpin & _).
      - rewrite Hs. congruence.
      - rewrite Hkd in Hkd0. injection Hkd0 as <-. rewrite Hp in Hp0.
        injection Hp0 as <-. contradiction. }
    destruct (Hkeep k kd Hkd Hk) as [kd' Hkd'].
    destruct (Hold k kd' Hkd') as (_ & kd0 & Hkd0 & _ & Hp0 & _).
    rewrite Hkd in Hkd0. injection Hkd0 as <-. exists kd'. split; congruence.
  - (* parent *)
    intros k kd' p Hk Hp. destruct (Hold k kd' Hk) as (Hkout & kd & Hkd & _ & Hpk & _).
    rewrite Hpk in Hp. destruct (tree_parent s T k kd p Hkd Hp) as (pd & i & Hpd & Hi).
    assert (Hpout : p ∉ locs t).
    { intros Hin. apply Hkout. exact (holds_down s t Hh p pd i k Hin Hpd Hi). }
    destruct (Hkeep p pd Hpd Hpout) as [pd' Hpd'].
    destruct (Hold p pd' Hpd') as (_ & pd0 & Hpd0 & _ & _ & Hkids).
    rewrite Hpd in Hpd0. injection Hpd0 as <-.
    exists pd', i. split; [exact Hpd'|].
    destruct Hkids as [-> | (nd & slots & Hnd & Hpn & Hsl & ->)]; [exact Hi|].
    unfold array_get in *. rewrite Hsl in Hi. cbn in *.
    destruct (slots !! i) as [o|] eqn:E; [|discriminate]. subst o.
    rewrite (clear_slot_other n slots i k E); [reflexivity|].
    intros ->. contradiction.
  - (* nodup *)
    intros x xd' i j k Hx Hi Hj. destruct (Hold x xd' Hx) as (_ & xd & Hxd & _ & _ & Hkids).
    destruct (Hslot x xd' xd i k Hx Hxd Hkids Hi) as [Hi0 _].
    destruct (Hslot x xd' xd j k Hx Hxd Hkids Hj) as [Hj0 _].
    exact (tree_nodup s T x xd i j k Hxd Hi0 Hj0).
Qed.

End Forest_removal.

(** ** The forest under registration *)

Section Forest_growth.

Context {World : Type} `{K : Kernel World}.

Lemma ends_weaken {A} (enough : bool) (o : outcome World A)
    (Q Q' : state World -> Prop) :
  ends enough o Q -> (forall s', Q s' -> Q' s') -> ends false o Q'.
Proof. destruct o; cbn; [auto | now intros [-> _]]. Qed.

Lemma tree_frame (s s' : state World) :
  watches s' = watches s -> heap s' = heap s -> next_loc s' = next_loc s ->
  tree s -> tree s'.
Proof.
  intros Ht Hh Hl [C T1 T2 T3 T4]. split.
  - now apply (consistent_frame s).
  - rewrite Hh, Ht. exact T1.
  - rewrite Hh. exact T2.
  - rewrite Hh. exact T3.
  - rewrite Hh. exact T4.
Qed.

(** A node written back with other aliases. *)
Lemma tree_paths (s : state World) (n : loc) (nd : watch_node) (ps : list watch_path) :
  tree s -> heap s !! n = Some nd ->
  tree (set_heap (<[n := with_paths ps nd]> (heap s)) s).
Proof.
  intros [C T1 T2 T3 T4] Hn.
  assert (Hold : forall x xd', (<[n := with_paths ps nd]> (heap s)) !! x = Some xd' ->
            exists xd, heap s !! x = Some xd /\ wd xd' = wd xd
                       /\ parent xd' = parent xd /\ kids xd' = kids xd).
  { intros x xd'. destruct (decide (n = x)) as [<- | Hne].
    - rewrite lookup_insert_eq. intros [= <-]. exists nd. now destruct nd.
    - rewrite lookup_insert_ne by exact Hne. intros H. now exists xd'. }
  assert (Hnew : forall x xd, heap s !! x = Some xd ->
            exists xd', (<[n := with_paths ps nd]> (heap s)) !! x = Some xd'
                        /\ wd xd' = wd xd /\ parent xd' = parent xd /\ kids xd' = kids xd).
  { intros x xd Hx. destruct (decide (n = x)) as [<- | Hne].
    - rewrite lookup_insert_eq. rewrite Hn in Hx. injection Hx as <-.
      eexists. split; [reflexivity|]. now destruct nd.
    - rewrite lookup_insert_ne by exact Hne. now exists xd. }
  split; proj_simpl.
  - apply (consistent_store n nd); [exact C | exact Hn | now destruct nd].
  - intros x xd' Hx. destruct (Hold x xd' Hx) as (xd & Hxd & Hw & _).
    rewrite Hw. now apply T1.
  - intros x xd' i k Hx Hi. destruct (Hold x xd' Hx) as (xd & Hxd & _ & _ & Hk).
    rewrite Hk in Hi. destruct (T2 x xd i k Hxd Hi) as [Hlt (kd & Hkd & Hp)].
    split; [exact Hlt|]. destruct (Hnew k kd Hkd) as (kd' & Hkd' & _ & Hp' & _).
    exists kd'. split; congruence.
  - intros k kd' p Hk Hp. destruct (Hold k kd' Hk) as (kd & Hkd & _ & Hpk & _).
    rewrite Hpk in Hp. destruct (T3 k kd p Hkd Hp) as (pd & i & Hpd & Hi).
    destruct (Hnew p pd Hpd) as (pd' & Hpd' & _ & _ & Hkids).
    exists pd', i. split; [exact Hpd' | now rewrite Hkids].
  - intros x xd' i j k Hx Hi Hj. destruct (Hold x xd' Hx) as (xd & Hxd & _ & _ & Hk).
    rewrite Hk in Hi, Hj. exact (T4 x xd i j k Hxd Hi Hj).
Qed.

Lemma array_get_push (a : array (option loc)) (x : option loc) (i : nat) (k : loc) :
  array_get (array_push a x) i = Some k ->
  array_get a i = Some k \/ (i = array_size a /\ x = Some k).
Proof.
  unfold array_get, array_push, array_size. cbn [array_elems].
  destruct (decide (i < length (array_elems a))%nat) as [Hlt | Hge].
  - rewrite lookup_app_l by exact Hlt. now left.
  - rewrite lookup_app_r by lia.
    destruct (i - length (array_elems a))%nat as [|j] eqn:E; cbn; [|discriminate].
    intros ->. right. split; [lia | reflexivity].
Qed.

Lemma array_get_pushed (a : array (option loc)) (x : option loc) (i : nat) (k : loc) :
  array_get a i = Some k -> array_get (array_push a x) i = Some k.
Proof.
  unfold array_get, array_push. cbn [array_elems].
  destruct (array_elems a !! i) as [o|] eqn:E; [|discriminate].
  intros ->. now rewrite (lookup_app_l_Some _ _ _ _ E).
Qed.

Lemma array_get_last (a : array (option loc)) (x : option loc) :
  array_get (array_push a x) (array_size a) = x.
Proof.
  unfold array_get, array_push, array_size. cbn [array_elems].
  rewrite lookup_app_r, Nat.sub_diag by lia. reflexivity.
Qed.

Lemma array_get_size (a : array (option loc)) (i : nat) (k : loc) :
  array_get a i = Some k -> (i < array_size a)%nat.
Proof.
  unfold array_get, array_size. destruct (array_elems a !! i) eqn:E; [|discriminate].
  intros _. eapply lookup_lt_Some. exact E.
Qed.

(** A new node entered under a new handle, as a root or as the last child
    of a live node. *)
Lemma tree_graft (s s' : state World) (w : Z) (parent' : option loc)
    (ps : list watch_path) :
  tree s -> watches s !! w = None ->
  match parent' with Some pp => is_Some (heap s !! pp) | None => True end ->
  watches s' = <[w := next_loc s]> (watches s) ->
  next_loc s' = S (next_loc s) ->
  heap s' = match parent' with
            | Some pp =>
                match heap s !! pp with
                | Some par =>
                    <[pp := with_kids (array_push (kids par) (Some (next_loc s))) par]>
                      (<[next_loc s := mk_watch_node w parent' None ps]> (heap s))
                | None => <[next_loc s := mk_watch_node w parent' None ps]> (heap s)
                end
            | None => <[next_loc s := mk_watch_node w parent' None ps]> (heap s)
            end ->
  tree s'.
Proof.
  intros [C T1 T2 T3 T4] Hw Hparent Ht Hl Hh.
  set (n0 := next_loc s) in *.
  set (node := mk_watch_node w parent' None ps) in *.
  assert (Hlive : forall x, is_Some (heap s !! x) -> (x < n0)%nat) by apply C.
  assert (Hfresh : heap s !! n0 = None).
  { destruct (heap s !! n0) eqn:E; [|reflexivity].
    assert (n0 < n0)%nat by (apply Hlive; now rewrite E). lia. }
  (* the nodes of the new state *)
  assert (Hold : forall x xd', heap s' !! x = Some xd' ->
            (x = n0 /\ xd' = node)
            \/ (x <> n0 /\ exists xd, heap s !! x = Some xd /\ wd xd' = wd xd
                /\ parent xd' = parent xd
                /\ (kids xd' = kids xd
                    \/ (parent' = Some x
                        /\ kids xd' = array_push (kids xd) (Some n0))))).
  { intros x xd' Hx. rewrite Hh in Hx. destruct parent' as [pp|].
    - destruct Hparent as [par Hpar]. rewrite Hpar in Hx.
      assert (pp <> n0) by (intros ->; congruence).
      destruct (decide (pp = x)) as [<- | Hne].
      + rewrite lookup_insert_eq in Hx. injection Hx as <-. right. split; [assumption|].
        exists par. destruct par; cbn. repeat split; try assumption. now right.
      + rewrite lookup_insert_ne in Hx by exact Hne.
        destruct (decide (n0 = x)) as [<- | Hne'].
        * rewrite lookup_insert_eq in Hx. injection Hx as <-. now left.
        * rewrite lookup_insert_ne in Hx by exact Hne'. right. split; [congruence|].
          exists xd'. auto 10.
    - destruct (decide (n0 = x)) as [<- | Hne'].
      + rewrite lookup_insert_eq in Hx. injection Hx as <-. now left.
      + rewrite lookup_insert_ne in Hx by exact Hne'. right. split; [congruence|].
        exists xd'. auto 10. }
  assert (Hnew : forall x xd, heap s !! x = Some xd ->
            exists xd', heap s' !! x = Some xd' /\ wd xd' = wd xd
                        /\ parent xd' = parent xd
                        /\ forall i k, array_get (kids xd) i = Some k ->
                                       array_get (kids xd') i = Some k).
  { intros x xd Hx. assert (x <> n0) by (intros ->; congruence).
    rewrite Hh. destruct parent' as [pp|].
    - destruct Hparent as [par Hpar]. rewrite Hpar.
      destruct (decide (pp = x)) as [<- | Hne].
      + rewrite lookup_insert_eq. rewrite Hpar in Hx. injection Hx as <-.
        eexists. split; [reflexivity|]. destruct par; cbn. repeat split.
        intros i k. apply array_get_pushed.
      + rewrite lookup_insert_ne by exact Hne. rewrite lookup_insert_ne by congruence.
        exists xd. auto.
    - rewrite lookup_insert_ne by congruence. exists xd. auto. }
  assert (Hnode : heap s' !! n0 = Some node).
  { rewrite Hh. destruct parent' as [pp|].
    - destruct Hparent as [par Hpar]. rewrite Hpar.
      rewrite lookup_insert_ne by (intros ->; congruence). apply lookup_insert_eq.
    - apply lookup_insert_eq. }
  split.
  - split.
    + intros w' m. rewrite Ht. destruct (decide (w = w')) as [<- | Hne].
      * rewrite lookup_insert_eq. intros [= <-]. now exists node.
      * rewrite lookup_insert_ne by exact Hne. intros Hm.
        destruct C as [Ct _]. destruct (Ct w' m Hm) as (md & Hmd & Hwd).
        destruct (Hnew m md Hmd) as (md' & Hmd' & Hwd' & _). exists md'. split; congruence.
    + intros x [xd' Hx]. rewrite Hl.
      destruct (Hold x xd' Hx) as [[-> _] | (_ & xd & Hxd & _)]; [lia|].
      assert (x < n0)%nat by (apply Hlive; now rewrite Hxd). lia.
  - intros x xd' Hx. rewrite Ht.
    destruct (Hold x xd' Hx) as [[-> ->] | (Hne & xd & Hxd & Hwd & _)].
    + apply lookup_insert_eq.
    + rewrite Hwd. rewrite lookup_insert_ne; [now apply T1|].
      intros Heq. rewrite Heq, (T1 x xd Hxd) in Hw. discriminate.
  - intros x xd' i k Hx Hi.
    destruct (Hold x xd' Hx) as [[-> ->] | (Hne & xd & Hxd & _ & _ & Hkids)].
    + discriminate Hi.
    + assert (Hx_lt : (x < n0)%nat) by (apply Hlive; now rewrite Hxd).
      destruct Hkids as [Heq | [Hp Heq]].
      * rewrite Heq in Hi. destruct (T2 x xd i k Hxd Hi) as [Hlt (kd & Hkd & Hpk)].
        split; [exact Hlt|]. destruct (Hnew k kd Hkd) as (kd' & Hkd' & _ & Hpk' & _).
        exists kd'. split; congruence.
      * rewrite Heq in Hi. apply array_get_push in Hi as [Hi | [_ Hk]].
        -- destruct (T2 x xd i k Hxd Hi) as [Hlt (kd & Hkd & Hpk)].
           split; [exact Hlt|]. destruct (Hnew k kd Hkd) as (kd' & Hkd' & _ & Hpk' & _).
           exists kd'. split; congruence.
        -- injection Hk as <-. split; [exact Hx_lt|]. exists node. now split.
  - intros k kd' p Hk Hp.
    destruct (Hold k kd' Hk) as [[-> ->] | (Hne & kd & Hkd & _ & Hpk & _)].
    + cbn in Hp. subst parent'. destruct Hparent as [par Hpar].
      destruct (Hnew p par Hpar) as (par' & Hpar' & _).
      exists par', (array_size (kids par)). split; [exact Hpar'|].
      rewrite Hh, Hpar, lookup_insert_eq in Hpar'. injection Hpar' as <-.
      destruct par; cbn. apply array_get_last.
    + rewrite Hpk in Hp. destruct (T3 k kd p Hkd Hp) as (pd & i & Hpd & Hi).
      destruct (Hnew p pd Hpd) as (pd' & Hpd' & _ & _ & Hkids).
      exists pd', i. split; [exact Hpd' | now apply Hkids].
  - intros x xd' i j k Hx Hi Hj.
    destruct (Hold x xd' Hx) as [[-> ->] | (Hne & xd & Hxd & _ & _ & Hkids)].
    + discriminate Hi.
    + destruct Hkids as [Heq | [Hp Heq]].
      * rewrite Heq in Hi, Hj. exact (T4 x xd i j k Hxd Hi Hj).
      * rewrite Heq in Hi, Hj.
        apply array_get_push in Hi as [Hi | [Hi Hki]];
          apply array_get_push in Hj as [Hj | [Hj Hkj]].
        -- exact (T4 x xd i j k Hxd Hi Hj).
        -- injection Hkj as <-. destruct (T2 x xd i n0 Hxd Hi) as [_ (kd & Hkd & _)].
           congruence.
        -- injection Hki as <-. destruct (T2 x xd j n0 Hxd Hj) as [_ (kd & Hkd & _)].
           congruence.
        -- congruence.
Qed.

End Forest_growth.

(** ** The operations on a forest *)

Section Forest_operations.

Context {World : Type} `{K : Kernel World}.

Lemma parent_ok_frame (s s' : state World) (parent' : option loc) :
  heap s' = heap s -> parent_ok s parent' -> parent_ok s' parent'.
Proof. unfold parent_ok. now intros ->. Qed.

(** [add_watch] on a forest, with a parent that is null or live. *)
Lemma add_watch_tree (path_len : nat) (parent' : option loc) (s : state World) :
  tree s -> parent_ok s parent' ->
  ends false (add_watch path_len parent' s) tree.
Proof.
  intros T Hparent.
  remember (add_watch path_len parent' s) as o eqn:Ho.
  unfold add_watch in Ho. unfold bind at 1 2, get_path, sys in Ho.
  destruct (inotify_add_watch (cstr (path_buf s)) EVENT_MASK (world s))
    as [[wd' errno] w1].
  assert (T1 : tree (set_world w1 s)) by now apply (tree_frame s).
  destruct (wd' <? 0).
  { destruct ((errno =? EACCES) || (errno =? ENOENT)); [now subst o|].
    destruct (errno =? ENOSPC); [|now subst o].
    unfold watch_limit_reached in Ho. run_monad.
    destruct (negb (limit_reached s)); subst o; cbn [ends]; now apply (tree_frame s). }
  unfold bind at 1, table_get in Ho. proj_simpl.
  destruct (watches s !! wd') as [n|] eqn:Hn.
  - destruct (tree_consistent s T) as [Ht _]. destruct (Ht _ _ Hn) as (nd & Hnd & Hwd).
    unfold bind at 1, deref in Ho. proj_simpl. rewrite Hnd in Ho.
    destruct (negb (wd nd =? wd')); [now subst o|].
    unfold bind at 1, sys in Ho. proj_simpl.
    destruct (realpath (cstr (path_buf s)) w1) as [np w2].
    unfold bind at 1 in Ho.
    destruct (find_intersection_returns (cstr (path_buf s)) np (paths nd)
                (set_world w2 (set_world w1 s))) as (found & s1 & Hfind & _ & Hs).
    rewrite Hfind in Ho.
    assert (Hsame : watches s1 = watches s /\ heap s1 = heap s
                    /\ next_loc s1 = next_loc s).
    { repeat split;
        [apply (f_equal watches) in Hs | apply (f_equal heap) in Hs
         | apply (f_equal next_loc) in Hs]; exact Hs. }
    destruct Hsame as (Hst & Hsh & Hsl).
    assert (T2 : tree s1) by now apply (tree_frame s).
    destruct found as [code|]; [now subst o|].
    run_monad. subst o. cbn [ends].
    apply (tree_paths s1 n nd); [exact T2 | congruence].
  - unfold bind at 1, get_buf in Ho. unfold bind at 1, malloc in Ho. proj_simpl.
    assert (Hgraft : forall s' : state World,
              watches s' = <[wd' := next_loc s]> (watches s) ->
              next_loc s' = S (next_loc s) ->
              heap s' = match parent' with
                        | Some pp =>
                            match heap s !! pp with
                            | Some par =>
                                <[pp := with_kids (array_push (kids par)
                                                     (Some (next_loc s))) par]>
                                  (<[next_loc s := mk_watch_node wd' parent' None
                                       [new_watch_path path_len (path_buf s)]]> (heap s))
                            | None =>
                                <[next_loc s := mk_watch_node wd' parent' None
                                    [new_watch_path path_len (path_buf s)]]> (heap s)
                            end
                        | None =>
                            <[next_loc s := mk_watch_node wd' parent' None
                                [new_watch_path path_len (path_buf s)]]> (heap s)
                        end ->
              tree s').
    { intros s'. now apply tree_graft. }
    destruct parent' as [pp|].
    + destruct Hparent as [par Hpar].
      assert (Hne : next_loc s <> pp).
      { intros Heq. destruct (tree_consistent s T) as [_ Hl].
        assert (pp < next_loc s)%nat by (apply Hl; now rewrite Hpar). lia. }
      run_monad. rewrite lookup_insert_ne in Ho by exact Hne. rewrite Hpar in Ho.
      subst o. cbn [ends]. apply Hgraft; proj_simpl; [reflexivity..|].
      now rewrite Hpar.
    + run_monad. subst o. cbn [ends]. apply Hgraft; proj_simpl; reflexivity.
Qed.

(** [rm_watch] with the parent updated, on a forest. *)
Lemma rm_watch_tree (fuel : nat) (wd' : Z) (s : state World) :
  tree s -> ends false (rm_watch fuel wd' true s) tree.
Proof.
  intros T. destruct (watches s !! wd') as [n|] eqn:Hn.
  2:{ destruct fuel; [now split|]. now rewrite (rm_watch_absent fuel wd' true s Hn). }
  destruct (tree_consistent s T) as [Ht Hl]. destruct (Ht _ _ Hn) as (nd & Hnd & <-).
  destruct (tree_shape s T (next_loc s - n) n nd ltac:(lia) Hnd)
    as (t & Hs & Hh & Hdup & Hd).
  apply (ends_weaken (depth t <=? fuel)%nat _
           (removed (locs t) (handles s (locs t)) (unlink n s))).
  - apply (rm_watch_shape (depth t) fuel t s true n nd); try assumption; [lia|].
    intros _ pp Hp. destruct (tree_parent s T n nd pp Hnd Hp) as (pd & i & Hpd & Hi).
    destruct (tree_kids s T pp pd i n Hpd Hi) as [Hlt _].
    split; [|now rewrite Hpd].
    intros Hin. pose proof (holds_above s t T Hh n pp Hs Hin). lia.
  - intros s'. now apply (tree_removed s s' t n).
Qed.

Lemma select_entry_tree (path_len : nat) (entry : dirent) (s : state World) :
  tree s -> ends false (select_entry path_len entry s) tree.
Proof.
  intros T. destruct (select_entry path_len entry s) as [b s'|f s'] eqn:E.
  - destruct (select_entry_grows _ _ _ _ _ E) as (Ht & Hh & Hl). cbn [ends].
    now apply (tree_frame s).
  - exfalso. unfold select_entry in E.
    destruct (strcmp_eq (d_name entry) "." || strcmp_eq (d_name entry) "..");
      [discriminate|].
    destruct (negb (d_type entry =? DT_UNKNOWN) && negb (d_type entry =? DT_DIR));
      [discriminate|].
    run_monad. destruct (d_type entry =? DT_UNKNOWN); [|discriminate].
    match type of E with
    | context [stat ?p ?w] => destruct (stat p w) as [[[r e] st_mode] w1]
    end.
    destruct (negb (r =? 0)); [|destruct (negb (S_ISDIR st_mode))]; discriminate.
Qed.

Lemma walk_entries_tree
    (walk : nat -> option loc -> bool -> array string -> M World Z)
    (fuel path_len : nat) (id : Z) (recursive : bool) (mounts : array string) :
  (forall l p rc m (s : state World),
      tree s -> parent_ok s p -> ends false (walk l p rc m s) tree) ->
  forall entries (s : state World),
    tree s ->
    ends false (walk_entries walk fuel path_len id recursive mounts entries s) tree.
Proof.
  intros Hwalk. induction entries as [|entry rest IH]; intros s T; [exact T|].
  cbn [walk_entries].
  eapply ends_bind; [apply select_entry_tree, T|].
  intros descend s0 _ T0. destruct descend; [|now apply IH].
  unfold bind at 1, table_get.
  eapply ends_bind.
  - apply Hwalk; [exact T0|]. unfold parent_ok.
    destruct (watches s0 !! id) as [n|] eqn:Hn; [|exact I].
    destruct (tree_consistent s0 T0) as [Ht _].
    destruct (Ht _ _ Hn) as (nd & Hnd & _). now rewrite Hnd.
  - intros subdir_id s1 _ T1.
    destruct ((subdir_id <? 0) && negb (subdir_id =? ERR_IGNORE)); [|now apply IH].
    eapply ends_bind; [apply rm_watch_tree, T1|].
    intros u s2 _ T2. exact T2.
Qed.

Lemma walk_tree_tree (fuel : nat) :
  forall (path_len : nat) (parent' : option loc) (recursive : bool)
         (mounts : array string) (s : state World),
    tree s -> parent_ok s parent' ->
    ends false (walk_tree fuel path_len parent' recursive mounts s) tree.
Proof.
  induction fuel as [|fuel IH]; intros path_len parent' recursive mounts s T Hp;
    [now split|].
  cbn [walk_tree]. unfold bind at 1, get_path.
  destruct (crosses_mount (cstr (path_buf s)) mounts); [exact T|].
  destruct recursive; [|now apply add_watch_tree].
  unfold bind at 1, sys.
  destruct (opendir (cstr (path_buf s)) (world s)) as [[dir errno] w1].
  assert (T1 : tree (set_world w1 s)) by now apply (tree_frame s).
  destruct dir as [entries|].
  2:{ now destruct ((errno =? EACCES) || (errno =? ENOENT) || (errno =? ENOTDIR)). }
  eapply ends_bind; [apply add_watch_tree; [exact T1 | exact Hp]|].
  intros id s1 _ T2. destruct (id <? 0); [exact T2|].
  unfold bind at 1, update_buf.
  apply walk_entries_tree; [exact IH | now apply (tree_frame s1)].
Qed.

(** [watch] on a forest follows no dangling pointer and no null pointer:
    it returns, into a forest, or the fuel of the model ran out. *)
Lemma watch_tree (fuel : nat) (root : string) (mounts : array string)
    (s : state World) :
  cstr root <> EmptyString -> tree s ->
  ends false (watch fuel root mounts s) tree.
Proof.
  intros Hroot T.
  destruct (stat (snd (strip_bar root)) (world s)) as [[[r errno] st_mode] w1] eqn:Hstat.
  rewrite (watch_after_stat _ _ _ _ _ _ _ _ Hroot Hstat).
  assert (T1 : tree (set_world w1 s)) by now apply (tree_frame s).
  destruct (negb (r =? 0)); [exact T1|].
  destruct (negb (S_ISREG st_mode) && negb (S_ISDIR st_mode)); [exact T1|].
  unfold bind at 1 2, update_buf.
  apply walk_tree_tree; [now apply (tree_frame s) | exact I].
Qed.

End Forest_operations.

(** ** Removal of a node with everything beneath it *)

Section Subtree_removal.

Context {World : Type} `{K : Kernel World}.

Lemma beneath_trans (s : state World) (n k x : loc) :
  beneath s n k -> beneath s k x -> beneath s n x.
Proof.
  intros Hnk Hkx. induction Hkx as [|x xd i k' Hb IH Hx Hi]; [exact Hnk|].
  exact (beneath_kid s n x xd i k' IH Hx Hi).
Qed.

(** The addresses of a subtree that holds are beneath its root. *)
Lemma holds_beneath (s : state World) (t : shape) :
  holds s t -> forall n x, slot t = Some n -> x ∈ locs t -> beneath s n x.
Proof.
  induction t as [|n ks IH] using shape_induction; intros Hh n' x Hs Hx;
    [discriminate|].
  injection Hs as <-. inversion Hh as [|? ? nd Hn Hw Hk Hall Hpar]; subst.
  apply locs_inv in Hx as [-> | (t & Ht & Hx)]; [apply beneath_self|].
  rewrite Forall_forall in IH, Hall.
  destruct t as [|k ks']; [now apply elem_of_nil in Hx|].
  destruct (holds_slot s nd ks _ k Hk Ht eq_refl) as [i Hi].
  apply (beneath_trans s n k x).
  - exact (beneath_kid s n n nd i k (beneath_self s n) Hn Hi).
  - exact (IH _ Ht (Hall _ Ht) k x eq_refl Hx).
Qed.

(** What is beneath the root of a subtree that holds is one of its
    addresses. *)
Lemma beneath_holds (s : state World) (t : shape) (n x : loc) :
  holds s t -> slot t = Some n -> beneath s n x -> x ∈ locs t.
Proof.
  intros Hh Hs Hb. induction Hb as [|x xd i k Hb IH Hx Hi].
  - destruct t as [|n' ks]; [discriminate|]. injection Hs as ->.
    cbn [locs]. apply list_elem_of_here.
  - exact (holds_down s t Hh x xd i k IH Hx Hi).
Qed.

(** In a forest and with enough fuel, [rm_watch] of a handle that has an
    entry returns, and what it has done is this: the first slot holding the
    node was cleared in its parent, the node and every node beneath it were
    freed, and the table entries of their handles were deleted.  Nothing
    else in the heap or the table changed, and the nodes are a forest
    again. *)
Lemma rm_watch_subtree (fuel : nat) (wd' : Z) (s : state World) (n : loc) :
  tree s -> watches s !! wd' = Some n -> (next_loc s - n <= fuel)%nat ->
  exists s' L,
    rm_watch fuel wd' true s = Ret tt s'
    /\ (forall x, x ∈ L <-> beneath s n x)
    /\ removed L (handles s L) (unlink n s) s'
    /\ tree s'.
Proof.
  intros T Hn Hfuel.
  destruct (tree_consistent s T) as [Ht Hl]. destruct (Ht _ _ Hn) as (nd & Hnd & <-).
  destruct (tree_shape s T fuel n nd Hfuel Hnd) as (t & Hs & Hh & Hdup & Hd).
  assert (Hrun : ends (fuel <=? fuel)%nat (rm_watch fuel (wd nd) true s)
                   (removed (locs t) (handles s (locs t)) (unlink n s))).
  { apply (rm_watch_shape fuel fuel t s true n nd); try assumption.
    intros _ pp Hp. destruct (tree_parent s T n nd pp Hnd Hp) as (pd & i & Hpd & Hi).
    destruct (tree_kids s T pp pd i n Hpd Hi) as [Hlt _].
    split; [|now rewrite Hpd].
    intros Hin. pose proof (holds_above s t T Hh n pp Hs Hin). lia. }
  destruct (rm_watch fuel (wd nd) true s) as [[] s'|f s']; cbn [ends] in Hrun.
  2:{ destruct Hrun as [_ Hno]. rewrite Nat.leb_refl in Hno. discriminate. }
  exists s', (locs t). split; [reflexivity|]. split; [|split].
  - intros x. split; [now apply holds_beneath | now apply beneath_holds].
  - exact Hrun.
  - now apply (tree_removed s s' t n).
Qed.

Lemma ends_returned {A} (enough : bool) (o : outcome World A)
    (Q : state World -> Prop) :
  ends enough o Q -> is_Some (value o) -> Q (final o).
Proof. destruct o; cbn; [auto | intros _ [x H]; discriminate]. Qed.

Lemma init_state_tree (w : World) : tree (init_state w).
Proof.
  split.
  - apply init_state_consistent.
  - intros n nd H. cbn in H. now rewrite lookup_empty in H.
  - intros n nd i k H. cbn in H. now rewrite lookup_empty in H.
  - intros k kd p H. cbn in H. now rewrite lookup_empty in H.
  - intros n nd i j k H. cbn in H. now rewrite lookup_empty in H.
Qed.

(** A table entry of a forest designates a live node. *)
Lemma tree_parent_ok (s : state World) (id : Z) :
  tree s -> parent_ok s (watches s !! id).
Proof.
  intros T. unfold parent_ok. destruct (watches s !! id) as [n|] eqn:Hn; [|exact I].
  destruct (tree_consistent s T) as [Ht _].
  destruct (Ht _ _ Hn) as (nd & Hnd & _). now rewrite Hnd.
Qed.

(** ** A child that fails in the loop of [walk_tree] (C1) *)

(** C1, amended: in the loop of [walk_tree], a child whose walk answers a
    handle or [ERR_IGNORE] leaves everything registered in place (the node
    just registered included) and the loop goes on with the remaining
    entries.  A child whose walk answers any other negative outcome,
    [ERR_CONTINUE] included, makes the loop run [rm_watch] on the
    registered node and answer that outcome at once, whatever entries
    remain.  Where the nodes were a forest and the fuel suffices, that
    [rm_watch] returns, and the state then is the one the child's walk left
    with the registered node and every node beneath it freed, the table
    entries of their handles deleted and the slot of the node cleared in
    its parent; if the child's walk has already removed the registered
    node, nothing more is removed. *)
Theorem walk_entries_child_outcome (fuel path_len : nat) (id : Z) (recursive : bool)
    (mounts : array string) (entry : dirent) (rest : list dirent)
    (s s0 s1 : state World) (subdir_id : Z) :
  select_entry path_len entry s = Ret true s0 ->
  walk_tree fuel (path_len + 1 + strlen (d_name entry))%nat (watches s0 !! id)
            recursive mounts s0 = Ret subdir_id s1 ->
  (0 <= subdir_id \/ subdir_id = ERR_IGNORE ->
   walk_entries (walk_tree fuel) fuel path_len id recursive mounts (entry :: rest) s
   = walk_entries (walk_tree fuel) fuel path_len id recursive mounts rest s1
   /\ (consistent s -> grows s s1))
  /\ (subdir_id < 0 -> subdir_id <> ERR_IGNORE ->
      walk_entries (walk_tree fuel) fuel path_len id recursive mounts (entry :: rest) s
      = bind (rm_watch fuel id true) (fun _ => ret subdir_id) s1
      /\ (forall r s2,
            walk_entries (walk_tree fuel) fuel path_len id recursive mounts
                         (entry :: rest) s = Ret r s2 ->
            r = subdir_id /\ watches s2 !! id = None)
      /\ (tree s -> (next_loc s1 <= fuel)%nat ->
          exists s2,
            walk_entries (walk_tree fuel) fuel path_len id recursive mounts
                         (entry :: rest) s = Ret subdir_id s2
            /\ tree s2
            /\ match watches s1 !! id with
               | Some n =>
                   exists L, (forall x, x ∈ L <-> beneath s1 n x)
                             /\ removed L (handles s1 L) (unlink n s1) s2
               | None => s2 = s1
               end)).
Proof.
  intros Hsel Hwalk.
  rewrite (walk_entries_step _ _ _ _ _ _ _ rest _ _ _ _ Hsel Hwalk).
  split.
  - intros Hkeep. split.
    + assert ((subdir_id <? 0) && negb (subdir_id =? ERR_IGNORE) = false) as ->;
        [|reflexivity].
      destruct Hkeep as [Hpos | ->]; [|reflexivity].
      apply andb_false_iff. left. now apply Z.ltb_ge.
    + intros Hc.
      destruct (select_entry_grows _ _ _ _ _ Hsel) as (Ht & Hh & Hl).
      apply (grows_trans _ s0); [now apply grows_frame|].
      assert (Hc0 : consistent s0) by now apply (consistent_frame s).
      exact (proj1 (walk_tree_grows fuel _ _ _ _ s0 s1 subdir_id Hc0 Hwalk Hkeep)).
  - intros Hneg Hne.
    assert ((subdir_id <? 0) && negb (subdir_id =? ERR_IGNORE) = true) as ->.
    { apply andb_true_iff. split; [now apply Z.ltb_lt|].
      apply negb_true_iff. now apply Z.eqb_neq. }
    split; [reflexivity|]. split.
    + intros r s2 Hrun. bind_inv Hrun.
      unfold ret in Hrun. injection Hrun as <- <-.
      split; [reflexivity|]. exact (rm_watch_clears _ _ _ _ _ _ Hrun0).
    + intros T Hfuel.
      pose proof (select_entry_tree path_len entry s T) as T0.
      rewrite Hsel in T0. cbn [ends] in T0.
      pose proof (walk_tree_tree fuel (path_len + 1 + strlen (d_name entry))%nat
                    (watches s0 !! id) recursive mounts s0 T0
                    (tree_parent_ok s0 id T0)) as T1.
      rewrite Hwalk in T1. cbn [ends] in T1.
      destruct (watches s1 !! id) as [n|] eqn:Hn.
      * destruct (rm_watch_subtree fuel id s1 n T1 Hn ltac:(lia))
          as (s2 & L & Hrm & HL & Hrem & T2).
        exists s2. rewrite (bind_Ret _ _ _ _ _ Hrm).
        split; [reflexivity|]. split; [exact T2|]. exists L. now split.
      * destruct fuel as [|fuel]; [discriminate Hwalk|].
        exists s1. rewrite (bind_Ret _ _ _ _ _ (rm_watch_absent fuel id true s1 Hn)).
        split; [reflexivity|]. split; [exact T1 | reflexivity].
Qed.

End Subtree_removal.

Lemma quota_b_loop_tree : tree quota_b_loop.
Proof.
  unfold quota_b_loop.
  apply (ends_returned false); [|vm_compute; eexists; reflexivity].
  eapply ends_bind.
  - apply add_watch_tree; [|exact I].
    apply (tree_frame (init_state quota_at_b)); [reflexivity..|apply init_state_tree].
  - intros id s1 _ T1. eapply ends_bind.
    + unfold update_buf. cbn [ends].
      apply (tree_frame s1); [reflexivity..|exact T1].
    + intros u s2 _ T2. apply walk_entries_tree; [|exact T2].
      intros l p rc m s T Hp. now apply walk_tree_tree.
Qed.

Lemma walk_entries_child_outcome_witness :
  (exists s2,
     walk_entries (walk_tree 3) 3 2 1 true None [mk_dirent "b" DT_DIR] quota_b_loop
     = Ret ERR_CONTINUE s2
     /\ heap s2 !! 1%nat = None /\ heap s2 !! 2%nat = None
     /\ watches s2 !! 1 = None /\ watches s2 !! 2 = None)
  /\ walk_entries (walk_tree 3) 3 2 1 true None
                  [mk_dirent "a" DT_DIR; mk_dirent "f" DT_REG; mk_dirent "b" DT_DIR]
                  plain_loop
     = walk_entries (walk_tree 3) 3 2 1 true None
                    [mk_dirent "f" DT_REG; mk_dirent "b" DT_DIR]
                    (final (walk_tree 3 4 (Some 1%nat) true None
                              (final (select_entry 2 (mk_dirent "a" DT_DIR) plain_loop)))).
Proof.
  split.
  - set (s0 := final (select_entry 2 (mk_dirent "b" DT_DIR) quota_b_loop)).
    set (s1 := final (walk_tree 3 4 (Some 1%nat) true None s0)).
    destruct (walk_entries_child_outcome (K := tables_kernel) 3 2 1 true None
                (mk_dirent "b" DT_DIR) [] quota_b_loop s0 s1 ERR_CONTINUE
                ltac:(vm_compute; reflexivity) ltac:(vm_compute; reflexivity))
      as [_ Habort].
    destruct (Habort ltac:(reflexivity) ltac:(discriminate)) as (_ & _ & Hgone).
    destruct (Hgone quota_b_loop_tree ltac:(vm_compute; lia)) as (s2 & Hrun & _ & Hsub).
    assert (Hn : watches s1 !! 1 = Some 1%nat) by (vm_compute; reflexivity).
    rewrite Hn in Hsub. destruct Hsub as (L & HL & Hheap & Htable & _).
    assert (H1 : 1%nat ∈ L) by (apply HL, beneath_self).
    assert (H2 : 2%nat ∈ L).
    { apply HL. eapply (beneath_kid s1 1%nat 1%nat _ 0%nat 2%nat);
        [apply beneath_self | vm_compute; reflexivity | reflexivity]. }
    exists s2. split; [exact Hrun|]. split; [|split; [|split]].
    + rewrite (Hheap 1%nat). destruct (decide (1%nat ∈ L)); [reflexivity | contradiction].
    + rewrite (Hheap 2%nat). destruct (decide (2%nat ∈ L)); [reflexivity | contradiction].
    + rewrite (Htable 1). destruct (decide (1 ∈ handles s1 L)) as [|Hno]; [reflexivity|].
      exfalso. apply Hno, handles_elem. eexists 1%nat, _.
      split; [exact H1|]. split; [vm_compute; reflexivity | reflexivity].
    + rewrite (Htable 2). destruct (decide (2 ∈ handles s1 L)) as [|Hno]; [reflexivity|].
      exfalso. apply Hno, handles_elem. eexists 2%nat, _.
      split; [exact H2|]. split; [vm_compute; reflexivity | reflexivity].
  - destruct (walk_entries_child_outcome (K := tables_kernel) 3 2 1 true None
                (mk_dirent "a" DT_DIR) [mk_dirent "f" DT_REG; mk_dirent "b" DT_DIR]
                plain_loop
                (final (select_entry 2 (mk_dirent "a" DT_DIR) plain_loop))
                (final (walk_tree 3 4 (Some 1%nat) true None
                          (final (select_entry 2 (mk_dirent "a" DT_DIR) plain_loop))))
                2
                ltac:(vm_compute; reflexivity) ltac:(vm_compute; reflexivity))
      as [Hkeep _].
    apply Hkeep. left. discriminate.
Defined.

(** ** The walk of a created directory (C5, C10) *)

Section Event_walk.

Context {World : Type} `{K : Kernel World}.

Lemma bind_ext {A B} (m1 m2 : M World A) (k1 k2 : A -> M World B) (s : state World) :
  m1 s = m2 s -> (forall a s', k1 a s' = k2 a s') -> bind m1 k1 s = bind m2 k2 s.
Proof. intros Hm Hk. unfold bind. rewrite Hm. destruct (m2 s); auto. Qed.




(** *** The walk without mounts *)

Lemma walk_entries_unchecked_eq
    (walk1 : nat -> option loc -> bool -> array string -> M World Z)
    (walk2 : nat -> option loc -> M World Z) (fuel path_len : nat) (id : Z) :
  (forall l p (s : state World), walk1 l p true None s = walk2 l p s) ->
  forall entries (s : state World),
    walk_entries walk1 fuel path_len id true None entries s
    = walk_entries_unchecked walk2 fuel path_len id entries s.
Proof.
  intros Hw. induction entries as [|entry rest IH]; intros s;
    cbn [walk_entries walk_entries_unchecked]; [reflexivity|].
  apply bind_ext; [reflexivity|]. intros [|] s0; [|apply IH].
  apply bind_ext; [reflexivity|]. intros node s1.
  apply bind_ext; [apply Hw|]. intros subdir_id s2.
  destruct ((subdir_id <? 0) && negb (subdir_id =? ERR_IGNORE)); [reflexivity | apply IH].
Qed.

(** With the null mount array, [walk_tree] is the walk that checks no
    mount, at every depth. *)
Lemma walk_tree_unchecked (fuel : nat) :
  forall (path_len : nat) (parent' : option loc) (s : state World),
    walk_tree fuel path_len parent' true None s = walk_unchecked fuel path_len parent' s.
Proof.
  induction fuel as [|fuel IH]; intros path_len parent' s;
    cbn [walk_tree walk_unchecked]; [reflexivity|].
  apply bind_ext; [reflexivity|]. intros p s0. rewrite crosses_mount_none.
  apply bind_ext; [reflexivity|]. intros [[entries|] errno] s1; [|reflexivity].
  apply bind_ext; [reflexivity|]. intros id s2.
  destruct (id <? 0); [reflexivity|].
  apply bind_ext; [reflexivity|]. intros _ s3.
  apply walk_entries_unchecked_eq. exact IH.
Qed.

(** A handle [add_watch] answers is entered in the table for a node that
    carries it and has the path of [path_buf] among its aliases. *)
Lemma add_watch_alias (path_len : nat) (parent' : option loc) (s s' : state World)
    (r : Z) :
  add_watch path_len parent' s = Ret r s' -> 0 <= r ->
  exists n nd, watches s' !! r = Some n /\ heap s' !! n = Some nd /\ wd nd = r
               /\ new_watch_path path_len (path_buf s) ∈ paths nd.
Proof.
  unfold add_watch. unfold bind at 1 2, get_path, sys.
  destruct (inotify_add_watch (cstr (path_buf s)) EVENT_MASK (world s))
    as [[wd' errno] w1].
  destruct (Z.ltb_spec wd' 0) as [Hneg | Hpos].
  { destruct ((errno =? EACCES) || (errno =? ENOENT)).
    { intros H. injection H as <- <-. no_handle. }
    destruct (errno =? ENOSPC).
    - unfold watch_limit_reached. run_monad.
      destruct (negb (limit_reached s)); intros H; injection H as <- <-; no_handle.
    - intros H. injection H as <- <-. no_handle. }
  unfold bind at 1, table_get. proj_simpl.
  destruct (watches s !! wd') as [n|] eqn:Hn.
  - unfold bind at 1, deref. proj_simpl.
    destruct (heap s !! n) as [nd|] eqn:Hnd; [|discriminate].
    destruct (wd nd =? wd') eqn:Hwd; cbn [negb];
      [|intros H; injection H as <- <-; no_handle].
    unfold bind at 1, sys. proj_simpl.
    destruct (realpath (cstr (path_buf s)) w1) as [np w2].
    unfold bind at 1.
    destruct (find_intersection_returns (cstr (path_buf s)) np (paths nd)
                (set_world w2 (set_world w1 s))) as (found & s1 & -> & Hf & Hs).
    assert (Hsame : watches s1 = watches s /\ heap s1 = heap s
                    /\ path_buf s1 = path_buf s).
    { repeat split;
        [apply (f_equal watches) in Hs | apply (f_equal heap) in Hs
         | apply (f_equal path_buf) in Hs]; exact Hs. }
    destruct Hsame as (Ht & Hh & Hb).
    destruct found as [code|].
    + intros H. injection H as <- <-.
      destruct Hf as [Hf | [Hf | Hf]]; [discriminate | |]; injection Hf as ->;
        no_handle.
    + run_monad. intros H _. injection H as <- <-. proj_simpl.
      exists n, (with_paths (paths nd ++ [new_watch_path path_len (path_buf s1)]) nd).
      rewrite Ht, Hn, lookup_insert_eq, Hb.
      split; [reflexivity|]. split; [reflexivity|].
      split; [now apply Z.eqb_eq in Hwd|].
      cbn [paths with_paths]. apply elem_of_app. right. apply list_elem_of_here.
  - unfold bind at 1, get_buf. unfold bind at 1, malloc. proj_simpl.
    destruct parent' as [pp|].
    + unfold bind at 1 2, deref. proj_simpl.
      destruct (decide (pp = next_loc s)) as [-> | Hne].
      * rewrite lookup_insert_eq. run_monad. intros H _. injection H as <- <-.
        proj_simpl.
        eexists _, _. split; [apply lookup_insert_eq|].
        split; [apply lookup_insert_eq|].
        split; [reflexivity|]. cbn. apply list_elem_of_here.
      * rewrite lookup_insert_ne by congruence.
        destruct (heap s !! pp) as [par|]; [|discriminate].
        run_monad. intros H _. injection H as <- <-.
        proj_simpl.
        eexists _, _. split; [apply lookup_insert_eq|].
        split; [rewrite lookup_insert_ne by congruence; apply lookup_insert_eq|].
        split; [reflexivity|]. cbn. apply list_elem_of_here.
    + run_monad. intros H _. injection H as <- <-.
      proj_simpl.
      eexists _, _. split; [apply lookup_insert_eq|].
      split; [apply lookup_insert_eq|].
      split; [reflexivity|]. cbn. apply list_elem_of_here.
Qed.

(** A handle a recursive walk answers is entered in the table for a node
    that carries it and has the path the walk started on among its
    aliases, whatever the directory holds. *)
Lemma walk_tree_alias (fuel path_len : nat) (parent' : option loc)
    (mounts : array string) (s s' : state World) (r : Z) :
  consistent s ->
  walk_tree fuel path_len parent' true mounts s = Ret r s' -> 0 <= r ->
  exists n nd, watches s' !! r = Some n /\ heap s' !! n = Some nd /\ wd nd = r
               /\ new_watch_path path_len (path_buf s) ∈ paths nd.
Proof.
  intros Hc. destruct fuel as [|fuel]; [discriminate|].
  cbn [walk_tree]. unfold bind at 1, get_path.
  destruct (crosses_mount (cstr (path_buf s)) mounts).
  { intros H. injection H as <- <-. no_handle. }
  unfold bind at 1, sys.
  destruct (opendir (cstr (path_buf s)) (world s)) as [[dir errno] w1].
  assert (Hc1 : consistent (set_world w1 s)) by now apply (consistent_frame s).
  destruct dir as [entries|].
  2:{ destruct ((errno =? EACCES) || (errno =? ENOENT) || (errno =? ENOTDIR));
        intros H; injection H as <- <-; no_handle. }
  intros H Hr. bind_inv H.
  pose proof (safe_add_watch path_len parent' _ Hc1) as Hc2.
  rewrite Hrun in Hc2. cbn [final] in Hc2.
  destruct (Z.ltb_spec a 0) as [Hneg | Hpos]; [injection H as <- <-; lia|].
  destruct (add_watch_alias _ _ _ _ _ Hrun Hpos) as (n & nd & Hn & Hnd & Hwd & Hin).
  proj_simpl.
  unfold bind at 1, update_buf in H.
  assert (Hc3 : consistent (set_path_buf (poke path_len "/" (path_buf s0)) s0))
    by now apply (consistent_frame s0).
  destruct (walk_entries_grows (walk_tree fuel) fuel path_len a true mounts
              (fun l p rc m s s' r Hc H Hk =>
                 proj1 (walk_tree_grows fuel l p rc m s s' r Hc H Hk))
              (safe_walk_tree fuel) entries _ _ _ Hc3 H (or_introl Hr))
    as [(Ht & Hh & _) ->].
  destruct (Hh n nd Hnd) as (nd' & Hnd' & Hwd' & _ & [more Hp] & _).
  exists n, nd'. split; [apply Ht; exact Hn|]. split; [exact Hnd'|].
  split; [congruence|]. rewrite Hp. apply elem_of_app. now left.
Qed.

(** C10: when the processing of a directory-creating event has reached an
    alias of the node, what follows is the walk of the new path that
    checks no mount, with the node as parent, and then the rest of the
    processing: [walk_tree] is called recursively with the null mount
    array, and with that array it is the walk without any mount check, on
    the new directory and on everything beneath it.  So whatever the new
    directory holds, a handle that walk answers is entered in the table
    for a node that has the new path among its aliases, and nothing
    registered before is lost; whereas the walk of any path under a mount
    set of which a mount is a prefix of that path answers [ERR_IGNORE]
    and registers nothing. *)
Theorem created_directory_walked_without_mounts (fuel : nat) (event : inotify_event)
    (is_dir : bool) (node : loc) (i : nat) (nd : watch_node) (wp : watch_path)
    (s s1 : state World) (len : nat) :
  heap s !! node = Some nd ->
  paths nd !! i = Some wp ->
  creates_dir is_dir (ev_mask event) = true ->
  announce event wp s = Ret len s1 ->
  each_alias (S fuel) event is_dir node i s
  = bind (walk_unchecked fuel len (Some node)) (after_walk fuel event is_dir node i) s1
  /\ (forall fuel' len' parent' (s' : state World),
        walk_tree fuel' len' parent' true None s' = walk_unchecked fuel' len' parent' s')
  /\ (forall result s2,
        consistent s ->
        walk_unchecked fuel len (Some node) s1 = Ret result s2 ->
        0 <= result ->
        grows s s2
        /\ exists n2 nd2,
             watches s2 !! result = Some n2 /\ heap s2 !! n2 = Some nd2
             /\ wd nd2 = result
             /\ new_watch_path len (path_buf s1) ∈ paths nd2)
  /\ (forall mounts fuel' len' parent' recursive (s' : state World),
        crosses_mount (cstr (path_buf s')) mounts = true ->
        walk_tree (S fuel') len' parent' recursive mounts s' = Ret ERR_IGNORE s').
Proof.
  intros Hnode Hwp Hcreate Hann.
  split; [|split; [|split]].
  - cbn [each_alias]. unfold bind at 1, deref. rewrite Hnode, Hwp.
    rewrite (bind_Ret _ _ _ _ _ Hann), Hcreate.
    unfold bind. rewrite walk_tree_unchecked.
    destruct (walk_unchecked fuel len (Some node) s1) as [result s2|f s2];
      [|reflexivity].
    unfold after_walk, ret, bind. now destruct (fatal result).
  - intros fuel' len' parent' s'. apply walk_tree_unchecked.
  - intros result s2 Hc Hwalk Hpos. rewrite <- walk_tree_unchecked in Hwalk.
    destruct (announce_frame _ _ _ _ _ Hann) as (_ & Ht & Hh & Hl).
    assert (Hc1 : consistent s1) by now apply (consistent_frame s).
    split.
    + apply (grows_trans _ s1); [now apply grows_frame|].
      exact (proj1 (walk_tree_grows fuel _ _ _ _ s1 s2 result Hc1 Hwalk
                      (or_introl Hpos))).
    + exact (walk_tree_alias fuel len (Some node) None s1 s2 result Hc1 Hwalk Hpos).
  - intros mounts fuel' len' parent' recursive s' Hcross.
    cbn [walk_tree]. unfold bind, get_path. now rewrite Hcross.
Qed.

End Event_walk.


(** The failed walk itself can remove the current node: on [shared_handle]
    the kernel gives the new directory [/r/d] the handle of [/r], so the
    entries of [/r/d] are walked under the node of [/r], and when [/r/d/x]
    is refused the walk removes that node before it answers [ERR_ABORT].
    The event is answered with false and the table and the heap are
    empty. *)
Lemma failed_walk_can_remove_current_node :
  watches watching_shared !! 1 = Some 1%nat
  /\ value (process_inotify_event 5 (dir_event IN_CREATE "d") watching_shared)
     = Some false
  /\ watches (final (process_inotify_event 5 (dir_event IN_CREATE "d") watching_shared))
     = ∅
  /\ heap (final (process_inotify_event 5 (dir_event IN_CREATE "d") watching_shared))
     = ∅.
Proof. repeat split; vm_compute; reflexivity. Qed.

Lemma created_directory_walked_without_mounts_witness :
  (exists s',
     process_inotify_event 5 (dir_event IN_CREATE "m") watching_deep = Ret true s'
     /\ watches s' !! 2 = Some 2%nat
     /\ heap s' !! 2%nat
        = Some (mk_watch_node 2 (Some 1%nat) (Some [Some 3%nat]) [mk_watch_path 4 "/r/m"])
     /\ watches s' !! 3 = Some 3%nat
     /\ heap s' !! 3%nat
        = Some (mk_watch_node 3 (Some 2%nat) None [mk_watch_path 8 "/r/m/sub"]))
  /\ walk_tree 4 4 (Some 1%nat) true (Some ["/r/m"%string])
               (final (announce (dir_event IN_CREATE "m") (mk_watch_path 2 "/r")
                         watching_deep))
     = Ret ERR_IGNORE
           (final (announce (dir_event IN_CREATE "m") (mk_watch_path 2 "/r")
                     watching_deep)).
Proof.
  destruct (created_directory_walked_without_mounts (K := tables_kernel) 4
              (dir_event IN_CREATE "m") true 1%nat 0%nat
              (mk_watch_node 1 None None [mk_watch_path 2 "/r"])
              (mk_watch_path 2 "/r") watching_deep
              (final (announce (dir_event IN_CREATE "m") (mk_watch_path 2 "/r")
                        watching_deep))
              4%nat
              ltac:(vm_compute; reflexivity) ltac:(reflexivity)
              ltac:(vm_compute; reflexivity) ltac:(vm_compute; reflexivity))
    as (Hrun & _ & _ & Hmounts).
  split.
  - assert (Hev : process_inotify_event 5 (dir_event IN_CREATE "m") watching_deep
                  = each_alias 5 (dir_event IN_CREATE "m") true 1%nat 0%nat watching_deep)
      by (vm_compute; reflexivity).
    rewrite Hev, Hrun. eexists. split; [vm_compute; reflexivity|].
    repeat split; vm_compute; reflexivity.
  - apply (Hmounts (Some ["/r/m"%string]) 3%nat). vm_compute. reflexivity.
Defined.

(** ** The forest under events *)

Section Forest_events.

Context {World : Type} `{K : Kernel World}.

Lemma returns_bind {A B} (m : M World A) (k : A -> M World B) (s : state World)
    (Q1 Q2 : state World -> Prop) :
  returns (m s) Q1 ->
  (forall a s1, m s = Ret a s1 -> Q1 s1 -> returns (k a s1) Q2) ->
  returns (bind m k s) Q2.
Proof. unfold bind. destruct (m s) as [a s1|f s1]; cbn; [auto | trivial]. Qed.

Lemma ends_returns {A} (enough : bool) (o : outcome World A)
    (Q : state World -> Prop) :
  ends enough o Q -> returns o Q.
Proof. destruct o; cbn; [auto | trivial]. Qed.

(** The loop of lines 396-408 on a forest: when it returns, the child it
    has removed is gone with everything beneath it and its slot is
    cleared, so that the nodes are a forest again. *)
Lemma prune_kid_tree (fuel : nat) (node : loc) (nd : watch_node) :
  forall (rest : list (option loc)) (i : nat) (s : state World),
    tree s -> heap s !! node = Some nd ->
    (forall j x, rest !! j = Some x -> array_elems (kids nd) !! (i + j)%nat = Some x) ->
    returns (prune_kid (rm_watch fuel) node i rest s) tree.
Proof.
  induction rest as [|slot rest IH]; intros i s T Hnode Hrest; cbn [prune_kid];
    [exact T|].
  destruct slot as [k|]; [|exact I].
  assert (Hslot : array_elems (kids nd) !! i = Some (Some k)).
  { rewrite <- (Nat.add_0_r i). now apply Hrest. }
  assert (Hi : array_get (kids nd) i = Some k) by (unfold array_get; now rewrite Hslot).
  destruct (tree_kids s T node nd i k Hnode Hi) as (Hlt & kd & Hkd & Hpar).
  unfold bind at 1, deref. rewrite Hkd.
  assert (Hnext : returns (prune_kid (rm_watch fuel) node (S i) rest s) tree).
  { apply IH; try assumption. intros j x Hj.
    replace (S i + j)%nat with (i + S j)%nat by lia. now apply Hrest. }
  destruct (paths kd) as [|wp [|wp' more]]; try exact Hnext.
  unfold bind at 1, get_buf.
  destruct (strncmp_eq (path_buf s) (path wp) (path_len wp)); [|exact Hnext].
  destruct (tree_shape s T (next_loc s - k) k kd (le_n _) Hkd)
    as (t & Hs & Hh & Hdup & Hd).
  pose proof (rm_watch_shape (depth t) fuel t s false k kd (le_n _) Hh Hdup Hs Hkd
                ltac:(discriminate)) as Hrm.
  cbv iota in Hrm.
  unfold bind at 1.
  destruct (rm_watch fuel (wd kd) false s) as [[] s1|f s1]; [|exact I].
  cbn [ends] in Hrm.
  assert (Hout : node ∉ locs t).
  { intros Hin. pose proof (holds_above s t T Hh k node Hs Hin). lia. }
  pose proof Hrm as (Hheap & _).
  unfold bind at 1, deref. rewrite (Hheap node).
  destruct (decide (node ∈ locs t)) as [|_]; [contradiction|]. rewrite Hnode.
  unfold store. cbn [returns].
  destruct (kids nd) as [slots|] eqn:Hk; [|discriminate].
  cbn [array_elems] in Hslot. cbn [array_put].
  apply (tree_removed s _ t k T Hh Hs).
  assert (Hunlink : unlink k s
            = set_heap (<[node := with_kids (Some (clear_slot k slots)) nd]> (heap s)) s).
  { unfold unlink. now rewrite Hkd, Hpar, Hnode, Hk. }
  rewrite Hunlink.
  rewrite <- (clear_slot_insert k slots i Hslot).
  - now apply removed_store.
  - intros j Hj. symmetry. apply (tree_nodup s T node nd i j k Hnode).
    + unfold array_get. rewrite Hk. cbn [array_elems]. now rewrite Hslot.
    + unfold array_get. rewrite Hk. cbn [array_elems]. now rewrite Hj.
Qed.

(** What follows the walk in [each_alias], on a forest. *)
Lemma after_event_tree (fuel : nat) (event : inotify_event) (is_dir : bool)
    (node : loc) (i : nat) (s : state World) :
  (forall i (s : state World), tree s -> returns (each_alias fuel event is_dir node i s) tree) ->
  tree s ->
  returns (bind (if deletes_dir is_dir (ev_mask event)
                 then bind (deref node) (fun nd =>
                        prune_kid (rm_watch fuel) node 0 (array_elems (kids nd)))
                 else ret tt)
             (fun _ => each_alias fuel event is_dir node (S i)) s) tree.
Proof.
  intros IH T. apply (returns_bind _ _ _ tree).
  - destruct (deletes_dir is_dir (ev_mask event)); [|exact T].
    unfold bind, deref. destruct (heap s !! node) as [nd|] eqn:Hnd; [|exact I].
    apply (prune_kid_tree fuel node nd); [exact T | exact Hnd |].
    intros j x Hj. exact Hj.
  - intros _ s1 _ T1. now apply IH.
Qed.

Lemma each_alias_tree (fuel : nat) (event : inotify_event) (is_dir : bool)
    (node : loc) :
  forall (i : nat) (s : state World),
    tree s -> returns (each_alias fuel event is_dir node i s) tree.
Proof.
  induction fuel as [|fuel IH]; intros i s T; [exact I|].
  cbn [each_alias]. unfold bind at 1, deref.
  destruct (heap s !! node) as [nd|] eqn:Hnd; [|exact I].
  destruct (paths nd !! i) as [wp|]; [|exact T].
  unfold bind at 1.
  destruct (announce event wp s) as [len s1|f s1] eqn:Hann; [|exact I].
  destruct (announce_frame _ _ _ _ _ Hann) as (_ & Ht & Hh & Hl).
  assert (T1 : tree s1) by now apply (tree_frame s).
  unfold bind at 1.
  destruct (creates_dir is_dir (ev_mask event)).
  - unfold bind at 1.
    assert (Hp : parent_ok s1 (Some node)) by (cbn; rewrite Hh, Hnd; now eexists).
    pose proof (walk_tree_tree fuel len (Some node) true None s1 T1 Hp) as T2.
    destruct (walk_tree fuel len (Some node) true None s1) as [result s2|f s2];
      [|exact I].
    cbn [ends] in T2. unfold ret at 1.
    destruct (fatal result); [exact T2|]. now apply after_event_tree.
  - unfold ret at 1. now apply after_event_tree.
Qed.

Lemma process_events_tree (fuel : nat) :
  forall (events : list inotify_event) (s : state World),
    tree s -> returns (process_events fuel events s) tree.
Proof.
  induction events as [|event rest IH]; intros s T; cbn [process_events]; [exact T|].
  destruct (negb (Z.land (ev_mask event) IN_IGNORED =? 0)); [now apply IH|].
  destruct (negb (Z.land (ev_mask event) IN_Q_OVERFLOW =? 0)); [now apply IH|].
  apply (returns_bind _ _ _ tree).
  - unfold process_inotify_event, bind, table_get.
    destruct (watches s !! ev_wd event) as [n|]; [|exact T].
    now apply each_alias_tree.
  - intros ok s1 _ T1. destruct ok; [now apply IH | exact T1].
Qed.

Lemma process_inotify_input_tree (fuel : nat) (s : state World) :
  tree s -> returns (process_inotify_input fuel s) tree.
Proof.
  intros T. unfold process_inotify_input, bind, sys.
  destruct (read_events (world s)) as [batch w1].
  assert (T1 : tree (set_world w1 s)) by now apply (tree_frame s).
  destruct batch as [events|]; [now apply process_events_tree | exact T1].
Qed.

Lemma run_command_tree (fuel : nat) (c : command) (s : state World) :
  tree s -> returns (run_command fuel c s) tree.
Proof.
  intros T. destruct c as [root mounts | id |]; cbn [run_command].
  - apply (returns_bind _ _ _ tree); [|intros a s1 _ T1; exact T1].
    destruct (string_dec (cstr root) EmptyString) as [He | Hne].
    + unfold watch, strip_bar. rewrite He. cbn. exact I.
    + apply (ends_returns false). now apply watch_tree.
  - apply (ends_returns false). now apply rm_watch_tree.
  - apply (returns_bind _ _ _ tree); [|intros a s1 _ T1; exact T1].
    now apply process_inotify_input_tree.
Qed.

Lemma returning_tree (fuel : nat) :
  forall (cs : list command) (s s' : state World),
    tree s -> returning fuel cs s = Some s' -> tree s'.
Proof.
  induction cs as [|c rest IH]; intros s s' T; cbn [returning].
  - intros H. injection H as <-. exact T.
  - pose proof (run_command_tree fuel c s T) as T1.
    destruct (run_command fuel c s) as [u s1|f s1]; [|discriminate].
    now apply IH.
Qed.

(** [unwatch] of a registered handle, in a forest and with enough fuel,
    returns; it has then freed the node of the handle and every node
    beneath it and deleted the table entries of their handles, and has
    cleared the first slot holding the node in its parent.  Every other
    node and every other table entry is as before, and the nodes are a
    forest again. *)
Theorem unwatch_removes_subtree (fuel : nat) (id : Z) (s : state World) (n : loc) :
  tree s -> watches s !! id = Some n -> (next_loc s - n <= fuel)%nat ->
  exists s' L,
    unwatch fuel id s = Ret tt s'
    /\ (forall x, x ∈ L <-> beneath s n x)
    /\ removed L (handles s L) (unlink n s) s'
    /\ tree s'.
Proof. apply rm_watch_subtree. Qed.

(** [watch] in a forest follows no null and no dangling pointer: it
    returns, into a forest, unless the fuel of the model runs out. *)
Theorem watch_keeps_forest (fuel : nat) (root : string) (mounts : array string)
    (s : state World) :
  cstr root <> EmptyString -> tree s ->
  match watch fuel root mounts s with
  | Ret _ s' => tree s'
  | Crash f _ => f = OutOfFuel
  end.
Proof.
  intros Hroot T. pose proof (watch_tree fuel root mounts s Hroot T) as H.
  destruct (watch fuel root mounts s); cbn [ends] in H; [exact H | apply H].
Qed.

(** The nodes stay a forest: whatever the daemon asks for, every state a
    run of [watch], [unwatch] and [process_inotify_input] calls returns
    into from a forest is a forest. *)
Theorem forest_is_kept (fuel : nat) (cs : list command) (s s' : state World) :
  tree s -> returning fuel cs s = Some s' -> tree s'.
Proof. apply returning_tree. Qed.

End Forest_events.

Lemma unwatch_removes_subtree_witness :
  exists s',
    unwatch 3 1 watching_r = Ret tt s'
    /\ heap s' !! 1%nat = None /\ heap s' !! 2%nat = None /\ heap s' !! 3%nat = None.
Proof.
  assert (T : tree watching_r).
  { unfold watching_r.
    apply (ends_returned false); [|vm_compute; eexists; reflexivity].
    apply watch_tree; [discriminate | apply init_state_tree]. }
  destruct (unwatch_removes_subtree (K := tables_kernel) 3 1 watching_r 1%nat T
              ltac:(vm_compute; reflexivity) ltac:(vm_compute; lia))
    as (s' & L & Hrun & HL & (Hheap & _) & _).
  assert (H1 : 1%nat ∈ L) by (apply HL, beneath_self).
  assert (H2 : 2%nat ∈ L).
  { apply HL. eapply (beneath_kid watching_r 1%nat 1%nat _ 0%nat 2%nat);
      [apply beneath_self | vm_compute; reflexivity | reflexivity]. }
  assert (H3 : 3%nat ∈ L).
  { apply HL. eapply (beneath_kid watching_r 1%nat 1%nat _ 1%nat 3%nat);
      [apply beneath_self | vm_compute; reflexivity | reflexivity]. }
  exists s'. split; [exact Hrun|]. split; [|split].
  - rewrite (Hheap 1%nat). destruct (decide (1%nat ∈ L)); [reflexivity | contradiction].
  - rewrite (Hheap 2%nat). destruct (decide (2%nat ∈ L)); [reflexivity | contradiction].
  - rewrite (Hheap 3%nat). destruct (decide (3%nat ∈ L)); [reflexivity | contradiction].
Defined.

Lemma watch_keeps_forest_witness : tree watching_r.
Proof.
  pose proof (watch_keeps_forest (K := tables_kernel) 5 "/r" None (init_state two_dirs)
                ltac:(discriminate) (init_state_tree two_dirs)) as H.
  assert (Hrun : exists id, watch 5 "/r" None (init_state two_dirs) = Ret id watching_r)
    by (vm_compute; eexists; reflexivity).
  destruct Hrun as [id Hrun]. rewrite Hrun in H. exact H.
Defined.

Lemma forest_is_kept_witness :
  tree (run 5 [Watch "/r" None; Input; Input; Watch "|/r" None; Unwatch 1]
           (init_state deep_growth_events)).
Proof.
  apply (forest_is_kept (K := tables_kernel) 5
           [Watch "/r" None; Input; Input; Watch "|/r" None; Unwatch 1]
           (init_state deep_growth_events));
    [apply init_state_tree | vm_compute; reflexivity].
Defined.
